(** * k8s-release-manager: remote state, conflict check and deployment

    A shallow embedding of the Go packages [state], [importt] and
    [transfer] of the release manager, with the properties of the state
    record lifecycle, the conflict check and the deployment loop proved
    on it.

    Conventions of the embedding.
    - A Go result pair [(v, err)] is a Rocq pair [(v, option error)];
      [None] is the nil error.
    - A method with a pointer receiver takes the receiver's value and
      returns the updated one (explicit state passing).
    - [*rls.Release] values are addresses into a [Heap]; a rewrite through
      a pointer is a heap update, so aliasing between the batch slice and
      the loop variable is kept.
    - Goroutines are run by an explicit schedule given as an argument.
      What is proved of a function that starts goroutines is proved for
      all schedules, unless the statement names the schedule. *)

From Stdlib Require Import ZArith Lia DecimalString.
From stdpp Require Import base strings list gmap functions.

(** ** Shared vocabulary *)

(** Go's [error], identified with its message. *)
Definition error := string.

(** Go's [[]byte]. *)
Definition bytes := list Byte.byte.

#[global] Instance byte_eq_dec : EqDecision Byte.byte := Byte.byte_eq_dec.

(** The format verbs [%s] and [%v] of a string or an error give the string
    itself: every [fmt.Sprintf] below is a concatenation. *)

(** The format verb [%d] of a length: its decimal digits. *)
Definition fmt_d (n : nat) : string :=
  DecimalString.NilZero.string_of_uint (Nat.to_uint n).

Module rls.

(** Modelled from the spec: the release type comes from the installer's
    library and is not among the sources.  It has a name, a namespace, a
    revision counter and a key/value configuration map that is rewritten
    by key. *)
Record Release := mkRelease {
  Name : string;
  Namespace : string;
  Version : Z;
  Values : gmap string string
}.

#[global] Instance Release_eq_dec : EqDecision Release.
Proof. solve_decision. Defined.

End rls.

(** Addresses of releases and the store they point into. *)
Abbreviation ptr := nat (only parsing).
Abbreviation Heap := (ptr -> rls.Release) (only parsing).

(** logrus levels used by the sources. *)
Inductive Level := DebugLevel | InfoLevel | WarnLevel | ErrorLevel | FatalLevel.

#[global] Instance Level_eq_dec : EqDecision Level.
Proof. solve_decision. Defined.

(** What a run emits: text on standard output, a log line, and (as a
    ghost record of the call) a release handed to the install capability. *)
Inductive Output :=
| Stdout (s : string)
| Log (l : Level) (s : string)
| Install (r : rls.Release).

#[global] Instance Output_eq_dec : EqDecision Output.
Proof. solve_decision. Defined.

(** How a call ends: it returns, the process exits ([log.Fatalf]), the
    calling goroutine blocks for ever, or it panics on a nil pointer. *)
Inductive Outcome (A : Type) :=
| Returns (a : A)
| Exits
| Blocks
| Panics.
Arguments Returns {A} a.
Arguments Exits {A}.
Arguments Blocks {A}.
Arguments Panics {A}.

Module config.

Module BackendConfig.
Record t := { StoragePath : string }.
End BackendConfig.

Module ExportConfig.
Record t := { ReleaseName : string }.
End ExportConfig.

Module ImportConfig.
Record t := {
  Namespace : string;
  ExcludeNamespaces : list string;
  Values : gmap string string;
  Target : string;
  NewStoragePath : string;
  Force : bool
}.
End ImportConfig.

Module TransferConfig.
Record t := { NewStoragePath : string; Force : bool }.
End TransferConfig.

Record Config := {
  Backend : BackendConfig.t;
  Export : ExportConfig.t;
  Import : ImportConfig.t;
  Transfer : TransferConfig.t;
  DryRun : bool;
  VerboseMode : bool
}.

End config.

Module constants.

(** The constants package is not among the sources: its values are
    parameters of the development. *)
Class Values := {
  ManagerStateFilename : string;
  ReleaseExtension : string;
  ValueStoragePath : string;
  ImportMaxThreads : nat
}.

End constants.

Module backend.

(** The storage interface the state package is written against.  A call
    may change the store [B] and may fail. *)
Class Backend (B : Type) := {
  List : string -> B -> (list string * option error) * B;
  Read : string -> B -> (bytes * option error) * B;
  Write : string -> bytes -> B -> option error * B;
  Delete : string -> B -> option error * B;
  PathSeparator : B -> string
}.

End backend.

Module release.

(** The release package is not among the sources.  Its codec and its
    renderer are parameters; [UpdateError] says when rewriting a key of a
    release fails, and with which error. *)
Class Ops := {
  Filename : rls.Release -> string;
  FromFile : bytes -> rls.Release * option error;
  ToString : rls.Release -> bool -> string;
  UpdateError : rls.Release -> string -> string -> option error
}.

(** [release.ToFile], the encoder that [WriteRelease] calls, as a
    parameter of its own. *)
Class Encoder := {
  ToFile : rls.Release -> bytes * option error
}.

Definition setValue (r : rls.Release) (name value : string) : rls.Release :=
  rls.mkRelease (rls.Name r) (rls.Namespace r) (rls.Version r)
                (<[name := value]> (rls.Values r)).

(** Modelled from the spec: [release.UpdateValue] is not among the
    sources.  Releases are passed by reference and a key of the release's
    configuration map is rewritten by key: the release behind [r] is
    rewritten in place and the same reference is returned; a failed
    rewrite leaves the release as it was and returns the error. *)
Definition UpdateValue `{!Ops} (r : ptr) (name value : string) (h : Heap)
  : (ptr * option error) * Heap :=
  match UpdateError (h r) name value with
  | Some e => ((r, Some e), h)
  | None => ((r, None), <[r := setValue (h r) name value]> h)
  end.

End release.

Module regexp.

(** Go's regexp package, kept abstract: compiling a pattern may fail,
    a compiled pattern decides strings. *)
Class Engine := {
  Regexp : Type;
  Compile : string -> Regexp * option error;
  MatchString : Regexp -> string -> bool
}.

End regexp.

(** ** Package state *)

Module state.

(** The state record. *)
Record Info := mkInfo {
  ReleaseFilename : string;
  ReleaseName : string;
  ReleaseVersion : Z
}.

#[global] Instance Info_eq_dec : EqDecision Info.
Proof. solve_decision. Defined.

(** The codec of the state record: [Info.Serialize] and
    [json.Unmarshal] into a zero [Info] (which returns the record it
    filled together with the error, if any). *)
Class Codec := {
  Serialize : Info -> bytes * option error;
  Unmarshal : bytes -> Info * option error
}.

(** Ghost record of the calls made on the backend. *)
Inductive Call :=
| CList (path : string)
| CRead (path : string)
| CWrite (path : string) (f : bytes)
| CDelete (path : string).

#[global] Instance Call_eq_dec : EqDecision Call.
Proof. solve_decision. Defined.

Definition isWrite (c : Call) : bool :=
  match c with CWrite _ _ => true | _ => false end.

Definition isRead (c : Call) : bool :=
  match c with CRead _ => true | _ => false end.

(** Number of [Backend.Write] calls in a record of calls. *)
Definition writes (cs : list Call) : nat := length (filter isWrite cs).

Section WithBackend.

Context {B : Type} `{!backend.Backend B} `{!constants.Values}
        `{!Codec} `{!release.Ops} `{!regexp.Engine}.

(** [State] with the ghost fields [calls] and [logs]. *)
Record State := mkState {
  Backend : B;
  Config : config.Config;
  init : bool;
  calls : list Call;
  logs : list (Level * string)
}.

Definition StoragePath (s : State) : string :=
  config.BackendConfig.StoragePath (config.Backend (Config s)).

Definition ExportReleaseName (s : State) : string :=
  config.ExportConfig.ReleaseName (config.Export (Config s)).

Definition setInit (v : bool) (s : State) : State :=
  mkState (Backend s) (Config s) v (calls s) (logs s).

Definition logf (l : Level) (msg : string) (s : State) : State :=
  mkState (Backend s) (Config s) (init s) (calls s) (logs s ++ [(l, msg)]).

(** The store after a backend call, with the call recorded. *)
Definition called (c : Call) (b : B) (s : State) : State :=
  mkState b (Config s) (init s) (calls s ++ [c]) (logs s).

Definition remoteFilePath (s : State) (name : string) : string :=
  if decide (StoragePath s = backend.PathSeparator (Backend s)) then name
  else StoragePath s +:+ backend.PathSeparator (Backend s) +:+ name.

Definition Path (s : State) : string :=
  remoteFilePath s constants.ManagerStateFilename.

Definition read (s : State) : (option Info * option error) * State :=
  let path := Path s in
  let s := logf DebugLevel ("Reading state from " +:+ path) s in
  let '((f, err), b) := backend.Read path (Backend s) in
  let s := called (CRead path) b s in
  match err with
  | Some e => ((None, Some e), s)
  | None => let '(i, err) := Unmarshal f in ((Some i, err), s)
  end.

Definition write (i : Info) (s : State) : option error * State :=
  let '(f, err) := Serialize i in
  match err with
  | Some e => (Some e, s)
  | None =>
      let path := Path s in
      let '(err, b) := backend.Write path f (Backend s) in
      (err, called (CWrite path f) b s)
  end.

Definition delete (s : State) : option error * State :=
  let path := Path s in
  let s := logf DebugLevel ("Removing remote state " +:+ path) s in
  let '(err, b) := backend.Delete path (Backend s) in
  (err, called (CDelete path) b s).

(** [Init]: a run starts with [init] unset and, with a configured manager
    release name, with the old state record removed (a failure to remove
    it is only logged). *)
Definition Init (s : State) : option error * State :=
  let s := setInit false s in
  if decide (ExportReleaseName s ≠ "") then
    let path := remoteFilePath s constants.ManagerStateFilename in
    let s := logf InfoLevel ("Removing old state " +:+ path) s in
    let '(err, b) := backend.Delete path (Backend s) in
    let s := called (CDelete path) b s in
    match err with
    | Some e =>
        (None, logf WarnLevel
                 ("Error cleaning up old release manager state: " +:+ e) s)
    | None => (None, s)
    end
  else (None, s).

(** [Remove] is [delete]. *)
Definition Remove (s : State) : option error * State := delete s.

Definition isManagerRelease (s : State) (name : string) : bool :=
  if decide (ExportReleaseName s ≠ "" ∧ name = ExportReleaseName s)
  then true else false.

(** [reflect.DeepEqual(i, oldInfo)] on a non-nil [i]: a nil [oldInfo]
    is different, two records are compared field by field. *)
Definition DeepEqual (i : Info) (oldInfo : option Info) : bool :=
  match oldInfo with
  | Some o => bool_decide (i = o)
  | None => false
  end.

Definition updateState (i : Info) (s : State) : option error * State :=
  let update := false in
  let '(update, s) :=
    if init s then
      let '((oldInfo, e), s) := read s in
      let '(update, s) :=
        match e with
        | Some e' =>
            (true, logf WarnLevel ("Error reading remote state: " +:+ e') s)
        | None => (update, s)
        end in
      let update := if negb (DeepEqual i oldInfo) then true else update in
      (update, s)
    else (true, setInit true s) in
  if update || negb (init s) then
    let s := logf DebugLevel ("Updating state " +:+ ReleaseName i +:+ ".") s in
    write i s
  else (None, s).

(** The candidate record [Update] builds from the manager release. *)
Definition candidate (s : State) (r : rls.Release) : Info :=
  {| ReleaseFilename := release.Filename r;
     ReleaseName := ExportReleaseName s;
     ReleaseVersion := rls.Version r |}.

Fixpoint Update_range (s : State) (releases : list rls.Release)
  : option error * State :=
  match releases with
  | r :: rest =>
      if isManagerRelease s (rls.Name r) then updateState (candidate s r) s
      else Update_range s rest
  | [] =>
      delete
        (logf DebugLevel
           ("Release manager release " +:+ ExportReleaseName s +:+
            " doesn't exist. Removing state.") s)
  end.

Definition Update (releases : list rls.Release) (s : State)
  : option error * State :=
  if decide (ExportReleaseName s = "") then
    (None, logf DebugLevel "--release-name not specified. Ignoring state." s)
  else Update_range s releases.

Definition ReadRelease (f : string) (s : State)
  : (option rls.Release * option error) * State :=
  let path := remoteFilePath s f in
  let s := logf DebugLevel ("Reading remote release " +:+ path) s in
  let '((b, err), st) := backend.Read path (Backend s) in
  let s := called (CRead path) st s in
  match err with
  | Some e => ((None, Some e), s)
  | None => let '(r, err) := release.FromFile b in ((Some r, err), s)
  end.

Definition StoredReleaseNames (s : State)
  : (list string * option error) * State :=
  let s := logf DebugLevel "Finding releases stored in the backend." s in
  let '((names, err), b) := backend.List (StoragePath s) (Backend s) in
  let s := called (CList (StoragePath s)) b s in
  match err with
  | Some e => (([], Some e), s)
  | None =>
      let '(r, err) :=
        regexp.Compile ("^.+" +:+ constants.ReleaseExtension +:+ "$") in
      match err with
      | Some e => (([], Some e), s)
      | None =>
          ((fold_left
              (fun ret n => if regexp.MatchString r n then ret ++ [n] else ret)
              names [], None), s)
      end
  end.

(** *** StoredReleases: one goroutine per file name

    The body of a goroutine is three steps: [ReadRelease] (after which
    it is done if the read or the decoding failed), the evaluation of
    [append( *ret, r)], which reads the shared slice, and the
    assignment to [*ret].  Nothing orders the steps of different
    goroutines. *)
Inductive Goroutine :=
| Started (f : string)
| Decoded (r : rls.Release)
| Loaded (r : rls.Release) (old : list rls.Release)
| Finished.

Record Pool := mkPool {
  ret : list rls.Release;
  self : State;
  routines : list Goroutine
}.

Definition step (g : Goroutine) (p : Pool) : Goroutine * Pool :=
  match g with
  | Started f =>
      let '((r, e), s) := ReadRelease f (self p) in
      match e with
      | Some e' =>
          (Finished, mkPool (ret p) (logf WarnLevel e' s) (routines p))
      | None =>
          match r with
          | Some r' => (Decoded r', mkPool (ret p) s (routines p))
          | None => (Finished, mkPool (ret p) s (routines p))
          end
      end
  | Decoded r => (Loaded r (ret p), p)
  | Loaded r old => (Finished, mkPool (old ++ [r]) (self p) (routines p))
  | Finished => (Finished, p)
  end.

(** Goroutine [i] makes its next step. *)
Definition stepAt (p : Pool) (i : nat) : Pool :=
  match routines p !! i with
  | Some g =>
      let '(g', p') := step g p in
      mkPool (ret p') (self p') (<[i := g']> (routines p'))
  | None => p
  end.

(** [wg.Wait()]: every goroutine that has not finished runs to its end. *)
Definition wait (p : Pool) : Pool :=
  fold_left (fun p i => stepAt (stepAt (stepAt p i) i) i)
            (seq 0 (length (routines p))) p.

Definition StoredReleases (sched : list nat) (s : State)
  : (list rls.Release * option error) * State :=
  let '((filenames, err), s) := StoredReleaseNames s in
  match err with
  | Some e => (([], Some e), s)
  | None =>
      let p := wait (fold_left stepAt sched
                               (mkPool [] s (Started <$> filenames))) in
      ((ret p, err), self p)
  end.

(** The files [fs] read and decoded one after the other, the releases
    appended to [acc]: the result [StoredReleases] is meant to have. *)
Fixpoint readAll (fs : list string) (acc : list rls.Release) (s : State)
  : list rls.Release * State :=
  match fs with
  | f :: rest =>
      let '((r, e), s) := ReadRelease f s in
      match e with
      | Some e' => readAll rest acc (logf WarnLevel e' s)
      | None =>
          match r with
          | Some r' => readAll rest (acc ++ [r']) s
          | None => readAll rest acc s
          end
      end
  | [] => (acc, s)
  end.

End WithBackend.

Arguments State B : clear implicits.
Arguments Pool B : clear implicits.

(** *** The remaining methods of [State] *)

Section WithEncoder.

Context {B : Type} `{!backend.Backend B} `{!constants.Values}
        `{!Codec} `{!release.Ops} `{!release.Encoder}.

(** [Read] is [read]. *)
Definition Read (s : State B) : (option Info * option error) * State B :=
  read s.

Definition Exists (s : State B) : (bool * option error) * State B :=
  let path := Path s in
  let s := logf InfoLevel
                ("Check if remote state file " +:+ path +:+ " exists") s in
  let '((f, err), b) := backend.List path (Backend s) in
  let s := called (CList path) b s in
  match err with
  | Some e => ((false, Some e), s)
  | None =>
      match length f with
      | 0 => ((false, None), s)
      | 1 => ((true, None), s)
      | _ =>
          ((false, Some ("Found " +:+ fmt_d (length f) +:+ " state files")), s)
      end
  end.

Definition WriteRelease (r : rls.Release) (s : State B)
  : option error * State B :=
  let '(f, err) := release.ToFile r in
  match err with
  | Some e => (Some e, s)
  | None =>
      let path := remoteFilePath s (release.Filename r) in
      let s := logf DebugLevel ("Writing remote release " +:+ path) s in
      let '(err, b) := backend.Write path f (Backend s) in
      (err, called (CWrite path f) b s)
  end.

Definition DeleteRelease (f : string) (s : State B) : option error * State B :=
  let path := remoteFilePath s f in
  let s := logf DebugLevel ("Removing remote release " +:+ path) s in
  let '(err, b) := backend.Delete path (Backend s) in
  (err, called (CDelete path) b s).

End WithEncoder.

End state.

(** ** The world of an import or transfer run *)

(** The release store, the target cluster and what the run has emitted. *)
Record World (C : Type) := mkWorld {
  heap : Heap;
  cluster : C;
  out : list Output
}.
Arguments mkWorld {C} heap cluster out.
Arguments heap {C} w.
Arguments cluster {C} w.
Arguments out {C} w.

(** The line feed written as [\n] in the Go format strings. *)
Definition nl : string := String (Ascii.ascii_of_nat 10) EmptyString.

Definition printf {C : Type} (msg : string) (w : World C) : World C :=
  mkWorld (heap w) (cluster w) (out w ++ [Stdout msg]).

Definition logf {C : Type} (l : Level) (msg : string) (w : World C) : World C :=
  mkWorld (heap w) (cluster w) (out w ++ [Log l msg]).

Definition setHeap {C : Type} (h : Heap) (w : World C) : World C :=
  mkWorld h (cluster w) (out w).

(** The releases handed to the install capability, in the order of the
    calls. *)
Definition installed (o : list Output) : list rls.Release :=
  omap (fun e => match e with Install r => Some r | _ => None end) o.

Module lmhelm.

(** The installer client: [Install] acts on the cluster [C] and may fail;
    [ErrorReleaseExists] classifies an install error. *)
Class Client (C : Type) := {
  Install : rls.Release -> C -> option error * C;
  ErrorReleaseExists : error -> bool
}.

End lmhelm.

Module mgrstate.

(** The revision of [state.State] that the import and transfer packages
    are written against is not among the sources.  What they use of it
    is the [Info] field (nil when no state record was read) and the
    results of [Name()] and [Path()]. *)
Record State := mkState {
  Info : option state.Info;
  Name : string;
  Path : string
}.

(** [State.Releases.StoredReleases()] and [State.Read()] of that revision,
    as parameters: the first yields the batch, the second refreshes
    [Info]. *)
Class Methods (C : Type) := {
  StoredReleases : State -> World C -> (list ptr * option error) * World C;
  Read : State -> World C -> (option error * State) * World C
}.

End mgrstate.

(** ** Package importt *)

Module importt.

Record Import := mkImport {
  Config : config.Config;
  State : mgrstate.State
}.

Definition warn : string :=
  "This can lead to unexpected results and is probably a mistake. If you really wish to continue, use --force".

Definition skipping : string :=
  "Unable to update the output path for the new release manager chart. Skipping.".

Section WithClient.

Context {C : Type} `{!lmhelm.Client C} `{!constants.Values}
        `{!release.Ops} `{!mgrstate.Methods C}.

Abbreviation cfg t := (config.Import (Config t)).

Definition includeReleasesByNamespace (t : Import) (releases : list ptr)
           (h : Heap) : list ptr :=
  fold_left
    (fun deploy r =>
       if decide (rls.Namespace (h r) = config.ImportConfig.Namespace (cfg t))
       then deploy ++ [r] else deploy)
    releases [].

(** The inner loop of [excludeReleasesByNamespace]: [bMatch] after it. *)
Fixpoint bMatch (ns : string) (excluded : list string) : bool :=
  match excluded with
  | namespace :: rest =>
      if decide (ns = namespace) then true else bMatch ns rest
  | [] => false
  end.

Definition excludeReleasesByNamespace (t : Import) (releases : list ptr)
           (h : Heap) : list ptr :=
  fold_left
    (fun deploy r =>
       if bMatch (rls.Namespace (h r))
                 (config.ImportConfig.ExcludeNamespaces (cfg t))
       then deploy else deploy ++ [r])
    releases [].

Definition filterReleasesByNamespace (t : Import) (releases : list ptr)
           (h : Heap) : list ptr :=
  if decide (config.ImportConfig.Namespace (cfg t) ≠ "") then
    includeReleasesByNamespace t releases h
  else if decide (0 < length (config.ImportConfig.ExcludeNamespaces (cfg t))) then
    excludeReleasesByNamespace t releases h
  else releases.

(** The inner loop of [updateValues] over the override map, in the
    order [kvs] in which the range statement visits it.  As in the
    source, the loop variable [r] takes the reference returned by each
    rewrite. *)
Fixpoint updateValues_keys (kvs : list (string * string)) (r : ptr) (h : Heap)
  : (ptr * option error) * Heap :=
  match kvs with
  | (k, v) :: rest =>
      let '((r', err), h') := release.UpdateValue r k v h in
      match err with
      | Some e => ((r', Some e), h')
      | None => updateValues_keys rest r' h'
      end
  | [] => ((r, None), h)
  end.

(** The outer loop; [it n] is the order in which the map is visited for
    the [n]-th release of the batch. *)
Fixpoint updateValues_range (it : nat -> list (string * string)) (n : nat)
         (releases : list ptr) (h : Heap) : option error * Heap :=
  match releases with
  | r :: rest =>
      let '((_, err), h') := updateValues_keys (it n) r h in
      match err with
      | Some e => (Some e, h')
      | None => updateValues_range it (S n) rest h'
      end
  | [] => (None, h)
  end.

Definition updateValues (it : nat -> list (string * string))
           (releases : list ptr) (w : World C)
  : (list ptr * option error) * World C :=
  let w := logf DebugLevel ("Updating release values" +:+ nl) w in
  let '(err, h) := updateValues_range it 0 releases (heap w) in
  match err with
  | Some e => (([], Some e), setHeap h w)
  | None => ((releases, None), setHeap h w)
  end.

Definition processReleases (it : nat -> list (string * string)) (t : Import)
           (releases : list ptr) (w : World C)
  : (list ptr * option error) * World C :=
  let releases := filterReleasesByNamespace t releases (heap w) in
  updateValues it releases w.

Definition deployRelease (r : ptr) (w : World C) : option error * World C :=
  let rel := heap w r in
  let '(err, c) := lmhelm.Install rel (cluster w) in
  let w := mkWorld (heap w) c (out w ++ [Install rel]) in
  match err with
  | Some e =>
      if lmhelm.ErrorReleaseExists e then
        (None, printf ("Skipping release: " +:+ rls.Name rel +:+
                       " already exists" +:+ nl) w)
      else
        (Some e, printf ("Error deploying release " +:+ rls.Name rel +:+
                         ": " +:+ e +:+ nl) w)
  | None =>
      (None, printf ("Successfully deployed release " +:+ rls.Name rel +:+ nl) w)
  end.

Definition updateManagerStoragePath (r : ptr) (path : string) (w : World C)
  : (ptr * option error) * World C :=
  let '(res, h) :=
    release.UpdateValue r constants.ValueStoragePath path (heap w) in
  (res, setHeap h w).

(** The three tests of the condition, from left to right. *)
Definition updateManagerRelease (t : Import) (r : ptr) (w : World C)
  : (ptr * option error) * World C :=
  if decide (config.ImportConfig.NewStoragePath (cfg t) = "") then ((r, None), w)
  else
    match mgrstate.Info (State t) with
    | None => ((r, None), w)
    | Some i =>
        if decide (rls.Name (heap w r) ≠ state.ReleaseName i) then ((r, None), w)
        else
          updateManagerStoragePath r (config.ImportConfig.NewStoragePath (cfg t)) w
    end.

(** *** The permit pool

    [inflight] holds the releases whose goroutine was started and has
    not yet returned; each of them holds one permit of [sem].  A
    goroutine runs [deployRelease] and gives its permit back; the
    value it returns is dropped. *)
Fixpoint runWorkers (choices : list nat) (inflight : list ptr) (w : World C)
  : list ptr * World C :=
  match choices with
  | c :: rest =>
      match inflight !! c with
      | Some r => runWorkers rest (delete c inflight) (snd (deployRelease r w))
      | None => runWorkers rest inflight w
      end
  | [] => (inflight, w)
  end.

(** The goroutines that are still in flight run to their end. *)
Definition drain (inflight : list ptr) (w : World C) : World C :=
  fold_left (fun w r => snd (deployRelease r w)) inflight w.

(** [sem <- 1] in the dispatch loop.  The goroutines chosen by the
    schedule finish first; if every permit is still taken the sender
    waits for one more goroutine to finish; with no permit at all it
    waits for ever. *)
Definition acquire (choices : list nat) (inflight : list ptr) (w : World C)
  : option (list ptr * World C) :=
  let '(inflight, w) := runWorkers choices inflight w in
  if decide (length inflight < constants.ImportMaxThreads) then
    Some (inflight, w)
  else
    match inflight with
    | r :: rest => Some (rest, snd (deployRelease r w))
    | [] => None
    end.

Fixpoint deployReleases_range (t : Import) (sched : list (list nat))
         (releases : list ptr) (inflight : list ptr) (w : World C)
  : Outcome (option error) * World C :=
  match releases with
  | r :: rest =>
      let w := printf ("Deploying release " +:+ rls.Name (heap w r) +:+
                       " to namespace " +:+ rls.Namespace (heap w r) +:+ nl) w in
      let w :=
        if decide (config.ImportConfig.Target (cfg t) ≠ "") then
          setHeap (<[r := rls.mkRelease (rls.Name (heap w r))
                                        (config.ImportConfig.Target (cfg t))
                                        (rls.Version (heap w r))
                                        (rls.Values (heap w r))]> (heap w)) w
        else w in
      let '((r, err), w) := updateManagerRelease t r w in
      match err with
      | Some _ =>
          deployReleases_range t sched rest inflight (logf ErrorLevel skipping w)
      | None =>
          if config.DryRun (Config t) then
            deployReleases_range t sched rest inflight
              (printf (release.ToString (heap w r)
                                        (config.VerboseMode (Config t)) +:+ nl) w)
          else
            match acquire (hd [] sched) inflight w with
            | Some (inflight, w) =>
                deployReleases_range t (tl sched) rest (inflight ++ [r]) w
            | None => (Blocks, w)
            end
      end
  | [] =>
      (* wait for installs to finish *)
      let '(inflight, w) := runWorkers (hd [] sched) inflight w in
      (Returns None, drain inflight w)
  end.

Definition deployReleases (t : Import) (sched : list (list nat))
           (releases : list ptr) (w : World C)
  : Outcome (option error) * World C :=
  deployReleases_range t sched releases [] w.

Definition resolveStateConflict (t : Import) (w : World C)
  : option error * World C :=
  let msg :=
    "Existing state " +:+ mgrstate.Name (State t) +:+ " exists in path " +:+
    config.BackendConfig.StoragePath (config.Backend (Config t)) +:+
    " but --new-path wasn't specified." in
  if config.ImportConfig.Force (cfg t) then
    (None, logf WarnLevel (msg +:+ nl +:+ "--force specified. Proceeding...") w)
  else if config.DryRun (Config t) then
    (None, printf (msg +:+ nl +:+ warn +:+ nl) w)
  else (Some (msg +:+ nl +:+ warn), w).

(** [switch true]: the first case whose condition holds is taken. *)
Definition sanityCheck (t : Import) (w : World C) : option error * World C :=
  let present := bool_decide (mgrstate.Info (State t) ≠ None) in
  let nopath := bool_decide (config.ImportConfig.NewStoragePath (cfg t) = "") in
  if present && nopath then resolveStateConflict t w
  else if negb present && negb nopath then
    (None, logf WarnLevel "--path specified but no remote state found." w)
  else if negb present && nopath then (None, w)
  else if present && negb nopath then (None, w)
  else (Some "Unknown error performing state sanity checks. Failing", w).

Definition Run (it : nat -> list (string * string)) (sched : list (list nat))
           (t : Import) (w : World C) : Outcome (option error) * World C :=
  let '((releases, err), w) := mgrstate.StoredReleases (State t) w in
  match err with
  | Some e =>
      (Exits, logf FatalLevel ("Error retrieving stored releases: " +:+ e) w)
  | None =>
      let '((releases, err), w) := processReleases it t releases w in
      match err with
      | Some e => (Returns (Some e), w)
      | None =>
          let '((err, st), w) := mgrstate.Read (State t) w in
          let t := mkImport (Config t) st in
          match err with
          | Some e => (Returns (Some e), w)
          | None =>
              let '(err, w) := sanityCheck t w in
              match err with
              | Some e => (Returns (Some e), w)
              | None => deployReleases t sched releases w
              end
          end
      end
  end.

End WithClient.

End importt.

(** ** Package transfer *)

Module transfer.

(** [State] is a pointer that [sanityCheck] compares with nil: [None] is
    the nil pointer. *)
Record Transfer := mkTransfer {
  Config : config.Config;
  State : option mgrstate.State
}.

Definition warn : string :=
  "This can lead to unexpected results and is probably a mistake. If you really wish to continue, use --force".

Definition skipping : string :=
  "Unable to update the output path for the new release manager chart. Skipping.".

Section WithClient.

Context {C : Type} `{!lmhelm.Client C} `{!constants.Values}
        `{!release.Ops} `{!mgrstate.Methods C}.

Abbreviation cfg t := (config.Transfer (Config t)).

Definition deployRelease (r : ptr) (w : World C) : World C :=
  let rel := heap w r in
  let '(err, c) := lmhelm.Install rel (cluster w) in
  let w := mkWorld (heap w) c (out w ++ [Install rel]) in
  match err with
  | Some e =>
      logf ErrorLevel
           ("Error deploying release " +:+ rls.Name rel +:+ ": " +:+ e) w
  | None => w
  end.

Definition updateManagerStoragePath (r : ptr) (path : string) (w : World C)
  : (ptr * option error) * World C :=
  let '(res, h) :=
    release.UpdateValue r constants.ValueStoragePath path (heap w) in
  (res, setHeap h w).

(** The condition is evaluated from left to right: with a new path, a
    nil [t.State] is dereferenced. *)
Definition updateManagerRelease (t : Transfer) (r : ptr) (w : World C)
  : Outcome ((ptr * option error) * World C) :=
  if decide (config.TransferConfig.NewStoragePath (cfg t) = "") then
    Returns ((r, None), w)
  else
    match State t with
    | None => Panics
    | Some st =>
        match mgrstate.Info st with
        | None => Returns ((r, None), w)
        | Some i =>
            if decide (rls.Name (heap w r) ≠ state.ReleaseName i) then
              Returns ((r, None), w)
            else
              Returns (updateManagerStoragePath
                         r (config.TransferConfig.NewStoragePath (cfg t)) w)
        end
    end.

(** The goroutines of the wait group chosen by the schedule run
    [deployRelease]. *)
Fixpoint runWorkers (choices : list nat) (inflight : list ptr) (w : World C)
  : list ptr * World C :=
  match choices with
  | c :: rest =>
      match inflight !! c with
      | Some r => runWorkers rest (delete c inflight) (deployRelease r w)
      | None => runWorkers rest inflight w
      end
  | [] => (inflight, w)
  end.

(** [wg.Wait()]. *)
Definition wait (inflight : list ptr) (w : World C) : World C :=
  fold_left (fun w r => deployRelease r w) inflight w.

Fixpoint deployReleases_range (t : Transfer) (sched : list (list nat))
         (releases : list ptr) (inflight : list ptr) (w : World C)
  : Outcome (option error) * World C :=
  match releases with
  | r :: rest =>
      let w := printf ("Deploying release: " +:+ rls.Name (heap w r) +:+ nl) w in
      match updateManagerRelease t r w with
      | Returns ((r, err), w) =>
          match err with
          | Some _ =>
              deployReleases_range t sched rest inflight
                                   (logf ErrorLevel skipping w)
          | None =>
              if config.DryRun (Config t) then
                deployReleases_range t sched rest inflight
                  (printf (release.ToString (heap w r)
                                            (config.VerboseMode (Config t)) +:+ nl) w)
              else
                let '(inflight, w) := runWorkers (hd [] sched) inflight w in
                deployReleases_range t (tl sched) rest (inflight ++ [r]) w
          end
      | Exits => (Exits, w)
      | Blocks => (Blocks, w)
      | Panics => (Panics, w)
      end
  | [] =>
      let '(inflight, w) := runWorkers (hd [] sched) inflight w in
      (Returns None, wait inflight w)
  end.

Definition deployReleases (t : Transfer) (sched : list (list nat))
           (releases : list ptr) (w : World C)
  : Outcome (option error) * World C :=
  deployReleases_range t sched releases [] w.

(** Called by [sanityCheck] only when [t.State] is not nil; [st] is the
    state it points to. *)
Definition resolveStateConflict (t : Transfer) (st : mgrstate.State)
           (w : World C) : option error * World C :=
  let msg :=
    "Existing state exists at " +:+ mgrstate.Path st +:+
    " but --new-path wasn't specified." in
  if config.TransferConfig.Force (cfg t) then
    (None, logf WarnLevel (msg +:+ nl +:+ "--force specified. Proceeding...") w)
  else if config.DryRun (Config t) then
    (None, printf (msg +:+ nl +:+ warn +:+ nl) w)
  else (Some (msg +:+ nl +:+ warn), w).

(** [switch true] over [t.State != nil] and the new path; the four
    cases in the order of the source (they are exhaustive, the default
    case is never taken). *)
Definition sanityCheck (t : Transfer) (w : World C) : option error * World C :=
  match State t,
        bool_decide (config.TransferConfig.NewStoragePath (cfg t) = "") with
  | Some st, true => resolveStateConflict t st w
  | None, false =>
      (None, logf WarnLevel "--path specified but no remote state found." w)
  | None, true => (None, w)
  | Some _, false => (None, w)
  end.

Definition Run (sched : list (list nat)) (t : Transfer) (w : World C)
  : Outcome (option error) * World C :=
  match State t with
  | None => (Panics, w)
  | Some st =>
      let '((releases, err), w) := mgrstate.StoredReleases st w in
      match err with
      | Some e =>
          (Exits, logf FatalLevel ("Error retrieving stored releases: " +:+ e) w)
      | None =>
          let '((err, st), w) := mgrstate.Read st w in
          let t := mkTransfer (Config t) (Some st) in
          match err with
          | Some e => (Returns (Some e), w)
          | None =>
              let '(err, w) := sanityCheck t w in
              match err with
              | Some e => (Returns (Some e), w)
              | None => deployReleases t sched releases w
              end
          end
      end
  end.

End WithClient.

End transfer.

(** ** Package cmd: the namespaces flag *)

Module gostrings.

(** [strings.Replace(s, old, new, -1)] for a one-character [old]: every
    occurrence is replaced. *)
Fixpoint Replace (s : string) (old : Ascii.ascii) (new : string) : string :=
  match s with
  | EmptyString => EmptyString
  | String c rest =>
      if decide (c = old) then new +:+ Replace rest old new
      else String c (Replace rest old new)
  end.

(** [strings.Split(s, sep)] for a one-character [sep]: the pieces of [s]
    between the occurrences of [sep], one piece more than there are
    separators, so the empty string gives one empty piece. *)
Fixpoint Split (s : string) (sep : Ascii.ascii) : list string :=
  match s with
  | EmptyString => [EmptyString]
  | String c rest =>
      if decide (c = sep) then EmptyString :: Split rest sep
      else
        match Split rest sep with
        | piece :: others => String c piece :: others
        | [] => [String c EmptyString]
        end
  end.

End gostrings.

Module cmd.

Definition space : Ascii.ascii := Ascii.ascii_of_nat 32.
Definition comma : Ascii.ascii := Ascii.ascii_of_nat 44.

Definition parseNamespaces (namespaces : string)
  : gmap string string * option error :=
  (* remove whitespace and split *)
  let ns := gostrings.Split (gostrings.Replace namespaces space "") comma in
  (fold_left (fun results n => <[n := n]> results) ns ∅, None).

End cmd.

(** ** Concrete instances

    A flat in-memory store, a line codec, a matcher for anchored patterns
    and a cluster that refuses a name it already has.  The examples below
    run the packages on them. *)

Module fixtures.

Definition constantValues : constants.Values :=
  {| constants.ManagerStateFilename := "manager.state";
     constants.ReleaseExtension := ".release";
     constants.ValueStoragePath := "path";
     constants.ImportMaxThreads := 2 |}.

(** *** The store: named files in one directory, in listing order *)

Definition Store := list (string * bytes).

Fixpoint lookupFile (path : string) (b : Store) : option bytes :=
  match b with
  | (n, f) :: rest => if decide (n = path) then Some f else lookupFile path rest
  | [] => None
  end.

Fixpoint removeFile (path : string) (b : Store) : Store :=
  match b with
  | (n, f) :: rest =>
      if decide (n = path) then removeFile path rest
      else (n, f) :: removeFile path rest
  | [] => []
  end.

Fixpoint putFile (path : string) (f : bytes) (b : Store) : Store :=
  match b with
  | (n, g) :: rest =>
      if decide (n = path) then (n, f) :: rest else (n, g) :: putFile path f rest
  | [] => [(path, f)]
  end.

Definition memory : backend.Backend Store :=
  {| backend.List := fun _ b => ((b.*1, None), b);
     backend.Read := fun path b =>
       match lookupFile path b with
       | Some f => ((f, None), b)
       | None => (([], Some ("no such file: " +:+ path)), b)
       end;
     backend.Write := fun path f b => (None, putFile path f b);
     backend.Delete := fun path b => (None, removeFile path b);
     backend.PathSeparator := fun _ => "/" |}.

(** *** Fields separated by a bar *)

Definition bar : Ascii.ascii := Ascii.ascii_of_nat 124.

(** [fields cur s]: the fields of [s], [cur] being the reversed start of
    the first one. *)
Fixpoint fields (cur : string) (s : string) : list string :=
  match s with
  | EmptyString => [String.rev cur]
  | String c rest =>
      if decide (c = bar) then String.rev cur :: fields EmptyString rest
      else fields (String c cur) rest
  end.

Definition showZ (z : Z) : string :=
  DecimalString.NilZero.string_of_int (Z.to_int z).

Definition readZ (s : string) : option Z :=
  Z.of_int <$> DecimalString.NilZero.int_of_string s.

Definition toBytes (s : string) : bytes := String.list_byte_of_string s.
Definition ofBytes (f : bytes) : string := String.string_of_list_byte f.

Definition zeroInfo : state.Info := state.mkInfo "" "" 0.

Definition infoCodec : state.Codec :=
  {| state.Serialize := fun i =>
       (toBytes (state.ReleaseFilename i +:+ "|" +:+ state.ReleaseName i +:+
                 "|" +:+ showZ (state.ReleaseVersion i)), None);
     state.Unmarshal := fun f =>
       match fields EmptyString (ofBytes f) with
       | [fn; n; v] =>
           match readZ v with
           | Some z => (state.mkInfo fn n z, None)
           | None => (state.mkInfo fn n 0, Some "invalid version")
           end
       | _ => (zeroInfo, Some "invalid state record")
       end |}.

Definition zeroRelease : rls.Release := rls.mkRelease "" "" 0 ∅.

(** A release file holds the name, the namespace and the revision;
    rewriting a key fails on a release whose values are locked. *)
Definition releaseOps : release.Ops :=
  {| release.Filename := fun r => rls.Name r +:+ ".release";
     release.FromFile := fun f =>
       match fields EmptyString (ofBytes f) with
       | [n; ns; v] =>
           match readZ v with
           | Some z => (rls.mkRelease n ns z ∅, None)
           | None => (zeroRelease, Some "invalid revision")
           end
       | _ => (zeroRelease, Some "invalid release file")
       end;
     release.ToString := fun r verbose =>
       if verbose then rls.Name r +:+ "." +:+ rls.Namespace r +:+ " v" +:+
                       showZ (rls.Version r)
       else rls.Name r +:+ "." +:+ rls.Namespace r;
     release.UpdateError := fun r _ _ =>
       match rls.Values r !! "locked" with
       | Some _ => Some "values are locked"
       | None => None
       end |}.

Definition releaseFile (n ns : string) (v : Z) : bytes :=
  toBytes (n +:+ "|" +:+ ns +:+ "|" +:+ showZ v).

(** *** Anchored patterns of characters, dots and pluses *)

Inductive Atom := AnyChar | Char (c : Ascii.ascii).

Definition matchAtom (a : Atom) (c : Ascii.ascii) : bool :=
  match a with
  | AnyChar => negb (bool_decide (c = Ascii.ascii_of_nat 10))
  | Char d => bool_decide (c = d)
  end.

(** The items of a pattern: an atom, and whether a plus follows it. *)
Fixpoint matchItems (items : list (Atom * bool)) (s : string) : bool :=
  match items with
  | [] => match s with EmptyString => true | _ => false end
  | (a, false) :: rest =>
      match s with
      | String c s' => matchAtom a c && matchItems rest s'
      | EmptyString => false
      end
  | (a, true) :: rest =>
      (fix plus (s : string) : bool :=
         match s with
         | String c s' => matchAtom a c && (matchItems rest s' || plus s')
         | EmptyString => false
         end) s
  end.

Definition special (c : Ascii.ascii) : bool :=
  bool_decide (c ∈ (Ascii.ascii_of_nat <$> [36; 40; 41; 42; 43; 63; 91; 92; 93; 94; 123; 124; 125])).

(** The items of the text between [^] and [$]; [None] when it uses a
    construct other than a character, a dot or a plus. *)
Fixpoint parseItems (s : string) : option (list (Atom * bool)) :=
  match s with
  | EmptyString => Some []
  | String c rest =>
      if special c then None
      else
        let a := if decide (c = Ascii.ascii_of_nat 46) then AnyChar else Char c in
        match rest with
        | String d rest' =>
            if decide (d = Ascii.ascii_of_nat 43) then
              cons (a, true) <$> parseItems rest'
            else cons (a, false) <$> parseItems rest
        | EmptyString => Some [(a, false)]
        end
  end.

Definition compile (pattern : string) : list (Atom * bool) * option error :=
  match pattern with
  | String c body =>
      if decide (c = Ascii.ascii_of_nat 94) then
        match String.rev body with
        | String d ydob =>
            if decide (d = Ascii.ascii_of_nat 36) then
              match parseItems (String.rev ydob) with
              | Some items => (items, None)
              | None => ([], Some ("unsupported pattern: " +:+ pattern))
              end
            else ([], Some ("unsupported pattern: " +:+ pattern))
        | EmptyString => ([], Some ("unsupported pattern: " +:+ pattern))
        end
      else ([], Some ("unsupported pattern: " +:+ pattern))
  | EmptyString => ([], Some ("unsupported pattern: " +:+ pattern))
  end.

Definition anchored : regexp.Engine :=
  {| regexp.Regexp := list (Atom * bool);
     regexp.Compile := compile;
     regexp.MatchString := matchItems |}.

(** *** The cluster: the names of the installed releases *)

Definition Cluster := list string.

Definition helm : lmhelm.Client Cluster :=
  {| lmhelm.Install := fun r c =>
       if decide (rls.Name r ∈ c) then
         (Some ("already exists: " +:+ rls.Name r), c)
       else if decide (rls.Namespace r = "") then
         (Some ("no namespace: " +:+ rls.Name r), c)
       else (None, c ++ [rls.Name r]);
     lmhelm.ErrorReleaseExists := fun e => String.prefix "already exists: " e |}.

(** The state handle yields the batch [batch] and reads the record
    [info]. *)
Definition methods (batch : list ptr) (info : option state.Info)
  : mgrstate.Methods Cluster :=
  {| mgrstate.StoredReleases := fun _ w => ((batch, None), w);
     mgrstate.Read := fun st w =>
       ((None, mgrstate.mkState info (mgrstate.Name st) (mgrstate.Path st)), w) |}.

Definition emptyConfig : config.Config :=
  {| config.Backend := {| config.BackendConfig.StoragePath := "/" |};
     config.Export := {| config.ExportConfig.ReleaseName := "" |};
     config.Import :=
       {| config.ImportConfig.Namespace := "";
          config.ImportConfig.ExcludeNamespaces := [];
          config.ImportConfig.Values := ∅;
          config.ImportConfig.Target := "";
          config.ImportConfig.NewStoragePath := "";
          config.ImportConfig.Force := false |};
     config.Transfer :=
       {| config.TransferConfig.NewStoragePath := "";
          config.TransferConfig.Force := false |};
     config.DryRun := false;
     config.VerboseMode := false |}.

(** *** Example data *)

(** Two release files, the state record and a foreign file. *)
Definition files : Store :=
  [("a.release", releaseFile "a" "default" 1);
   ("manager.state", toBytes "mgr.release|mgr|3");
   ("b.release", releaseFile "b" "kube-system" 2);
   ("notes.txt", toBytes "hello")].

Definition releaseA : rls.Release := rls.mkRelease "a" "default" 1 ∅.
Definition releaseB : rls.Release := rls.mkRelease "b" "kube-system" 2 ∅.
Definition releaseMgr : rls.Release := rls.mkRelease "mgr" "default" 3 ∅.

(** A manager release whose values cannot be rewritten. *)
Definition lockedMgr : rls.Release :=
  rls.mkRelease "mgr" "default" 3 {[ "locked" := "yes" ]}.

(** A release without a namespace: its install fails. *)
Definition unplaced : rls.Release := rls.mkRelease "c" "" 1 ∅.

Definition managerInfo : state.Info := state.mkInfo "mgr.release" "mgr" 3.

(** An exporter configured with the manager release name [name]. *)
Definition exporter (name : string) : state.State Store :=
  state.mkState files
    {| config.Backend := config.Backend emptyConfig;
       config.Export := {| config.ExportConfig.ReleaseName := name |};
       config.Import := config.Import emptyConfig;
       config.Transfer := config.Transfer emptyConfig;
       config.DryRun := false;
       config.VerboseMode := false |}
    false [] [].

(** An import or transfer configuration with the given new path and
    flags, and the value overrides [vals]. *)
Definition importing (newPath : string) (force dryRun : bool)
           (vals : gmap string string) : config.Config :=
  {| config.Backend := config.Backend emptyConfig;
     config.Export := config.Export emptyConfig;
     config.Import :=
       {| config.ImportConfig.Namespace := "";
          config.ImportConfig.ExcludeNamespaces := [];
          config.ImportConfig.Values := vals;
          config.ImportConfig.Target := "";
          config.ImportConfig.NewStoragePath := newPath;
          config.ImportConfig.Force := force |};
     config.Transfer :=
       {| config.TransferConfig.NewStoragePath := newPath;
          config.TransferConfig.Force := force |};
     config.DryRun := dryRun;
     config.VerboseMode := false |}.

(** The state handle after a read that found the record [info]. *)
Definition handle (info : option state.Info) : mgrstate.State :=
  mgrstate.mkState info "manager.state" "manager.state".

(** A store of releases: [a] at 0, [b] at 1, the release at 2 given. *)
Definition store (third : rls.Release) : nat -> rls.Release :=
  fun p => match p with 0 => releaseA | 1 => releaseB | _ => third end.

Definition world (third : rls.Release) : World Cluster :=
  mkWorld (store third) ["b"] [].

End fixtures.

(** ** Further instances *)

Module samples.

(** The encoder that goes with the decoder of [fixtures.releaseOps]. *)
Definition encoder : release.Encoder :=
  {| release.ToFile := fun r =>
       (fixtures.releaseFile (rls.Name r) (rls.Namespace r) (rls.Version r),
        None) |}.

(** An import of everything into the namespace [target], a dry run or
    not. *)
Definition retargeted (target : string) (dryRun : bool) : config.Config :=
  {| config.Backend := config.Backend fixtures.emptyConfig;
     config.Export := config.Export fixtures.emptyConfig;
     config.Import :=
       {| config.ImportConfig.Namespace := "";
          config.ImportConfig.ExcludeNamespaces := [];
          config.ImportConfig.Values := ∅;
          config.ImportConfig.Target := target;
          config.ImportConfig.NewStoragePath := "";
          config.ImportConfig.Force := false |};
     config.Transfer := config.Transfer fixtures.emptyConfig;
     config.DryRun := dryRun;
     config.VerboseMode := false |}.

End samples.

(** ** Vocabulary of the statements *)

(** [loc] occurs in the message [msg]. *)
Definition names (msg loc : string) : Prop :=
  ∃ pre post, msg = pre +:+ loc +:+ post.

(** The rule for the conflicting case, on the result [res] of a conflict
    check started in the world [w], for an existing state at [loc]. *)
Definition ConflictRule {C : Type} (force dryRun : bool) (loc : string)
           (w : World C) (res : option error * World C) : Prop :=
  (force = true ->
   fst res = None
   ∧ ∃ msg, snd res = logf WarnLevel msg w ∧ names msg loc)
  ∧ (force = false -> dryRun = true ->
     fst res = None
     ∧ ∃ msg, snd res = printf msg w ∧ names msg loc)
  ∧ (force = false -> dryRun = false ->
     snd res = w
     ∧ ∃ msg, fst res = Some msg ∧ names msg loc).

(** The range statement of [updateValues] visits the override map in some
    order, possibly a different one for each release. *)
Definition visits (t : importt.Import) (it : nat -> list (string * string))
  : Prop :=
  ∀ n, it n ≡ₚ map_to_list
                (config.ImportConfig.Values (config.Import (importt.Config t))).

(** Two heaps agree on everything but the values of the releases. *)
Definition sameIdentity (h h' : Heap) : Prop :=
  ∀ q, rls.Name (h' q) = rls.Name (h q)
       ∧ rls.Namespace (h' q) = rls.Namespace (h q)
       ∧ rls.Version (h' q) = rls.Version (h q).

(** Two heaps give the same name to every reference. *)
Definition sameNames (h h' : Heap) : Prop :=
  ∀ q, rls.Name (h' q) = rls.Name (h q).

(** The number of releases skipped because the storage path of the manager
    release could not be rewritten. *)
Definition skipped (o : list Output) : nat :=
  length (filter (fun e => e = Log ErrorLevel importt.skipping) o).

(** What the install goroutines that ran have done between [w] and [w']:
    they installed the releases [done], as found in the store, one call
    each, and changed neither the store nor the count of skipped
    releases. *)
Definition ran {C : Type} (done : list ptr) (w w' : World C) : Prop :=
  heap w' = heap w
  ∧ ∃ new, out w' = out w ++ new
           ∧ installed new = heap w <$> done
           ∧ skipped new = 0.

(** The release named [name] is the manager release whose storage path an
    import or transfer with the new path [newPath] rewrites. *)
Definition isManager (newPath : string) (info : option state.Info)
           (name : string) : Prop :=
  newPath ≠ "" ∧ ∃ i, info = Some i ∧ name = state.ReleaseName i.

(** The record behind the state handle of a transfer, if there is one. *)
Definition recordOf (t : transfer.Transfer) : option state.Info :=
  match transfer.State t with
  | Some st => mgrstate.Info st
  | None => None
  end.

(** What a dry run emits for the release named [name]: the line that
    announces it, followed either by the rendering of a release of that
    name, or, for the manager release only, by the log line of a rewrite
    that failed. *)
Definition dryRunLines `{!release.Ops} (verbose : bool) (newPath : string)
           (info : option state.Info) (name : string) (c : list Output) : Prop :=
  ∃ dmsg,
    (∃ rel, rls.Name rel = name
            ∧ c = [Stdout dmsg; Stdout (release.ToString rel verbose +:+ nl)])
    ∨ (isManager newPath info name
       ∧ c = [Stdout dmsg; Log ErrorLevel importt.skipping]).

(** The claim that a dry run renders and prints each release of the batch,
    on the output [o] of the run. *)
Definition rendersEach `{!release.Ops} (verbose : bool) (h : Heap)
           (releases : list ptr) (o : list Output) : Prop :=
  ∀ r, r ∈ releases ->
       ∃ rel, rls.Name rel = rls.Name (h r)
              ∧ Stdout (release.ToString rel verbose +:+ nl) ∈ o.

(** A backend that keeps what is written to it: its path separator does
    not depend on the store, a successful write can be read back, and a
    successful read can be repeated. *)
Record Faithful (B : Type) `{!backend.Backend B} : Prop := {
  separator_fixed : ∀ b b' : B, backend.PathSeparator b = backend.PathSeparator b';
  read_after_write :
    ∀ (path : string) (f : bytes) (b b' : B),
      backend.Write path f b = (None, b') ->
      ∃ b'', backend.Read path b' = ((f, None), b'');
  read_again :
    ∀ (path : string) (f : bytes) (b b' : B),
      backend.Read path b = ((f, None), b') ->
      ∃ b'', backend.Read path b' = ((f, None), b'')
}.

(** The backend holds, at the path of the state record, bytes that decode
    to the record [i]. *)
Definition holdsRecord {B : Type} `{!backend.Backend B} `{!constants.Values}
           `{!state.Codec} (i : state.Info) (s : state.State B) : Prop :=
  ∃ f b, backend.Read (state.Path s) (state.Backend s) = ((f, None), b)
         ∧ state.Unmarshal f = (i, None).

(** What [Info.Serialize] produces for [i] decodes to [i]. *)
Definition decodesBack `{!state.Codec} (i : state.Info) : Prop :=
  ∀ f, state.Serialize i = (f, None) -> state.Unmarshal f = (i, None).

(** The file names the goroutines of [StoredReleases] have not read yet. *)
Definition unread (rs : list state.Goroutine) : list string :=
  omap (fun g => match g with state.Started f => Some f | _ => None end) rs.

(** The steps a goroutine of [StoredReleases] still has to make. *)
Definition stepsLeft (g : state.Goroutine) : nat :=
  match g with
  | state.Started _ => 3
  | state.Decoded _ => 2
  | state.Loaded _ _ => 1
  | state.Finished => 0
  end.

(** What holds of the pool of [StoredReleases] at every moment, [s1] being
    the state after the listing and [filenames] the files listed: the
    configuration is that of [s1], and the reads made so far together with
    the files not yet read are the files listed. *)
Definition accounted {B : Type} `{!backend.Backend B} `{!constants.Values}
           (s1 : state.State B) (filenames : list string) (p : state.Pool B)
  : Prop :=
  state.Config (state.self p) = state.Config s1
  ∧ ∃ new,
      state.calls (state.self p) = state.calls s1 ++ new
      ∧ new ++ ((fun f => state.CRead (state.remoteFilePath s1 f))
                  <$> unread (state.routines p))
        ≡ₚ (fun f => state.CRead (state.remoteFilePath s1 f)) <$> filenames.

(** Number of [Backend.Read] calls in a record of calls. *)
Definition reads (cs : list state.Call) : nat := length (filter state.isRead cs).

(** The methods of the state handle leave the cluster alone and hand
    nothing to the install capability. *)
Definition Quiet {C : Type} `{!mgrstate.Methods C} : Prop :=
  ∀ (st : mgrstate.State) (w : World C),
    cluster (snd (mgrstate.StoredReleases st w)) = cluster w
    ∧ installed (out (snd (mgrstate.StoredReleases st w))) = installed (out w)
    ∧ cluster (snd (mgrstate.Read st w)) = cluster w
    ∧ installed (out (snd (mgrstate.Read st w))) = installed (out w).

(** The characters of a string. *)
Fixpoint chars (s : string) : list Ascii.ascii :=
  match s with
  | EmptyString => []
  | String c rest => c :: chars rest
  end.

(** * Properties *)

(** ** The state record *)

Section StateProperties.

Context {B : Type} `{!backend.Backend B} `{!constants.Values}
        `{!state.Codec} `{!release.Ops} `{!regexp.Engine}.

Implicit Types (s : state.State B) (i : state.Info) (r : rls.Release).

Lemma writes_app (cs ds : list state.Call) :
  state.writes (cs ++ ds) = state.writes cs + state.writes ds.
Proof. unfold state.writes. by rewrite list.filter_app, length_app. Qed.

Lemma writes_one (c : state.Call) :
  state.writes [c] = if state.isWrite c then 1 else 0.
Proof.
  unfold state.writes. rewrite list.filter_cons.
  destruct c; cbn; case_decide; naive_solver.
Qed.

Lemma write_calls i s f :
  state.Serialize i = (f, None) ->
  state.calls (snd (state.write i s)) = state.calls s ++ [state.CWrite (state.Path s) f]
  ∧ state.init (snd (state.write i s)) = state.init s.
Proof.
  intros Hf. unfold state.write. rewrite Hf.
  destruct (backend.Write _ _ _) as [err b]. done.
Qed.

Lemma read_calls s :
  state.calls (snd (state.read s)) = state.calls s ++ [state.CRead (state.Path s)]
  ∧ state.init (snd (state.read s)) = state.init s.
Proof.
  unfold state.read. cbn.
  destruct (backend.Read _ _) as [[f err] b].
  destruct err as [e|]; [done|]. by destruct (state.Unmarshal f).
Qed.

(** C3.  Two invocations of [updateState] with the same candidate, the
    first one being the first of the run: the first invocation calls
    [Backend.Write] once; the second calls it again exactly when the
    record read back is not the candidate without a read error (it
    differs by deep equality, or the read failed).  With an unchanged
    stored record the two invocations make exactly one write. *)
Theorem updateState_twice i s f :
  state.init s = false ->
  state.Serialize i = (f, None) ->
  let s1 := snd (state.updateState i s) in
  let s2 := snd (state.updateState i s1) in
  state.writes (state.calls s1) = S (state.writes (state.calls s))
  ∧ (fst (state.read s1) = (Some i, None) ->
     state.writes (state.calls s2) = state.writes (state.calls s1))
  ∧ (fst (state.read s1) ≠ (Some i, None) ->
     state.writes (state.calls s2) = S (state.writes (state.calls s1))).
Proof.
  intros Hinit Hf s1 s2.
  assert (Hs1 : state.calls s1 = state.calls s ++ [state.CWrite (state.Path s) f]
                ∧ state.init s1 = true).
  { subst s1. unfold state.updateState. rewrite Hinit. cbn.
    destruct (write_calls i (state.logf DebugLevel
       ("Updating state " +:+ state.ReleaseName i +:+ ".") (state.setInit true s)) f Hf)
      as [Hc Hi].
    unfold state.Path, state.remoteFilePath, state.StoragePath in *. cbn in *.
    split; [exact Hc | exact Hi]. }
  destruct Hs1 as [Hc1 Hi1].
  split.
  { rewrite Hc1, writes_app, writes_one. cbn. lia. }
  subst s2. unfold state.updateState. rewrite Hi1.
  destruct (read_calls s1) as [Hrc Hri].
  destruct (state.read s1) as [[oldInfo e] s1'] eqn:Hread. cbn in Hrc, Hri |- *.
  split.
  - intros [= -> ->]. cbn. rewrite bool_decide_eq_true_2 by done. cbn.
    rewrite Hri, Hi1. cbn. rewrite Hrc, writes_app, writes_one. cbn. lia.
  - intros Hne.
    assert (Hw : forall s' : state.State B,
               state.calls s' = state.calls s1' -> 
               state.writes (state.calls (snd (state.write i (state.logf DebugLevel
                  ("Updating state " +:+ state.ReleaseName i +:+ ".") s'))))
               = S (state.writes (state.calls s1))).
    { intros s' Hs'.
      destruct (write_calls i (state.logf DebugLevel
         ("Updating state " +:+ state.ReleaseName i +:+ ".") s') f Hf) as [Hc _].
      rewrite Hc, writes_app, writes_one. unfold state.logf. cbn [state.calls].
      rewrite Hs', Hrc, writes_app, writes_one. cbn. lia. }
    destruct e as [e|].
    + cbn. destruct (negb _); cbn; by apply Hw.
    + destruct oldInfo as [o|]; cbn.
      * destruct (bool_decide (i = o)) eqn:Hio; cbn.
        -- apply bool_decide_eq_true_1 in Hio. subst o. done.
        -- apply Hw; done.
      * apply Hw; done.
Qed.

(** After [Init] the next [updateState] is the first of the run. *)
Lemma Init_unsets_init s :
  fst (state.Init s) = None ∧ state.init (snd (state.Init s)) = false.
Proof.
  unfold state.Init. destruct (decide _); [|done]. cbn.
  destruct (backend.Delete _ _) as [[e|] b]; done.
Qed.

Lemma isManagerRelease_true s (name : string) :
  state.isManagerRelease s name = true <->
  state.ExportReleaseName s ≠ "" ∧ name = state.ExportReleaseName s.
Proof.
  unfold state.isManagerRelease.
  destruct (decide _) as [Hd|Hd]; split; intros Hx; done.
Qed.

Lemma Update_range_first s (pre post : list rls.Release) r :
  state.ExportReleaseName s ≠ "" ->
  (∀ x, x ∈ pre -> rls.Name x ≠ state.ExportReleaseName s) ->
  rls.Name r = state.ExportReleaseName s ->
  state.Update_range s (pre ++ r :: post) =
  state.updateState (state.candidate s r) s.
Proof.
  intros Hne Hpre Hr. induction pre as [|x pre IH]; cbn.
  - rewrite (proj2 (isManagerRelease_true s (rls.Name r))); done.
  - destruct (state.isManagerRelease s (rls.Name x)) eqn:Hx.
    + apply isManagerRelease_true in Hx as [_ Hx].
      exfalso. apply (Hpre x); [left | done].
    + apply IH. intros y Hy. apply Hpre. by right.
Qed.

Lemma Update_range_none s (releases : list rls.Release) :
  (∀ r, r ∈ releases -> rls.Name r ≠ state.ExportReleaseName s) ->
  state.Update_range s releases =
  state.delete
    (state.logf DebugLevel
       ("Release manager release " +:+ state.ExportReleaseName s +:+
        " doesn't exist. Removing state.") s).
Proof.
  intros Hall. induction releases as [|x rest IH]; cbn; [done|].
  destruct (state.isManagerRelease s (rls.Name x)) eqn:Hx.
  - apply isManagerRelease_true in Hx as [_ Hx].
    exfalso. apply (Hall x); [left | done].
  - apply IH. intros y Hy. apply Hall. by right.
Qed.

(** The first element of a list that satisfies a decidable property. *)
Lemma first_match {A : Type} (P : A -> Prop) `{!∀ x, Decision (P x)}
      (l : list A) :
  (∃ x, x ∈ l ∧ P x) ->
  ∃ pre x post, l = pre ++ x :: post ∧ (∀ y, y ∈ pre -> ¬ P y) ∧ P x.
Proof.
  induction l as [|a l IH]; intros (x & Hin & HP).
  - by apply elem_of_nil in Hin.
  - destruct (decide (P a)) as [Ha|Ha].
    + exists [], a, l. split; [done|]. split; [|done].
      intros y Hy. by apply elem_of_nil in Hy.
    + destruct IH as (pre & y & post & -> & Hpre & Hy).
      { apply elem_of_cons in Hin as [->|Hin]; [done|]. by exists x. }
      exists (a :: pre), y, post. split; [done|]. split; [|done].
      intros z Hz. apply elem_of_cons in Hz as [->|Hz]; [done|]. by apply Hpre.
Qed.

(** C5.  [State.Update] with a configured manager release name: when some
    release of the list bears that name, the result is that of
    [updateState] (the change-detected write) on the record built from
    the first such release: its file name, the configured name, its
    version.  When no release bears the name, the state record is
    deleted: the only backend call is [Delete] on the path of the state
    record, and its result is returned. *)
Theorem Update_manager_release (releases : list rls.Release) s :
  state.ExportReleaseName s ≠ "" ->
  ((∃ r, r ∈ releases ∧ rls.Name r = state.ExportReleaseName s) ->
   ∃ pre r post,
     releases = pre ++ r :: post
     ∧ (∀ x, x ∈ pre -> rls.Name x ≠ state.ExportReleaseName s)
     ∧ rls.Name r = state.ExportReleaseName s
     ∧ state.Update releases s =
       state.updateState
         (state.mkInfo (release.Filename r) (state.ExportReleaseName s)
                       (rls.Version r)) s)
  ∧ ((∀ r, r ∈ releases -> rls.Name r ≠ state.ExportReleaseName s) ->
     fst (state.Update releases s) =
       fst (backend.Delete (state.Path s) (state.Backend s))
     ∧ state.Backend (snd (state.Update releases s)) =
       snd (backend.Delete (state.Path s) (state.Backend s))
     ∧ state.calls (snd (state.Update releases s)) =
       state.calls s ++ [state.CDelete (state.Path s)]
     ∧ state.init (snd (state.Update releases s)) = state.init s).
Proof.
  intros Hne. unfold state.Update. rewrite decide_False by done. split.
  - intros Hex.
    destruct (first_match (fun r => rls.Name r = state.ExportReleaseName s)
                          releases Hex) as (pre & r & post & -> & Hpre & Hr).
    exists pre, r, post. repeat split; [done..|].
    by apply Update_range_first.
  - intros Hall. rewrite Update_range_none by done.
    unfold state.delete, state.Path, state.remoteFilePath, state.StoragePath.
    cbn. by destruct (backend.Delete _ _).
Qed.

(** C10.  [State.Update] without a configured manager release name
    returns nil and leaves the backend alone: no call is made on it, the
    store and the [init] flag are what they were. *)
Theorem Update_no_release_name (releases : list rls.Release) s :
  state.ExportReleaseName s = "" ->
  fst (state.Update releases s) = None
  ∧ state.Backend (snd (state.Update releases s)) = state.Backend s
  ∧ state.calls (snd (state.Update releases s)) = state.calls s
  ∧ state.init (snd (state.Update releases s)) = state.init s
  ∧ state.Config (snd (state.Update releases s)) = state.Config s.
Proof.
  intros Hempty. unfold state.Update. by rewrite decide_True.
Qed.

(** Whatever the goroutines do, [StoredReleases] returns the error of
    [StoredReleaseNames]: a failed read or decoding is only logged. *)
Lemma StoredReleases_error (sched : list nat) s :
  snd (fst (state.StoredReleases sched s)) =
  snd (fst (state.StoredReleaseNames s)).
Proof.
  unfold state.StoredReleases.
  destruct (state.StoredReleaseNames s) as [[names [e|]] s']; done.
Qed.

Lemma fold_left_take {A : Type} (b : A -> bool) (l acc : list A) :
  fold_left (fun ret n => if b n then ret ++ [n] else ret) l acc
  = acc ++ filter (fun n => b n = true) l.
Proof.
  revert acc. induction l as [|n rest IH]; intros acc.
  - cbn. by rewrite app_nil_r.
  - rewrite list.filter_cons. cbn [fold_left]. rewrite IH.
    destruct (b n).
    + rewrite decide_True by done. by rewrite <- app_assoc.
    + by rewrite decide_False.
Qed.

(** The names [StoredReleaseNames] returns are the listed names that match
    the pattern of release files, in listing order: the state record and
    any other file whose name does not match are left out. *)
Lemma StoredReleaseNames_filter s (listed : list string) (b : B)
      (pattern : regexp.Regexp) :
  backend.List (state.StoragePath s) (state.Backend s) = ((listed, None), b) ->
  regexp.Compile ("^.+" +:+ constants.ReleaseExtension +:+ "$") = (pattern, None) ->
  fst (state.StoredReleaseNames s)
  = (filter (fun n => regexp.MatchString pattern n = true) listed, None).
Proof.
  intros Hlist Hcompile. unfold state.StoredReleaseNames.
  change (state.StoragePath (state.logf DebugLevel
            "Finding releases stored in the backend." s))
    with (state.StoragePath s).
  change (state.Backend (state.logf DebugLevel
            "Finding releases stored in the backend." s))
    with (state.Backend s).
  rewrite Hlist, Hcompile. cbn [fst].
  by rewrite (fold_left_take (regexp.MatchString pattern)).
Qed.

Lemma stepAt_middle (pre tl : list state.Goroutine) (g : state.Goroutine)
      (acc : list rls.Release) s :
  state.stepAt (state.mkPool acc s (pre ++ g :: tl)) (length pre)
  = state.mkPool
      (state.ret (snd (state.step g (state.mkPool acc s (pre ++ g :: tl)))))
      (state.self (snd (state.step g (state.mkPool acc s (pre ++ g :: tl)))))
      (pre ++ fst (state.step g (state.mkPool acc s (pre ++ g :: tl))) :: tl).
Proof.
  unfold state.stepAt. cbn [state.routines].
  rewrite list_lookup_middle by done.
  assert (Hr : state.routines
                 (snd (state.step g (state.mkPool acc s (pre ++ g :: tl))))
               = pre ++ g :: tl).
  { destruct g as [f|r|r old|]; cbn; [|done..].
    destruct (state.ReadRelease f s) as [[[r|] [e|]] s']; done. }
  destruct (state.step g (state.mkPool acc s (pre ++ g :: tl))) as [g' p'].
  cbn [fst snd] in Hr |- *. rewrite Hr.
  rewrite insert_app_r_alt by done. by rewrite Nat.sub_diag.
Qed.

(** A goroutine that runs its three steps in a row reads its file and
    appends the release to the slice as it is then. *)
Lemma goroutine_alone (pre tl : list state.Goroutine) (f : string)
      (acc : list rls.Release) s :
  state.stepAt
    (state.stepAt
       (state.stepAt (state.mkPool acc s (pre ++ state.Started f :: tl))
                     (length pre))
       (length pre))
    (length pre)
  = state.mkPool (fst (state.readAll [f] acc s)) (snd (state.readAll [f] acc s))
                 (pre ++ state.Finished :: tl).
Proof.
  destruct (state.ReadRelease f s) as [[r e] s'] eqn:HR.
  rewrite stepAt_middle. cbn. rewrite HR.
  destruct e as [e|]; [|destruct r as [r|]]; cbn.
  all: rewrite stepAt_middle; cbn.
  all: rewrite stepAt_middle; cbn.
  all: done.
Qed.

Lemma readAll_cons (f : string) (fs : list string) (acc : list rls.Release) s :
  state.readAll (f :: fs) acc s
  = state.readAll fs (fst (state.readAll [f] acc s)) (snd (state.readAll [f] acc s)).
Proof.
  cbn [state.readAll].
  by destruct (state.ReadRelease f s) as [[[r|] [e|]] s'].
Qed.

Lemma wait_in_order (fs : list string) :
  ∀ (pre : list state.Goroutine) (acc : list rls.Release) s,
    fold_left (fun p n => state.stepAt (state.stepAt (state.stepAt p n) n) n)
              (seq (length pre) (length fs))
              (state.mkPool acc s (pre ++ (state.Started <$> fs)))
    = state.mkPool (fst (state.readAll fs acc s)) (snd (state.readAll fs acc s))
                   (pre ++ replicate (length fs) state.Finished).
Proof.
  induction fs as [|f fs IH]; intros pre acc s; [done|].
  cbn [length seq fold_left fmap list_fmap replicate].
  rewrite goroutine_alone.
  specialize (IH (pre ++ [state.Finished])
                 (fst (state.readAll [f] acc s)) (snd (state.readAll [f] acc s))).
  rewrite length_app in IH. cbn [length] in IH.
  rewrite Nat.add_1_r, <- !app_assoc in IH. cbn [app] in IH.
  rewrite IH. by rewrite <- readAll_cons.
Qed.

(** When no two goroutines interleave (each runs to its end before the
    next starts), [StoredReleases] returns exactly the releases decoded
    from the listed names that match the pattern, in listing order,
    whatever reads or decodings failed on the way. *)
Lemma StoredReleases_in_order s (filenames : list string) (s1 : state.State B) :
  state.StoredReleaseNames s = ((filenames, None), s1) ->
  state.StoredReleases [] s
  = ((fst (state.readAll filenames [] s1), None), snd (state.readAll filenames [] s1)).
Proof.
  intros Hnames. unfold state.StoredReleases. rewrite Hnames.
  unfold state.wait. cbn [fold_left state.routines].
  rewrite length_fmap.
  pose proof (wait_in_order filenames [] [] s1) as Hw.
  cbn [length app] in Hw. by rewrite Hw.
Qed.

End StateProperties.

(** ** The conflict check *)

Lemma append_assoc (a b c : string) : (a +:+ b) +:+ c = a +:+ b +:+ c.
Proof.
  induction a as [|x a IH]; [reflexivity|].
  change (String x ((a +:+ b) +:+ c) = String x (a +:+ b +:+ c)).
  by rewrite IH.
Qed.

Lemma names_middle (a loc b : string) : names (a +:+ loc +:+ b) loc.
Proof. by exists a, b. Qed.

Lemma names_append (msg loc tail : string) :
  names msg loc -> names (msg +:+ tail) loc.
Proof.
  intros (pre & post & ->). exists pre, (post +:+ tail).
  by rewrite !append_assoc.
Qed.

Section ConflictCheck.

Context {C : Type} `{!lmhelm.Client C} `{!constants.Values}
        `{!release.Ops} `{!mgrstate.Methods C}.

(** The two rows of the decision table that need no flag, for the import
    check. *)
Lemma import_sanityCheck_rows (t : importt.Import) (w : World C) :
  (mgrstate.Info (importt.State t) = None ->
   config.ImportConfig.NewStoragePath (config.Import (importt.Config t)) = "" ->
   importt.sanityCheck t w = (None, w))
  ∧ (mgrstate.Info (importt.State t) ≠ None ->
     config.ImportConfig.NewStoragePath (config.Import (importt.Config t)) ≠ "" ->
     importt.sanityCheck t w = (None, w)).
Proof.
  unfold importt.sanityCheck. split; intros HI HP.
  - rewrite bool_decide_eq_false_2 by (rewrite HI; naive_solver).
    by rewrite bool_decide_eq_true_2.
  - rewrite bool_decide_eq_true_2 by done.
    by rewrite bool_decide_eq_false_2.
Qed.

(** The same rows for the transfer check, read on what it tests: the
    pointer [t.State]. *)
Lemma transfer_sanityCheck_rows (t : transfer.Transfer) (w : World C) :
  (transfer.State t = None ->
   config.TransferConfig.NewStoragePath (config.Transfer (transfer.Config t)) = "" ->
   transfer.sanityCheck t w = (None, w))
  ∧ (transfer.State t ≠ None ->
     config.TransferConfig.NewStoragePath (config.Transfer (transfer.Config t)) ≠ "" ->
     transfer.sanityCheck t w = (None, w)).
Proof.
  unfold transfer.sanityCheck. split; intros HS HP.
  - rewrite HS. by rewrite bool_decide_eq_true_2.
  - destruct (transfer.State t); [|done]. by rewrite bool_decide_eq_false_2.
Qed.

(** With a state handle that holds no record and no new path, the transfer
    check takes the conflict case. *)
Lemma transfer_sanityCheck_conflict (t : transfer.Transfer)
      (st : mgrstate.State) (w : World C) :
  transfer.State t = Some st ->
  config.TransferConfig.NewStoragePath (config.Transfer (transfer.Config t)) = "" ->
  transfer.sanityCheck t w = transfer.resolveStateConflict t st w.
Proof.
  intros HS HP. unfold transfer.sanityCheck.
  by rewrite HS, bool_decide_eq_true_2.
Qed.

Lemma import_resolveStateConflict_rule (t : importt.Import) (w : World C) :
  ConflictRule
    (config.ImportConfig.Force (config.Import (importt.Config t)))
    (config.DryRun (importt.Config t))
    (config.BackendConfig.StoragePath (config.Backend (importt.Config t)))
    w (importt.resolveStateConflict t w).
Proof.
  unfold ConflictRule, importt.resolveStateConflict.
  set (loc := config.BackendConfig.StoragePath _).
  set (msg := "Existing state " +:+ _).
  assert (Hmsg : names msg loc).
  { subst msg.
    rewrite <- (append_assoc "Existing state " (mgrstate.Name (importt.State t))).
    rewrite <- (append_assoc _ " exists in path ").
    apply names_middle. }
  split; [|split].
  - intros ->. split; [done|].
    eexists. split; [done|]. by apply names_append.
  - intros -> ->. split; [done|].
    eexists. split; [done|]. by apply names_append.
  - intros -> ->. split; [done|].
    eexists. split; [done|]. by apply names_append.
Qed.

Lemma transfer_resolveStateConflict_rule (t : transfer.Transfer)
      (st : mgrstate.State) (w : World C) :
  ConflictRule
    (config.TransferConfig.Force (config.Transfer (transfer.Config t)))
    (config.DryRun (transfer.Config t))
    (mgrstate.Path st)
    w (transfer.resolveStateConflict t st w).
Proof.
  unfold ConflictRule, transfer.resolveStateConflict.
  set (loc := mgrstate.Path st).
  set (msg := "Existing state exists at " +:+ _).
  assert (Hmsg : names msg loc) by apply names_middle.
  split; [|split].
  - intros ->. split; [done|].
    eexists. split; [done|]. by apply names_append.
  - intros -> ->. split; [done|].
    eexists. split; [done|]. by apply names_append.
  - intros -> ->. split; [done|].
    eexists. split; [done|]. by apply names_append.
Qed.

(** C2.  A state record is present and no new storage path is given.
    Both conflict checks follow the rule: with force they return nil
    after logging a warning; without force and with dry-run they return
    nil after printing the conflict message; with neither they return an
    error and do nothing else.  Each message names where the existing
    state is stored: the configured storage path for the import check,
    the path of the state record for the transfer check. *)
Theorem sanityCheck_conflict (ti : importt.Import) (tt : transfer.Transfer)
        (i : state.Info) (st : mgrstate.State) (w : World C) :
  mgrstate.Info (importt.State ti) = Some i ->
  config.ImportConfig.NewStoragePath (config.Import (importt.Config ti)) = "" ->
  transfer.State tt = Some st ->
  mgrstate.Info st = Some i ->
  config.TransferConfig.NewStoragePath (config.Transfer (transfer.Config tt)) = "" ->
  ConflictRule
    (config.ImportConfig.Force (config.Import (importt.Config ti)))
    (config.DryRun (importt.Config ti))
    (config.BackendConfig.StoragePath (config.Backend (importt.Config ti)))
    w (importt.sanityCheck ti w)
  ∧ ConflictRule
      (config.TransferConfig.Force (config.Transfer (transfer.Config tt)))
      (config.DryRun (transfer.Config tt))
      (mgrstate.Path st)
      w (transfer.sanityCheck tt w).
Proof.
  intros HI HP HS HI' HP'. split.
  - unfold importt.sanityCheck.
    rewrite bool_decide_eq_true_2 by (rewrite HI; done).
    rewrite bool_decide_eq_true_2 by done. cbn.
    apply import_resolveStateConflict_rule.
  - rewrite (transfer_sanityCheck_conflict tt st w HS HP').
    apply transfer_resolveStateConflict_rule.
Qed.

End ConflictCheck.

(** ** Filtering and rewriting the batch *)

Lemma fold_left_keep {A : Type} (P : A -> Prop) `{!∀ x, Decision (P x)}
      (l acc : list A) :
  fold_left (fun deploy r => if decide (P r) then deploy ++ [r] else deploy) l acc
  = acc ++ filter P l.
Proof.
  revert acc. induction l as [|a l IH]; intros acc.
  - cbn. by rewrite app_nil_r.
  - rewrite list.filter_cons. cbn [fold_left]. rewrite IH.
    destruct (decide (P a)); [|done]. by rewrite <- app_assoc.
Qed.

Lemma fold_left_drop {A : Type} (b : A -> bool) (l acc : list A) :
  fold_left (fun deploy r => if b r then deploy else deploy ++ [r]) l acc
  = acc ++ filter (fun r => b r = false) l.
Proof.
  revert acc. induction l as [|a l IH]; intros acc.
  - cbn. by rewrite app_nil_r.
  - rewrite list.filter_cons. cbn [fold_left]. rewrite IH.
    destruct (b a) eqn:Hb.
    + by rewrite decide_False.
    + rewrite decide_True by done. by rewrite <- app_assoc.
Qed.

Lemma foldl_insert_union (kvs : list (string * string)) (m : gmap string string) :
  NoDup kvs.*1 ->
  fold_left (fun m kv => <[kv.1 := kv.2]> m) kvs m = list_to_map kvs ∪ m.
Proof.
  revert m. induction kvs as [|[k v] kvs IH]; intros m Hnd; cbn.
  - by rewrite (left_id_L ∅ (∪)).
  - cbn in Hnd. apply list.NoDup_cons in Hnd as [Hk Hnd]. rewrite IH by done.
    rewrite <- insert_union_l. symmetry. apply insert_union_r.
    by apply not_elem_of_list_to_map_1.
Qed.

Lemma installed_append (a b : list Output) :
  installed (a ++ b) = installed a ++ installed b.
Proof. apply omap_app. Qed.

Section Pipeline.

Context {C : Type} `{!lmhelm.Client C} `{!constants.Values}
        `{!release.Ops} `{!mgrstate.Methods C}.

Implicit Types (t : importt.Import) (w : World C) (h : Heap) (r : ptr).

Abbreviation allow t :=
  (config.ImportConfig.Namespace (config.Import (importt.Config t))).
Abbreviation excluded t :=
  (config.ImportConfig.ExcludeNamespaces (config.Import (importt.Config t))).
Abbreviation overrides t :=
  (config.ImportConfig.Values (config.Import (importt.Config t))).

Lemma bMatch_elem_of (ns : string) (l : list string) :
  importt.bMatch ns l = true <-> ns ∈ l.
Proof.
  induction l as [|x l IH]; cbn.
  - split; [done|]. by intros ?%elem_of_nil.
  - destruct (decide (ns = x)) as [->|Hne].
    + split; [intros _; left | done].
    + rewrite IH, elem_of_cons. split; [by right|].
      by intros [?|?].
Qed.

(** C7.  The namespace filter.  With an allow namespace configured it
    keeps, in order, the releases of that namespace.  Otherwise, with a
    non-empty exclude-list, it drops the releases whose namespace is in
    the list and keeps the others.  Otherwise the batch is returned as it
    is.  Hence a release whose namespace is the allow namespace and is
    also in the exclude-list is kept. *)
Theorem filterReleasesByNamespace_spec t (releases : list ptr) h :
  (allow t ≠ "" ->
   importt.filterReleasesByNamespace t releases h =
   filter (fun r => rls.Namespace (h r) = allow t) releases)
  ∧ (allow t = "" -> excluded t ≠ [] ->
     importt.filterReleasesByNamespace t releases h =
     filter (fun r => rls.Namespace (h r) ∉ excluded t) releases)
  ∧ (allow t = "" -> excluded t = [] ->
     importt.filterReleasesByNamespace t releases h = releases)
  ∧ (allow t ≠ "" ->
     ∀ r, r ∈ releases -> rls.Namespace (h r) = allow t ->
          rls.Namespace (h r) ∈ excluded t ->
          r ∈ importt.filterReleasesByNamespace t releases h).
Proof.
  assert (Hinc : allow t ≠ "" ->
                 importt.filterReleasesByNamespace t releases h =
                 filter (fun r => rls.Namespace (h r) = allow t) releases).
  { intros Ha. unfold importt.filterReleasesByNamespace.
    rewrite decide_True by done.
    unfold importt.includeReleasesByNamespace.
    by rewrite (fold_left_keep (fun r => rls.Namespace (h r) = allow t)). }
  split; [exact Hinc|]. split; [|split].
  - intros Ha He. unfold importt.filterReleasesByNamespace.
    rewrite decide_False by (intros Hn; by apply Hn).
    rewrite decide_True by (destruct (excluded t); [done | cbn; lia]).
    unfold importt.excludeReleasesByNamespace. rewrite fold_left_drop. cbn.
    apply list_filter_iff. intros r.
    rewrite <- bMatch_elem_of. by destruct (importt.bMatch _ _).
  - intros Ha He. unfold importt.filterReleasesByNamespace.
    rewrite decide_False by (intros Hn; by apply Hn).
    rewrite decide_False by (rewrite He; cbn; lia). done.
  - intros Ha r Hin Hns _. rewrite Hinc by done.
    by apply list_elem_of_filter.
Qed.

(** *** Value overrides *)

Lemma sameIdentity_refl h : sameIdentity h h.
Proof. by intros q. Qed.

Lemma sameIdentity_trans h1 h2 h3 :
  sameIdentity h1 h2 -> sameIdentity h2 h3 -> sameIdentity h1 h3.
Proof.
  intros H12 H23 q. destruct (H12 q) as (?&?&?), (H23 q) as (?&?&?).
  repeat split; congruence.
Qed.

Lemma UpdateValue_spec r (k v : string) h :
  let res := release.UpdateValue r k v h in
  fst (fst res) = r
  ∧ sameIdentity h (snd res)
  ∧ (∀ q, q ≠ r -> snd res q = h q)
  ∧ match snd (fst res) with
    | None => rls.Values (snd res r) = <[k := v]> (rls.Values (h r))
    | Some e => release.UpdateError (h r) k v = Some e ∧ snd res = h
    end.
Proof.
  unfold release.UpdateValue.
  destruct (release.UpdateError (h r) k v) as [e|] eqn:He; cbn.
  - repeat split; done.
  - split; [done|]. split; [|split].
    + intros q. destruct (decide (r = q)) as [->|Hne].
      * by rewrite fn_lookup_insert.
      * by rewrite fn_lookup_insert_ne.
    + intros q Hq. by rewrite fn_lookup_insert_ne.
    + by rewrite fn_lookup_insert.
Qed.

Lemma updateValues_keys_spec (kvs : list (string * string)) r h :
  let res := importt.updateValues_keys kvs r h in
  fst (fst res) = r
  ∧ sameIdentity h (snd res)
  ∧ (∀ q, q ≠ r -> snd res q = h q)
  ∧ match snd (fst res) with
    | None =>
        rls.Values (snd res r) =
        fold_left (fun m kv => <[kv.1 := kv.2]> m) kvs (rls.Values (h r))
    | Some e =>
        ∃ (rel : rls.Release) (k v : string),
          (k, v) ∈ kvs ∧ release.UpdateError rel k v = Some e
    end.
Proof.
  revert h. induction kvs as [|[k v] kvs IH]; intros h; cbn.
  - split; [done|]. split; [apply sameIdentity_refl|]. by split.
  - pose proof (UpdateValue_spec r k v h) as (Hp & Hid & Hfr & Hres).
    destruct (release.UpdateValue r k v h) as [[r' err] h'].
    cbn in Hp, Hid, Hfr, Hres. subst r'.
    destruct err as [e|]; cbn.
    + do 3 (split; [done|]).
      destruct Hres as [He _]. exists (h r), k, v. split; [left | done].
    + specialize (IH h'). cbn in IH.
      destruct (importt.updateValues_keys kvs r h') as [[r'' err'] h''].
      cbn in IH |- *. destruct IH as (Hp' & Hid' & Hfr' & Hres').
      split; [done|]. split; [by eapply sameIdentity_trans|].
      split; [intros q Hq; by rewrite Hfr', Hfr|].
      destruct err' as [e|].
      * destruct Hres' as (r0 & k' & v' & Hin & He).
        exists r0, k', v'. split; [by right | done].
      * by rewrite Hres', Hres.
Qed.

Lemma visits_list_to_map t it (n : nat) :
  visits t it -> NoDup (it n).*1 ∧ list_to_map (it n) = overrides t.
Proof.
  intros Hv. specialize (Hv n). split.
  - rewrite Hv. apply NoDup_fst_map_to_list.
  - rewrite <- (list_to_map_to_list (overrides t)).
    apply list_to_map_proper; [|done].
    rewrite Hv. apply NoDup_fst_map_to_list.
Qed.

Lemma updateValues_range_spec t it (n : nat) (releases : list ptr) h :
  visits t it ->
  let res := importt.updateValues_range it n releases h in
  sameIdentity h (snd res)
  ∧ (∀ q, q ∉ releases -> snd res q = h q)
  ∧ match fst res with
    | None =>
        ∀ r, r ∈ releases ->
             rls.Values (snd res r) = overrides t ∪ rls.Values (h r)
    | Some e =>
        ∃ (rel : rls.Release) (k v : string),
          overrides t !! k = Some v ∧ release.UpdateError rel k v = Some e
    end.
Proof.
  intros Hv. revert n h.
  induction releases as [|r rest IH]; intros n h; cbn.
  - split; [apply sameIdentity_refl|]. split; [done|].
    intros r Hr. by apply elem_of_nil in Hr.
  - pose proof (updateValues_keys_spec (it n) r h) as (_ & Hid & Hfr & Hres).
    destruct (visits_list_to_map t it n Hv) as [Hnd Hmap].
    destruct (importt.updateValues_keys (it n) r h) as [[r' err] h1].
    cbn in Hid, Hfr, Hres. destruct err as [e|]; cbn.
    + split; [done|].
      split; [intros q Hq; apply Hfr; intros ->; apply Hq; left|].
      destruct Hres as (r0 & k & v & Hin & He). exists r0, k, v.
      split; [|done]. rewrite <- Hmap.
      by apply elem_of_list_to_map_1.
    + rewrite foldl_insert_union, Hmap in Hres by done.
      specialize (IH (S n) h1). cbn in IH.
      destruct (importt.updateValues_range it (S n) rest h1) as [err' h2].
      cbn in IH |- *. destruct IH as (Hid' & Hfr' & Hres').
      split; [by eapply sameIdentity_trans|].
      split.
      { intros q Hq. rewrite Hfr', Hfr; [done|..].
        - intros ->. apply Hq. left.
        - intros Hin. apply Hq. by right. }
      destruct err' as [e|]; [done|].
      intros q Hq. destruct (decide (q ∈ rest)) as [Hin|Hnin].
      * rewrite Hres' by done. destruct (decide (q = r)) as [->|Hne].
        -- rewrite Hres. rewrite (assoc_L (∪)). by rewrite (idemp_L (∪)).
        -- by rewrite Hfr.
      * apply elem_of_cons in Hq as [->|Hq]; [|done].
        by rewrite Hfr'.
Qed.

(** C6.  The value-override stage, for every order in which the override
    map is visited.  When it succeeds it returns the batch it was given,
    and behind every reference of the batch the values are the old ones
    overridden by the configured map: every configured key holds its
    configured value; names, namespaces and versions are untouched.
    When a rewrite fails it returns no release and the error of that
    rewrite, and [Run] returns this error at once, in the world the
    stage left: [deployReleases] is not reached.  In both cases nothing
    is handed to the install capability. *)
Theorem updateValues_spec t it (releases : list ptr) w :
  visits t it ->
  let res := importt.updateValues it releases w in
  sameIdentity (heap w) (heap (snd res))
  ∧ cluster (snd res) = cluster w
  ∧ installed (out (snd res)) = installed (out w)
  ∧ match snd (fst res) with
    | None =>
        fst (fst res) = releases
        ∧ (∀ r, r ∈ releases ->
                rls.Values (heap (snd res) r)
                = overrides t ∪ rls.Values (heap w r))
        ∧ (∀ r (k v : string),
              r ∈ releases -> overrides t !! k = Some v ->
              rls.Values (heap (snd res) r) !! k = Some v)
    | Some e =>
        fst (fst res) = []
        ∧ (∃ (rel : rls.Release) (k v : string),
              overrides t !! k = Some v
              ∧ release.UpdateError rel k v = Some e)
        ∧ (∀ (sched : list (list nat)) (batch : list ptr) (w0 : World C),
              mgrstate.StoredReleases (importt.State t) w0 = ((batch, None), w)
              -> importt.filterReleasesByNamespace t batch (heap w) = releases
              -> importt.Run it sched t w0 = (Returns (Some e), snd res))
    end.
Proof.
  intros Hv res. subst res. unfold importt.updateValues.
  pose proof (updateValues_range_spec t it 0 releases (heap w) Hv)
    as (Hid & Hfr & Hres).
  change (heap (logf DebugLevel ("Updating release values" +:+ nl) w))
    with (heap w).
  destruct (importt.updateValues_range it 0 releases (heap w)) as [err h'] eqn:Hrange.
  cbn in Hid, Hfr, Hres.
  destruct err as [e|]; cbn.
  - split; [done|]. split; [done|].
    split; [by rewrite installed_append, app_nil_r|].
    split; [done|]. split; [done|].
    intros sched batch w0 Hstored Hfilter.
    unfold importt.Run. rewrite Hstored.
    unfold importt.processReleases, importt.updateValues.
    rewrite Hfilter.
    change (heap (logf DebugLevel ("Updating release values" +:+ nl) w))
      with (heap w).
    by rewrite Hrange.
  - split; [done|]. split; [done|].
    split; [by rewrite installed_append, app_nil_r|].
    split; [done|]. split; [done|].
    intros r k v Hin Hk. rewrite Hres by done.
    by apply lookup_union_Some_l.
Qed.

End Pipeline.

(** ** Dispatching the batch *)

Lemma installed_stdout (msg : string) (o : list Output) :
  installed (Stdout msg :: o) = installed o.
Proof. reflexivity. Qed.

Lemma installed_log (l : Level) (msg : string) (o : list Output) :
  installed (Log l msg :: o) = installed o.
Proof. reflexivity. Qed.

Lemma skipped_append (a b : list Output) : skipped (a ++ b) = skipped a + skipped b.
Proof. unfold skipped. by rewrite list.filter_app, length_app. Qed.

Lemma skipped_stdout (msg : string) (o : list Output) :
  skipped (Stdout msg :: o) = skipped o.
Proof. unfold skipped. by rewrite list.filter_cons, decide_False. Qed.

Lemma skipped_install (rel : rls.Release) (o : list Output) :
  skipped (Install rel :: o) = skipped o.
Proof. unfold skipped. by rewrite list.filter_cons, decide_False. Qed.

Lemma skipped_skip (o : list Output) :
  skipped (Log ErrorLevel importt.skipping :: o) = S (skipped o).
Proof. unfold skipped. by rewrite list.filter_cons, decide_True. Qed.

Lemma dryRunLines_installed `{!release.Ops} (verbose : bool) (newPath : string)
      (info : option state.Info) (names : list string)
      (chunks : list (list Output)) :
  Forall2 (dryRunLines verbose newPath info) names chunks ->
  installed (concat chunks) = [].
Proof.
  induction 1 as [|name c names chunks Hc _ IH]; [done|].
  cbn. rewrite installed_append, IH.
  destruct Hc as (dmsg & [(rel & _ & ->)|(_ & ->)]); done.
Qed.

Section ImportDispatch.

Context {C : Type} `{!lmhelm.Client C} `{!constants.Values}
        `{!release.Ops} `{!mgrstate.Methods C}.

Implicit Types (t : importt.Import) (w : World C) (r : ptr).

Lemma ran_nil w : ran [] w w.
Proof. split; [done|]. exists []. by rewrite app_nil_r. Qed.

Lemma ran_app (d1 d2 : list ptr) w w1 w2 :
  ran d1 w w1 -> ran d2 w1 w2 -> ran (d1 ++ d2) w w2.
Proof.
  intros (Hh1 & n1 & Ho1 & Hi1 & Hs1) (Hh2 & n2 & Ho2 & Hi2 & Hs2).
  split; [congruence|]. exists (n1 ++ n2).
  split; [by rewrite Ho2, Ho1, app_assoc|].
  split.
  - by rewrite installed_append, Hi1, Hi2, Hh1, fmap_app.
  - rewrite skipped_append. lia.
Qed.

Lemma deployRelease_ran r w : ran [r] w (snd (importt.deployRelease r w)).
Proof.
  unfold importt.deployRelease.
  destruct (lmhelm.Install (heap w r) (cluster w)) as [[e|] c];
    [destruct (lmhelm.ErrorReleaseExists e)|];
    (split; [done|]; eexists [_; _];
     split; [cbn; by rewrite <- app_assoc|];
     split; [reflexivity|]; by rewrite skipped_install, skipped_stdout).
Qed.

Lemma runWorkers_ran (choices : list nat) (inflight : list ptr) w :
  ∃ done, inflight ≡ₚ done ++ fst (importt.runWorkers choices inflight w)
          ∧ ran done w (snd (importt.runWorkers choices inflight w)).
Proof.
  revert inflight w. induction choices as [|c rest IH]; intros inflight w; cbn.
  - exists []. split; [done | apply ran_nil].
  - destruct (inflight !! c) as [r|] eqn:Hc; [|apply IH].
    destruct (IH (delete c inflight) (snd (importt.deployRelease r w)))
      as (done & Hperm & Hran).
    exists (r :: done). split.
    + etrans; [exact (delete_Permutation inflight c r Hc)|].
      cbn. by constructor.
    + apply (ran_app [r] done _ _ _ (deployRelease_ran r w) Hran).
Qed.

Lemma drain_ran (inflight : list ptr) w : ran inflight w (importt.drain inflight w).
Proof.
  revert w. induction inflight as [|r rest IH]; intros w; cbn.
  - apply ran_nil.
  - apply (ran_app [r] rest _ _ _ (deployRelease_ran r w)). apply IH.
Qed.

(** With at least one permit, [sem <- 1] goes through. *)
Lemma acquire_ran (choices : list nat) (inflight : list ptr) w :
  0 < constants.ImportMaxThreads ->
  ∃ done rest w',
    importt.acquire choices inflight w = Some (rest, w')
    ∧ inflight ≡ₚ done ++ rest
    ∧ ran done w w'.
Proof.
  intros Hpos. unfold importt.acquire.
  destruct (runWorkers_ran choices inflight w) as (done & Hperm & Hran).
  destruct (importt.runWorkers choices inflight w) as [fl w1]. cbn in Hperm, Hran.
  destruct (decide (length fl < constants.ImportMaxThreads)) as [Hlt|Hge].
  - by exists done, fl, w1.
  - destruct fl as [|r fl]; [cbn in Hge; lia|].
    exists (done ++ [r]), fl, (snd (importt.deployRelease r w1)).
    split; [done|]. split.
    + rewrite Hperm. by rewrite <- app_assoc.
    + apply (ran_app done [r] _ _ _ Hran (deployRelease_ran r w1)).
Qed.

(** The store after the bookkeeping of one iteration: the release behind
    [r] may have a new namespace and a new storage path, nothing else. *)
Lemma updateManagerRelease_spec t r w :
  let res := importt.updateManagerRelease t r w in
  fst (fst res) = r
  ∧ sameIdentity (heap w) (heap (snd res))
  ∧ cluster (snd res) = cluster w
  ∧ out (snd res) = out w.
Proof.
  unfold importt.updateManagerRelease.
  destruct (decide _);
    [split; [done|]; split; [apply sameIdentity_refl | done]|].
  destruct (mgrstate.Info (importt.State t)) as [i|];
    [|split; [done|]; split; [apply sameIdentity_refl | done]].
  destruct (decide _);
    [split; [done|]; split; [apply sameIdentity_refl | done]|].
  unfold importt.updateManagerStoragePath.
  pose proof (UpdateValue_spec r constants.ValueStoragePath
    (config.ImportConfig.NewStoragePath (config.Import (importt.Config t)))
    (heap w)) as (Hp & Hid & _).
  destruct (release.UpdateValue _ _ _ _) as [[r' err] h']. by cbn in *.
Qed.

(** Only the rewrite of the manager release can fail. *)
Lemma updateManagerRelease_error t r w :
  is_Some (snd (fst (importt.updateManagerRelease t r w))) ->
  isManager (config.ImportConfig.NewStoragePath (config.Import (importt.Config t)))
            (mgrstate.Info (importt.State t)) (rls.Name (heap w r)).
Proof.
  unfold importt.updateManagerRelease, isManager.
  destruct (decide _) as [Hp|Hp]; [by intros [? ?]|].
  destruct (mgrstate.Info (importt.State t)) as [i|];
    [|by intros [? ?]].
  destruct (decide _) as [Hd|Hd]; [by intros [? ?]|].
  intros _. split; [done|]. exists i. split; [done|].
  by destruct (decide (rls.Name (heap w r) = state.ReleaseName i)).
Qed.

(** The target namespace override keeps the name and the version. *)
Lemma target_sameIdentity_name (h : Heap) r (ns : string) :
  ∀ q, rls.Name ((<[r := rls.mkRelease (rls.Name (h r)) ns (rls.Version (h r))
                                        (rls.Values (h r))]> h) q)
       = rls.Name (h q).
Proof.
  intros q. destruct (decide (r = q)) as [->|Hne].
  - by rewrite fn_lookup_insert.
  - by rewrite fn_lookup_insert_ne.
Qed.

Lemma sameNames_fmap (h h' : Heap) (l : list ptr) :
  sameNames h h' ->
  (fun q => rls.Name (h' q)) <$> l = (fun q => rls.Name (h q)) <$> l.
Proof. intros Hn. apply list_fmap_ext. intros _ q _. apply Hn. Qed.

(** One iteration up to the dry-run test: the store keeps its names, the
    cluster is untouched and one line was printed. *)
Lemma iteration_prefix t r w :
  let w1 := printf ("Deploying release " +:+ rls.Name (heap w r) +:+
                    " to namespace " +:+ rls.Namespace (heap w r) +:+ nl) w in
  let w2 :=
    if decide (config.ImportConfig.Target (config.Import (importt.Config t)) ≠ "")
    then setHeap (<[r := rls.mkRelease
                           (rls.Name (heap w1 r))
                           (config.ImportConfig.Target (config.Import (importt.Config t)))
                           (rls.Version (heap w1 r))
                           (rls.Values (heap w1 r))]> (heap w1)) w1
    else w1 in
  let res := importt.updateManagerRelease t r w2 in
  fst (fst res) = r
  ∧ sameNames (heap w) (heap (snd res))
  ∧ cluster (snd res) = cluster w
  ∧ (is_Some (snd (fst res)) ->
     isManager (config.ImportConfig.NewStoragePath (config.Import (importt.Config t)))
               (mgrstate.Info (importt.State t)) (rls.Name (heap w r)))
  ∧ ∃ msg, out (snd res) = out w ++ [Stdout msg].
Proof.
  intros w1 w2 res.
  pose proof (updateManagerRelease_spec t r w2) as (Hp & Hid & Hc & Ho).
  pose proof (updateManagerRelease_error t r w2) as He.
  fold res in Hp, Hid, Hc, Ho, He.
  assert (Hw2 : sameNames (heap w) (heap w2) ∧ cluster w2 = cluster w
                ∧ out w2 = out w1).
  { subst w2. destruct (decide _); [|done].
    split; [|done]. intros q. apply target_sameIdentity_name. }
  destruct Hw2 as (Hn2 & Hc2 & Ho2).
  split; [done|]. split.
  { intros q. destruct (Hid q) as (-> & _). apply Hn2. }
  split; [congruence|].
  split; [intros Hsome; rewrite <- Hn2; by apply He|].
  eexists. rewrite Ho, Ho2. reflexivity.
Qed.

Lemma deployReleases_range_installs t (releases : list ptr) :
  config.DryRun (importt.Config t) = false ->
  0 < constants.ImportMaxThreads ->
  ∀ (sched : list (list nat)) (inflight : list ptr) w,
  ∃ w' new,
    importt.deployReleases_range t sched releases inflight w = (Returns None, w')
    ∧ out w' = out w ++ new
    ∧ sameNames (heap w) (heap w')
    ∧ length (installed new) + skipped new = length inflight + length releases
    ∧ rls.Name <$> installed new
      ⊆+ (fun q => rls.Name (heap w q)) <$> (inflight ++ releases).
Proof.
  intros Hdry Hpos.
  induction releases as [|r rest IH]; intros sched inflight w.
  - cbn [importt.deployReleases_range].
    destruct (runWorkers_ran (hd [] sched) inflight w) as (done & Hperm & Hran).
    destruct (importt.runWorkers (hd [] sched) inflight w) as [fl w1].
    cbn [fst snd] in Hperm, Hran.
    pose proof (ran_app done fl _ _ _ Hran (drain_ran fl w1))
      as (Hh & new & Ho & Hi & Hs).
    exists (importt.drain fl w1), new.
    split; [done|]. split; [done|].
    split; [intros q; by rewrite Hh|].
    rewrite app_nil_r, Hi, Hs, length_fmap, <- list_fmap_compose.
    split; [rewrite Hperm; cbn; lia|].
    apply Permutation_submseteq. by rewrite Hperm.
  - cbn [importt.deployReleases_range].
    pose proof (iteration_prefix t r w) as Hpre. cbn zeta in Hpre.
    destruct (importt.updateManagerRelease t r _) as [[r' err] w3].
    cbn [fst snd] in Hpre. destruct Hpre as (-> & Hn3 & _ & _ & dmsg & Ho3).
    destruct err as [e|].
    + destruct (IH sched inflight (logf ErrorLevel importt.skipping w3))
        as (w' & new & Hrun & Ho & Hn & Hlen & Hsub).
      exists w', (Stdout dmsg :: Log ErrorLevel importt.skipping :: new).
      split; [done|].
      split; [rewrite Ho; cbn; rewrite Ho3, <- !app_assoc; done|].
      split; [intros q; etrans; [apply Hn | apply Hn3]|].
      rewrite skipped_stdout, skipped_skip, installed_stdout, installed_log.
      split; [cbn; lia|].
      etrans; [exact Hsub|]. cbn [heap logf].
      rewrite (sameNames_fmap _ _ _ Hn3), !fmap_app.
      apply submseteq_skips_l. cbn. by apply submseteq_cons.
    + rewrite Hdry.
      destruct (acquire_ran (hd [] sched) inflight w3 Hpos)
        as (done & fl & w4 & -> & Hperm & Hh4 & new1 & Ho4 & Hi4 & Hs4).
      destruct (IH (tl sched) (fl ++ [r]) w4)
        as (w' & new & Hrun & Ho & Hn & Hlen & Hsub).
      exists w', (Stdout dmsg :: new1 ++ new).
      split; [done|].
      split; [rewrite Ho, Ho4, Ho3, <- !app_assoc; done|].
      split; [intros q; etrans; [apply Hn|]; rewrite Hh4; apply Hn3|].
      rewrite skipped_stdout, skipped_append, Hs4, installed_stdout.
      rewrite installed_append, Hi4, length_app, length_fmap.
      split.
      { rewrite length_app in Hlen. cbn in Hlen |- *.
        rewrite Hperm, length_app. lia. }
      rewrite fmap_app, <- list_fmap_compose.
      rewrite Hh4 in Hsub.
      rewrite (sameNames_fmap _ _ _ Hn3) in Hsub.
      change (rls.Name ∘ heap w3) with (fun q => rls.Name (heap w3 q)).
      rewrite (sameNames_fmap _ _ _ Hn3).
      rewrite Hperm, <- !app_assoc, (fmap_app _ done).
      apply submseteq_app; [done|].
      etrans; [exact Hsub|]. by rewrite <- !app_assoc.
Qed.

(** C4.  A batch dispatched by the import orchestrator, not in dry-run,
    with at least one permit in the pool, under every schedule of the
    install goroutines.  [deployReleases] returns nil whatever the
    installs returned.  By then every release of the batch was either
    skipped because its manager path could not be rewritten or handed
    to the install capability: the installs and the skips add up to the
    size of the batch, and the installed names are names of the batch,
    each release at most once.  An install error classified as "release
    already exists" makes [deployRelease] print the skip line and return
    nil; any other install error is printed and returned, and dropped
    by the goroutine. *)
Theorem deployReleases_continues t (sched : list (list nat))
        (releases : list ptr) w :
  config.DryRun (importt.Config t) = false ->
  0 < constants.ImportMaxThreads ->
  (∃ w' new,
      importt.deployReleases t sched releases w = (Returns None, w')
      ∧ out w' = out w ++ new
      ∧ length (installed new) + skipped new = length releases
      ∧ rls.Name <$> installed new
        ⊆+ (fun q => rls.Name (heap w q)) <$> releases)
  ∧ (∀ r (e : error) (c : C),
        lmhelm.Install (heap w r) (cluster w) = (Some e, c) ->
        lmhelm.ErrorReleaseExists e = true ->
        importt.deployRelease r w =
        (None,
         mkWorld (heap w) c
                 (out w ++ [Install (heap w r);
                            Stdout ("Skipping release: " +:+ rls.Name (heap w r)
                                    +:+ " already exists" +:+ nl)])))
  ∧ (∀ r (e : error) (c : C),
        lmhelm.Install (heap w r) (cluster w) = (Some e, c) ->
        lmhelm.ErrorReleaseExists e = false ->
        importt.deployRelease r w =
        (Some e,
         mkWorld (heap w) c
                 (out w ++ [Install (heap w r);
                            Stdout ("Error deploying release " +:+
                                    rls.Name (heap w r) +:+ ": " +:+ e +:+ nl)]))).
Proof.
  intros Hdry Hpos. split; [|split].
  - destruct (deployReleases_range_installs t releases Hdry Hpos sched [] w)
      as (w' & new & Hrun & Ho & _ & Hlen & Hsub).
    exists w', new. by repeat split.
  - intros r e c HI He. unfold importt.deployRelease. rewrite HI, He.
    unfold printf. cbn. by rewrite <- app_assoc.
  - intros r e c HI He. unfold importt.deployRelease. rewrite HI, He.
    unfold printf. cbn. by rewrite <- app_assoc.
Qed.

Lemma runWorkers_nil (choices : list nat) w :
  importt.runWorkers choices [] w = ([], w).
Proof. induction choices as [|c rest IH]; [done|]. cbn. apply IH. Qed.

Lemma import_dry_run t (releases : list ptr) :
  config.DryRun (importt.Config t) = true ->
  ∀ (sched : list (list nat)) w,
  ∃ w' chunks,
    importt.deployReleases_range t sched releases [] w = (Returns None, w')
    ∧ cluster w' = cluster w
    ∧ out w' = out w ++ concat chunks
    ∧ Forall2
        (dryRunLines
           (config.VerboseMode (importt.Config t))
           (config.ImportConfig.NewStoragePath (config.Import (importt.Config t)))
           (mgrstate.Info (importt.State t)))
        ((fun q => rls.Name (heap w q)) <$> releases) chunks.
Proof.
  intros Hdry. induction releases as [|r rest IH]; intros sched w.
  - cbn [importt.deployReleases_range]. rewrite runWorkers_nil.
    exists w, []. cbn. by rewrite app_nil_r.
  - cbn [importt.deployReleases_range].
    pose proof (iteration_prefix t r w) as Hpre. cbn zeta in Hpre.
    destruct (importt.updateManagerRelease t r _) as [[r' err] w3].
    cbn [fst snd] in Hpre.
    destruct Hpre as (-> & Hn3 & Hc3 & Hmgr & dmsg & Ho3).
    destruct err as [e|].
    + destruct (IH sched (logf ErrorLevel importt.skipping w3))
        as (w' & chunks & Hrun & Hc & Ho & Hch).
      exists w', ([Stdout dmsg; Log ErrorLevel importt.skipping] :: chunks).
      split; [done|]. split; [by rewrite Hc|].
      split; [rewrite Ho; cbn; rewrite Ho3, <- !app_assoc; done|].
      rewrite fmap_cons. constructor.
      * exists dmsg. right. split; [by apply Hmgr | done].
      * cbn [heap logf] in Hch. by rewrite (sameNames_fmap _ _ _ Hn3) in Hch.
    + rewrite Hdry.
      destruct (IH sched
                   (printf (release.ToString (heap w3 r)
                              (config.VerboseMode (importt.Config t)) +:+ nl) w3))
        as (w' & chunks & Hrun & Hc & Ho & Hch).
      exists w',
        ([Stdout dmsg;
          Stdout (release.ToString (heap w3 r)
                    (config.VerboseMode (importt.Config t)) +:+ nl)] :: chunks).
      split; [done|]. split; [by rewrite Hc|].
      split; [rewrite Ho; cbn; rewrite Ho3, <- !app_assoc; done|].
      rewrite fmap_cons. constructor.
      * exists dmsg. left. exists (heap w3 r). split; [apply Hn3 | done].
      * cbn [heap printf] in Hch. by rewrite (sameNames_fmap _ _ _ Hn3) in Hch.
Qed.

End ImportDispatch.

Section TransferDispatch.

Context {C : Type} `{!lmhelm.Client C} `{!constants.Values}
        `{!release.Ops} `{!mgrstate.Methods C}.

Implicit Types (t : transfer.Transfer) (w : World C) (r : ptr).

Abbreviation newPath t :=
  (config.TransferConfig.NewStoragePath (config.Transfer (transfer.Config t))).

Lemma transfer_updateManagerRelease_returns t r w
      (x : ptr * option error) (w3 : World C) :
  transfer.updateManagerRelease t r w = Returns (x, w3) ->
  fst x = r
  ∧ sameIdentity (heap w) (heap w3)
  ∧ cluster w3 = cluster w
  ∧ out w3 = out w
  ∧ (is_Some (snd x) -> isManager (newPath t) (recordOf t) (rls.Name (heap w r))).
Proof.
  unfold transfer.updateManagerRelease, recordOf, isManager.
  destruct (decide (newPath t = "")) as [Hp|Hp].
  { intros [= <- <-]. split; [done|]. split; [apply sameIdentity_refl|].
    do 2 (split; [done|]). by intros [? ?]. }
  destruct (transfer.State t) as [st|]; [|done].
  destruct (mgrstate.Info st) as [i|].
  2:{ intros [= <- <-]. split; [done|]. split; [apply sameIdentity_refl|].
      do 2 (split; [done|]). by intros [? ?]. }
  destruct (decide (rls.Name (heap w r) ≠ state.ReleaseName i)) as [Hn|Hn].
  { intros [= <- <-]. split; [done|]. split; [apply sameIdentity_refl|].
    do 2 (split; [done|]). by intros [? ?]. }
  unfold transfer.updateManagerStoragePath.
  pose proof (UpdateValue_spec r constants.ValueStoragePath (newPath t) (heap w))
    as (Hr & Hid & _).
  destruct (release.UpdateValue _ _ _ _) as [[r' err] h'].
  cbn in Hr, Hid. intros [= <- <-]. cbn.
  do 4 (split; [done|]). intros _. split; [done|]. exists i. split; [done|].
  by destruct (decide (rls.Name (heap w r) = state.ReleaseName i)).
Qed.

Lemma transfer_updateManagerRelease_some t (st : mgrstate.State) r w :
  transfer.State t = Some st ->
  ∃ x w3, transfer.updateManagerRelease t r w = Returns (x, w3).
Proof.
  intros Hst. unfold transfer.updateManagerRelease. rewrite Hst.
  destruct (decide _); [by eexists _, _|].
  destruct (mgrstate.Info st); [|by eexists _, _].
  destruct (decide _); [by eexists _, _|].
  destruct (transfer.updateManagerStoragePath _ _ _). by eexists _, _.
Qed.

Lemma transfer_runWorkers_nil (choices : list nat) w :
  transfer.runWorkers choices [] w = ([], w).
Proof. induction choices as [|c rest IH]; [done|]. cbn. apply IH. Qed.

(** A dry run of the transfer loop hands nothing to the install
    capability, however the loop ends. *)
Lemma transfer_dry_run_no_install t (releases : list ptr) :
  config.DryRun (transfer.Config t) = true ->
  ∀ (sched : list (list nat)) w,
    installed (out (snd (transfer.deployReleases_range t sched releases [] w)))
    = installed (out w)
    ∧ cluster (snd (transfer.deployReleases_range t sched releases [] w))
      = cluster w.
Proof.
  intros Hdry. induction releases as [|r rest IH]; intros sched w.
  - cbn [transfer.deployReleases_range]. by rewrite transfer_runWorkers_nil.
  - cbn [transfer.deployReleases_range].
    set (w1 := printf _ w).
    assert (Hw1 : installed (out w1) = installed (out w) ∧ cluster w1 = cluster w).
    { subst w1. cbn. by rewrite installed_append, app_nil_r. }
    destruct Hw1 as [Hi1 Hc1].
    destruct (transfer.updateManagerRelease t r w1) as [[[r' err] w3]| | |] eqn:Hup;
      [|done..].
    apply transfer_updateManagerRelease_returns in Hup as (_ & _ & Hc3 & Ho3 & _).
    destruct err as [e|]; [|rewrite Hdry].
    + destruct (IH sched (logf ErrorLevel transfer.skipping w3)) as [Hi Hc].
      rewrite Hi, Hc. cbn. by rewrite installed_append, app_nil_r, Ho3.
    + destruct (IH sched
                   (printf (release.ToString (heap w3 r')
                              (config.VerboseMode (transfer.Config t)) +:+ nl) w3))
        as [Hi Hc].
      rewrite Hi, Hc. cbn. by rewrite installed_append, app_nil_r, Ho3.
Qed.

Lemma transfer_dry_run t (st : mgrstate.State) (releases : list ptr) :
  config.DryRun (transfer.Config t) = true ->
  transfer.State t = Some st ->
  ∀ (sched : list (list nat)) w,
  ∃ w' chunks,
    transfer.deployReleases_range t sched releases [] w = (Returns None, w')
    ∧ out w' = out w ++ concat chunks
    ∧ Forall2
        (dryRunLines (config.VerboseMode (transfer.Config t)) (newPath t)
                     (mgrstate.Info st))
        ((fun q => rls.Name (heap w q)) <$> releases) chunks.
Proof.
  intros Hdry Hst.
  assert (Hrec : recordOf t = mgrstate.Info st) by (unfold recordOf; by rewrite Hst).
  induction releases as [|r rest IH]; intros sched w.
  - cbn [transfer.deployReleases_range]. rewrite transfer_runWorkers_nil.
    exists w, []. cbn. by rewrite app_nil_r.
  - cbn [transfer.deployReleases_range].
    set (dmsg := "Deploying release: " +:+ _).
    destruct (transfer_updateManagerRelease_some t st r (printf dmsg w) Hst)
      as ([r' err] & w3 & Hup).
    rewrite Hup.
    apply transfer_updateManagerRelease_returns in Hup
      as (Hr & Hid & _ & Ho3 & Hmgr).
    cbn in Hr, Hmgr. subst r'. rewrite Hrec in Hmgr.
    assert (Hn3 : sameNames (heap w) (heap w3)).
    { intros q. by destruct (Hid q) as (-> & _). }
    destruct err as [e|]; [|rewrite Hdry].
    + destruct (IH sched (logf ErrorLevel transfer.skipping w3))
        as (w' & chunks & Hrun & Ho & Hch).
      exists w', ([Stdout dmsg; Log ErrorLevel importt.skipping] :: chunks).
      split; [done|].
      split; [rewrite Ho; cbn; rewrite Ho3; cbn; rewrite <- !app_assoc; done|].
      rewrite fmap_cons. constructor.
      * exists dmsg. right. split; [by apply Hmgr | done].
      * cbn [heap logf] in Hch. by rewrite (sameNames_fmap _ _ _ Hn3) in Hch.
    + destruct (IH sched
                   (printf (release.ToString (heap w3 r)
                              (config.VerboseMode (transfer.Config t)) +:+ nl) w3))
        as (w' & chunks & Hrun & Ho & Hch).
      exists w',
        ([Stdout dmsg;
          Stdout (release.ToString (heap w3 r)
                    (config.VerboseMode (transfer.Config t)) +:+ nl)] :: chunks).
      split; [done|].
      split; [rewrite Ho; cbn; rewrite Ho3; cbn; rewrite <- !app_assoc; done|].
      rewrite fmap_cons. constructor.
      * exists dmsg. left. exists (heap w3 r). split; [apply Hn3 | done].
      * cbn [heap printf] in Hch. by rewrite (sameNames_fmap _ _ _ Hn3) in Hch.
Qed.

(** C9, as the code has it.  In a dry run neither orchestrator hands any
    release to the install capability, and the cluster is left as it
    was.  For each release of the batch, in order, the import loop
    prints the line that announces it and then either the rendering of
    that release or, only for the manager release whose storage path
    could not be rewritten, the log line of the skip; so does the
    transfer loop, given the state handle its run dereferences. *)
Theorem dry_run_installs_nothing (ti : importt.Import) (tt : transfer.Transfer)
        (sched : list (list nat)) (releases : list ptr) w :
  config.DryRun (importt.Config ti) = true ->
  config.DryRun (transfer.Config tt) = true ->
  (∃ w' chunks,
      importt.deployReleases ti sched releases w = (Returns None, w')
      ∧ cluster w' = cluster w
      ∧ out w' = out w ++ concat chunks
      ∧ installed (concat chunks) = []
      ∧ Forall2
          (dryRunLines
             (config.VerboseMode (importt.Config ti))
             (config.ImportConfig.NewStoragePath (config.Import (importt.Config ti)))
             (mgrstate.Info (importt.State ti)))
          ((fun q => rls.Name (heap w q)) <$> releases) chunks)
  ∧ (installed (out (snd (transfer.deployReleases tt sched releases w)))
     = installed (out w)
     ∧ cluster (snd (transfer.deployReleases tt sched releases w)) = cluster w)
  ∧ (∀ st, transfer.State tt = Some st ->
           ∃ w' chunks,
             transfer.deployReleases tt sched releases w = (Returns None, w')
             ∧ out w' = out w ++ concat chunks
             ∧ Forall2
                 (dryRunLines (config.VerboseMode (transfer.Config tt))
                              (newPath tt) (mgrstate.Info st))
                 ((fun q => rls.Name (heap w q)) <$> releases) chunks).
Proof.
  intros Hi Ht. split; [|split].
  - destruct (import_dry_run ti releases Hi sched w)
      as (w' & chunks & Hrun & Hc & Ho & Hch).
    exists w', chunks. do 3 (split; [done|]).
    split; [by eapply dryRunLines_installed | done].
  - by apply transfer_dry_run_no_install.
  - intros st Hst. by apply transfer_dry_run.
Qed.

End TransferDispatch.

(** ** The packages on the example data *)

#[local] Existing Instance fixtures.memory.
#[local] Existing Instance fixtures.constantValues.
#[local] Existing Instance fixtures.infoCodec.
#[local] Existing Instance fixtures.releaseOps.
#[local] Existing Instance fixtures.anchored.
#[local] Existing Instance fixtures.helm.

(** *** State record *)

Lemma updateState_twice_witness :
  state.init (fixtures.exporter "mgr") = false
  ∧ state.Serialize fixtures.managerInfo
    = (fixtures.toBytes "mgr.release|mgr|3", None)
  ∧ state.writes
      (state.calls
         (snd (state.updateState fixtures.managerInfo
                 (snd (state.updateState fixtures.managerInfo
                         (fixtures.exporter "mgr")))))) = 1.
Proof.
  assert (Hinit : state.init (fixtures.exporter "mgr") = false) by reflexivity.
  assert (Hser : state.Serialize fixtures.managerInfo
                 = (fixtures.toBytes "mgr.release|mgr|3", None))
    by (vm_compute; reflexivity).
  split; [exact Hinit|]. split; [exact Hser|].
  destruct (updateState_twice fixtures.managerInfo (fixtures.exporter "mgr")
              (fixtures.toBytes "mgr.release|mgr|3") Hinit Hser)
    as (H1 & H2 & _).
  rewrite H2; [exact H1|]. vm_compute. reflexivity.
Defined.

Lemma Update_manager_release_witness :
  state.ExportReleaseName (fixtures.exporter "mgr") ≠ ""
  ∧ state.Update [fixtures.releaseA; fixtures.releaseMgr; fixtures.releaseB]
                 (fixtures.exporter "mgr")
    = state.updateState fixtures.managerInfo (fixtures.exporter "mgr")
  ∧ state.calls
      (snd (state.Update [fixtures.releaseA; fixtures.releaseB]
                         (fixtures.exporter "mgr")))
    = [state.CDelete "manager.state"].
Proof.
  assert (Hne : state.ExportReleaseName (fixtures.exporter "mgr") ≠ "") by done.
  split; [exact Hne|].
  destruct (Update_manager_release
              [fixtures.releaseA; fixtures.releaseB] (fixtures.exporter "mgr") Hne)
    as [_ Hnone].
  split; [reflexivity|].
  refine (proj1 (proj2 (proj2 (Hnone _)))).
  intros r Hr.
  apply elem_of_cons in Hr as [->|Hr]; [done|].
  apply elem_of_cons in Hr as [->|Hr]; [done|].
  by apply elem_of_nil in Hr.
Defined.

Lemma Update_no_release_name_witness :
  state.ExportReleaseName (fixtures.exporter "") = ""
  ∧ fst (state.Update [fixtures.releaseMgr] (fixtures.exporter "")) = None
  ∧ state.calls (snd (state.Update [fixtures.releaseMgr] (fixtures.exporter "")))
    = [].
Proof.
  split; [reflexivity|].
  destruct (Update_no_release_name [fixtures.releaseMgr] (fixtures.exporter "")
                                   eq_refl) as (H1 & _ & H3 & _).
  split; [exact H1 | exact H3].
Defined.

(** The stored releases, read with no two goroutines interleaved. *)
Example StoredReleases_serial :
  fst (state.StoredReleases [] (fixtures.exporter "mgr"))
  = ([fixtures.releaseA; fixtures.releaseB], None).
Proof. vm_compute. reflexivity. Qed.

(** C8, on the code.  The store lists two release files, the state record
    and a foreign file; both release files are read and decoded without
    error.  The two goroutines both evaluate [append( *ret, r)] before
    either assigns the result: [StoredReleases] returns without error and
    without the release [a], although nothing failed to decode. *)
Theorem StoredReleases_loses_release :
  fst (state.StoredReleaseNames (fixtures.exporter "mgr"))
  = (["a.release"; "b.release"], None)
  ∧ fst (state.ReadRelease "a.release" (fixtures.exporter "mgr"))
    = (Some fixtures.releaseA, None)
  ∧ fst (state.ReadRelease "b.release" (fixtures.exporter "mgr"))
    = (Some fixtures.releaseB, None)
  ∧ fst (state.StoredReleases [0; 1; 0; 1; 0; 1] (fixtures.exporter "mgr"))
    = ([fixtures.releaseB], None).
Proof. vm_compute. repeat split; reflexivity. Qed.

(** *** Conflict check *)

(** C1, on the code.  No state record was read ([Info] is nil), no new
    storage path is given, neither force nor dry-run is set.  The import
    check returns nil.  The transfer check tests the state handle
    [t.State], which is never nil in a run, instead of the record: it
    takes the conflict case and returns the conflict error, and so does
    the transfer run. *)
Theorem transfer_sanityCheck_without_record :
  mgrstate.Info (fixtures.handle None) = None
  ∧ config.TransferConfig.NewStoragePath
      (config.Transfer (fixtures.importing "" false false ∅)) = ""
  ∧ importt.sanityCheck
      (importt.mkImport (fixtures.importing "" false false ∅) (fixtures.handle None))
      (fixtures.world fixtures.releaseMgr)
    = (None, fixtures.world fixtures.releaseMgr)
  ∧ transfer.sanityCheck
      (transfer.mkTransfer (fixtures.importing "" false false ∅)
                           (Some (fixtures.handle None)))
      (fixtures.world fixtures.releaseMgr)
    = (Some ("Existing state exists at manager.state but --new-path wasn't specified."
             +:+ nl +:+ transfer.warn),
       fixtures.world fixtures.releaseMgr)
  ∧ fst (transfer.Run
           (H2 := fixtures.methods [0; 1] None) []
           (transfer.mkTransfer (fixtures.importing "" false false ∅)
                                (Some (fixtures.handle None)))
           (fixtures.world fixtures.releaseMgr))
    = Returns
        (Some ("Existing state exists at manager.state but --new-path wasn't specified."
               +:+ nl +:+ transfer.warn)).
Proof. repeat split; vm_compute; reflexivity. Qed.

(** The same input with the import run: the batch is deployed. *)
Example import_Run_without_record :
  fst (importt.Run
         (H2 := fixtures.methods [0; 1] None) (fun _ => []) []
         (importt.mkImport (fixtures.importing "" false false ∅)
                           (fixtures.handle None))
         (fixtures.world fixtures.releaseMgr))
  = Returns None.
Proof. vm_compute. reflexivity. Qed.

Lemma sanityCheck_conflict_witness :
  mgrstate.Info (fixtures.handle (Some fixtures.managerInfo))
  = Some fixtures.managerInfo
  ∧ config.ImportConfig.NewStoragePath
      (config.Import (fixtures.importing "" false false ∅)) = ""
  ∧ config.TransferConfig.NewStoragePath
      (config.Transfer (fixtures.importing "" false false ∅)) = ""
  ∧ (∃ msg,
        fst (importt.sanityCheck
               (importt.mkImport (fixtures.importing "" false false ∅)
                                 (fixtures.handle (Some fixtures.managerInfo)))
               (fixtures.world fixtures.releaseMgr)) = Some msg
        ∧ names msg "/")
  ∧ (∃ msg,
        fst (transfer.sanityCheck
               (transfer.mkTransfer
                  (fixtures.importing "" false false ∅)
                  (Some (fixtures.handle (Some fixtures.managerInfo))))
               (fixtures.world fixtures.releaseMgr)) = Some msg
        ∧ names msg "manager.state").
Proof.
  do 3 (split; [reflexivity|]).
  destruct (sanityCheck_conflict
              (importt.mkImport (fixtures.importing "" false false ∅)
                                (fixtures.handle (Some fixtures.managerInfo)))
              (transfer.mkTransfer
                 (fixtures.importing "" false false ∅)
                 (Some (fixtures.handle (Some fixtures.managerInfo))))
              fixtures.managerInfo
              (fixtures.handle (Some fixtures.managerInfo))
              (fixtures.world fixtures.releaseMgr)
              eq_refl eq_refl eq_refl eq_refl eq_refl)
    as [(_ & _ & Hi) (_ & _ & Ht)].
  split; [exact (proj2 (Hi eq_refl eq_refl)) | exact (proj2 (Ht eq_refl eq_refl))].
Defined.

(** With force the same check lets the run go on and logs a warning. *)
Example sanityCheck_force :
  importt.sanityCheck
    (importt.mkImport (fixtures.importing "" true false ∅)
                      (fixtures.handle (Some fixtures.managerInfo)))
    (fixtures.world fixtures.releaseMgr)
  = (None,
     logf WarnLevel
          ("Existing state manager.state exists in path / but --new-path wasn't specified."
           +:+ nl +:+ "--force specified. Proceeding...")
          (fixtures.world fixtures.releaseMgr)).
Proof. vm_compute. reflexivity. Qed.

(** *** Filtering, rewriting and dispatching *)

(** Allow namespace [default] on the batch [a] (default), [b]
    (kube-system): only [a] is kept. *)
Example filter_allow_default :
  importt.filterReleasesByNamespace
    (importt.mkImport
       {| config.Backend := config.Backend fixtures.emptyConfig;
          config.Export := config.Export fixtures.emptyConfig;
          config.Import :=
            {| config.ImportConfig.Namespace := "default";
               config.ImportConfig.ExcludeNamespaces := ["default"];
               config.ImportConfig.Values := ∅;
               config.ImportConfig.Target := "";
               config.ImportConfig.NewStoragePath := "";
               config.ImportConfig.Force := false |};
          config.Transfer := config.Transfer fixtures.emptyConfig;
          config.DryRun := false;
          config.VerboseMode := false |}
       (fixtures.handle None))
    [0; 1] (fixtures.store fixtures.releaseMgr)
  = [0].
Proof. vm_compute. reflexivity. Qed.

Lemma updateValues_spec_witness :
  visits
    (importt.mkImport (fixtures.importing "" false false {[ "replicas" := "2" ]})
                      (fixtures.handle None))
    (fun _ => [("replicas", "2")])
  ∧ rls.Values
      (heap (snd (importt.updateValues
                    (fun _ => [("replicas", "2")]) [0; 1]
                    (fixtures.world fixtures.releaseMgr))) 1)
    !! "replicas" = Some "2".
Proof.
  assert (Hv : visits
                 (importt.mkImport
                    (fixtures.importing "" false false {[ "replicas" := "2" ]})
                    (fixtures.handle None))
                 (fun _ => [("replicas", "2")])).
  { intros n. vm_compute. reflexivity. }
  split; [exact Hv|].
  pose proof (updateValues_spec (H2 := fixtures.methods [0; 1] None)
                                _ _ [0; 1] (fixtures.world fixtures.releaseMgr) Hv)
    as H.
  cbv zeta in H. destruct H as (_ & _ & _ & H).
  assert (E : snd (fst (importt.updateValues
                          (fun _ => [("replicas", "2")]) [0; 1]
                          (fixtures.world fixtures.releaseMgr))) = None)
    by (vm_compute; reflexivity).
  rewrite E in H. destruct H as (_ & _ & H).
  apply H; [by right; left | reflexivity].
Defined.

(** A batch with a release whose values are locked: the stage returns the
    error of the rewrite and no release. *)
Example updateValues_locked :
  fst (importt.updateValues
         (fun _ => [("replicas", "2")]) [0; 2; 1]
         (fixtures.world fixtures.lockedMgr))
  = ([], Some "values are locked").
Proof. vm_compute. reflexivity. Qed.

Lemma deployReleases_continues_witness :
  config.DryRun (fixtures.importing "" false false ∅) = false
  ∧ 0 < constants.ImportMaxThreads
  ∧ ∃ w' new,
      importt.deployReleases
        (importt.mkImport (fixtures.importing "" false false ∅) (fixtures.handle None))
        [[]; [0]] [2; 1; 0] (fixtures.world fixtures.unplaced)
      = (Returns None, w')
      ∧ out w' = out (fixtures.world fixtures.unplaced) ++ new
      ∧ length (installed new) + skipped new = 3.
Proof.
  assert (Hpos : 0 < constants.ImportMaxThreads) by (cbn; lia).
  split; [reflexivity|]. split; [exact Hpos|].
  destruct (deployReleases_continues
              (importt.mkImport (fixtures.importing "" false false ∅)
                                (fixtures.handle None))
              [[]; [0]] [2; 1; 0] (fixtures.world fixtures.unplaced) eq_refl Hpos)
    as [(w' & new & Hrun & Hout & Hlen & _) _].
  exists w', new. by repeat split.
Defined.

(** What that batch prints: the install of [c] fails and is reported, the
    install of [b] finds the release and is reported as a skip, [a] is
    installed; the run returns nil. *)
Example deployReleases_output :
  let res :=
    importt.deployReleases
      (importt.mkImport (fixtures.importing "" false false ∅) (fixtures.handle None))
      [[]; [0]] [2; 1; 0] (fixtures.world fixtures.unplaced) in
  fst res = Returns None
  ∧ cluster (snd res) = ["b"; "a"]
  ∧ out (snd res)
    = [Stdout ("Deploying release c to namespace " +:+ nl);
       Stdout ("Deploying release b to namespace kube-system" +:+ nl);
       Install fixtures.unplaced;
       Stdout ("Error deploying release c: no namespace: c" +:+ nl);
       Stdout ("Deploying release a to namespace default" +:+ nl);
       Install fixtures.releaseB;
       Stdout ("Skipping release: b already exists" +:+ nl);
       Install fixtures.releaseA;
       Stdout ("Successfully deployed release a" +:+ nl)].
Proof. vm_compute. repeat split; reflexivity. Qed.

(** *** Dry run *)

(** C9 as stated fails: the manager release is in the batch, a new path is
    given and its values cannot be rewritten.  The dry run logs the skip
    and never prints a rendering of that release. *)
Lemma dry_run_skips_rendering :
  ¬ rendersEach false (fixtures.store fixtures.lockedMgr) [2]
      (out (snd (importt.deployReleases
                   (importt.mkImport
                      (fixtures.importing "s3://new" false true ∅)
                      (fixtures.handle (Some fixtures.managerInfo)))
                   [] [2] (fixtures.world fixtures.lockedMgr)))).
Proof.
  intros Hall. destruct (Hall 2) as (rel & Hname & Hin); [left|].
  assert (Hout :
            out (snd (importt.deployReleases
                        (importt.mkImport
                           (fixtures.importing "s3://new" false true ∅)
                           (fixtures.handle (Some fixtures.managerInfo)))
                        [] [2] (fixtures.world fixtures.lockedMgr)))
            = [Stdout ("Deploying release mgr to namespace default" +:+ nl);
               Log ErrorLevel importt.skipping])
    by (vm_compute; reflexivity).
  rewrite Hout in Hin. clear Hout.
  destruct rel as [n ns v vals]. cbn in Hname. subst n.
  apply elem_of_cons in Hin as [Heq|Hin].
  - cbv in Heq. discriminate Heq.
  - apply elem_of_cons in Hin as [Heq|Hin]; [discriminate Heq|].
    by apply elem_of_nil in Hin.
Qed.

Lemma dry_run_installs_nothing_witness :
  config.DryRun (fixtures.importing "s3://new" false true ∅) = true
  ∧ installed
      (out (snd (importt.deployReleases
                   (importt.mkImport
                      (fixtures.importing "s3://new" false true ∅)
                      (fixtures.handle (Some fixtures.managerInfo)))
                   [] [0; 2; 1] (fixtures.world fixtures.lockedMgr))))
    = []
  ∧ installed
      (out (snd (transfer.deployReleases
                   (transfer.mkTransfer
                      (fixtures.importing "s3://new" false true ∅)
                      (Some (fixtures.handle (Some fixtures.managerInfo))))
                   [] [0; 2; 1] (fixtures.world fixtures.lockedMgr))))
    = [].
Proof.
  split; [reflexivity|].
  destruct (dry_run_installs_nothing
              (importt.mkImport
                 (fixtures.importing "s3://new" false true ∅)
                 (fixtures.handle (Some fixtures.managerInfo)))
              (transfer.mkTransfer
                 (fixtures.importing "s3://new" false true ∅)
                 (Some (fixtures.handle (Some fixtures.managerInfo))))
              [] [0; 2; 1] (fixtures.world fixtures.lockedMgr) eq_refl eq_refl)
    as ((w' & chunks & Hrun & _ & Hout & Hinst & _) & (Ht & _) & _).
  split; [|exact Ht].
  rewrite Hrun. cbn [snd]. rewrite Hout, installed_append, Hinst. reflexivity.
Defined.

(** What that dry run prints: [a] and [b] are rendered, the manager release
    is skipped. *)
Example dry_run_output :
  out (snd (importt.deployReleases
              (importt.mkImport
                 (fixtures.importing "s3://new" false true ∅)
                 (fixtures.handle (Some fixtures.managerInfo)))
              [] [0; 2; 1] (fixtures.world fixtures.lockedMgr)))
  = [Stdout ("Deploying release a to namespace default" +:+ nl);
     Stdout ("a.default" +:+ nl);
     Stdout ("Deploying release mgr to namespace default" +:+ nl);
     Log ErrorLevel importt.skipping;
     Stdout ("Deploying release b to namespace kube-system" +:+ nl);
     Stdout ("b.kube-system" +:+ nl)].
Proof. vm_compute. reflexivity. Qed.

(** * Further properties *)

(** ** Paths and the remaining methods of the state *)

Lemma append_inj_l (a x y : string) : a +:+ x = a +:+ y -> x = y.
Proof.
  induction a as [|c a IH]; [done|].
  change (String c (a +:+ x) = String c (a +:+ y) -> x = y).
  intros [= Heq]. by apply IH.
Qed.

Section StateMethods.

Context {B : Type} `{!backend.Backend B} `{!constants.Values}
        `{!state.Codec} `{!release.Ops} `{!release.Encoder}.

Implicit Types (s : state.State B) (i : state.Info).

(** Two file names that differ give two paths that differ, and the path
    of a file ends with its name. *)
Theorem remoteFilePath_injective s (n1 n2 : string) :
  (state.remoteFilePath s n1 = state.remoteFilePath s n2 -> n1 = n2)
  ∧ ∃ dir, state.remoteFilePath s n1 = dir +:+ n1.
Proof.
  unfold state.remoteFilePath.
  destruct (decide (state.StoragePath s = backend.PathSeparator (state.Backend s))).
  - split; [done|]. by exists "".
  - split.
    + intros Heq. apply append_inj_l in Heq. by apply append_inj_l in Heq.
    + exists (state.StoragePath s +:+ backend.PathSeparator (state.Backend s)).
      by rewrite append_assoc.
Qed.

(** [Exists] lists the path of the state record, once.  It answers true
    exactly when the listing succeeds with one entry, and reports an error
    exactly when the listing fails or has more than one entry; it never
    answers true together with an error. *)
Theorem Exists_spec s :
  state.calls (snd (state.Exists s)) = state.calls s ++ [state.CList (state.Path s)]
  ∧ (fst (fst (state.Exists s)) = true <->
     ∃ n b, backend.List (state.Path s) (state.Backend s) = (([n], None), b))
  ∧ (snd (fst (state.Exists s)) = None <->
     ∃ l b, backend.List (state.Path s) (state.Backend s) = ((l, None), b)
            ∧ length l ≤ 1)
  ∧ (fst (fst (state.Exists s)) = true -> snd (fst (state.Exists s)) = None).
Proof.
  unfold state.Exists.
  change (state.Path (state.logf InfoLevel _ s)) with (state.Path s).
  change (state.Backend (state.logf InfoLevel
            ("Check if remote state file " +:+ state.Path s +:+ " exists") s))
    with (state.Backend s).
  destruct (backend.List (state.Path s) (state.Backend s)) as [[l [e|]] b].
  { cbn. split; [done|]. split; [|split; [|done]].
    - split; [done|]. intros (n & b' & [=]).
    - split; [done|]. intros (l' & b' & [=] & _). }
  destruct l as [|n [|n' l]]; cbn.
  - split; [done|]. split; [|split; [|done]].
    + split; [done|]. intros (n & b' & [=]).
    + split; [|done]. intros _. exists [], b. split; [done | cbn; lia].
  - split; [done|]. split; [|split; [|done]].
    + split; [|done]. intros _. by exists n, b.
    + split; [|done]. intros _. exists [n], b. split; [done | cbn; lia].
  - split; [done|]. split; [|split; [|done]].
    + split; [done|]. intros (m & b' & [=]).
    + split; [done|]. intros (l' & b' & [= <- <-] & Hlen). cbn in Hlen. lia.
Qed.

(** [Init] always returns nil and leaves [init] unset.  Without a
    configured manager release name it makes no backend call; with one it
    makes exactly one, the removal of the state record, whose failure is
    logged and not returned. *)
Theorem Init_spec s :
  fst (state.Init s) = None
  ∧ state.init (snd (state.Init s)) = false
  ∧ (state.ExportReleaseName s = "" ->
     state.calls (snd (state.Init s)) = state.calls s
     ∧ state.Backend (snd (state.Init s)) = state.Backend s)
  ∧ (state.ExportReleaseName s ≠ "" ->
     state.calls (snd (state.Init s)) = state.calls s ++ [state.CDelete (state.Path s)]
     ∧ state.Backend (snd (state.Init s))
       = snd (backend.Delete (state.Path s) (state.Backend s))).
Proof.
  unfold state.Init.
  change (state.ExportReleaseName (state.setInit false s))
    with (state.ExportReleaseName s).
  destruct (decide (state.ExportReleaseName s ≠ "")) as [Hne|He].
  - cbn. unfold state.Path, state.remoteFilePath, state.StoragePath. cbn.
    destruct (backend.Delete _ _) as [[e|] b]; cbn;
      (do 2 (split; [done|]); split; [done|]; by intros _).
  - cbn. do 2 (split; [done|]). split; [done|]. intros Hne. by destruct He.
Qed.

Lemma updateState_trace i s :
  state.init (snd (state.updateState i s)) = true
  ∧ ∃ new,
      state.calls (snd (state.updateState i s)) = state.calls s ++ new
      ∧ state.writes new ≤ 1
      ∧ (if state.init s
         then ∃ rest, new = state.CRead (state.Path s) :: rest ∧ reads rest = 0
         else reads new = 0).
Proof.
  assert (Hw : ∀ s' : state.State B,
             state.init (snd (state.write i s')) = state.init s'
             ∧ ∃ new, state.calls (snd (state.write i s')) = state.calls s' ++ new
                      ∧ state.writes new ≤ 1 ∧ reads new = 0).
  { intros s'. unfold state.write.
    destruct (state.Serialize i) as [f [e|]].
    - split; [done|]. exists []. rewrite app_nil_r.
      split; [done|]. split; [cbn; lia | done].
    - destruct (backend.Write _ _ _) as [err b]. split; [done|].
      eexists [_]. split; [done|]. rewrite writes_one.
      split; [cbn; lia | done]. }
  unfold state.updateState. destruct (state.init s) eqn:Hinit.
  - destruct (read_calls s) as [Hrc Hri].
    destruct (state.read s) as [[oldInfo e] s1]. cbn [fst snd] in Hrc, Hri.
    set (s2 := match e with
               | Some e' => _
               | None => _
               end).
    assert (Hs2 : ∃ upd s2', s2 = (upd, s2') ∧ state.calls s2' = state.calls s1
                            ∧ state.init s2' = true).
    { subst s2. destruct e as [e|]; eexists _, _; (split; [done|]); cbn;
        by rewrite Hri. }
    destruct Hs2 as (upd & s2' & -> & Hc2 & Hi2).
    destruct ((if negb (state.DeepEqual i oldInfo) then true else upd)
              || negb (state.init s2')) eqn:Hupd.
    + destruct (Hw (state.logf DebugLevel
                      ("Updating state " +:+ state.ReleaseName i +:+ ".") s2'))
        as (Hi & new & Hc & Hwr & Hrd).
      split; [by rewrite Hi|].
      exists (state.CRead (state.Path s) :: new).
      split; [rewrite Hc; cbn; rewrite Hc2, Hrc, <- app_assoc; done|].
      split; [|by exists new].
      change (state.CRead (state.Path s) :: new)
        with ([state.CRead (state.Path s)] ++ new).
      rewrite writes_app, writes_one. cbn. lia.
    + cbn [fst snd]. split; [done|]. exists [state.CRead (state.Path s)].
      split; [by rewrite Hc2, Hrc|]. split; [rewrite writes_one; cbn; lia|].
      by exists [].
  - cbn [orb].
    destruct (Hw (state.logf DebugLevel
                    ("Updating state " +:+ state.ReleaseName i +:+ ".")
                    (state.setInit true s)))
      as (Hi & new & Hc & Hwr & Hrd).
    split; [by rewrite Hi|]. exists new. by rewrite Hc.
Qed.

(** [updateState] leaves [init] set, whatever happens: only the first call
    of a run skips the read.  A call makes at most one write; when [init]
    is set it first reads the state record. *)
Theorem updateState_calls i s :
  state.init (snd (state.updateState i s)) = true
  ∧ ∃ new,
      state.calls (snd (state.updateState i s)) = state.calls s ++ new
      ∧ state.writes new ≤ 1
      ∧ (if state.init s
         then ∃ rest, new = state.CRead (state.Path s) :: rest ∧ reads rest = 0
         else reads new = 0).
Proof. exact (updateState_trace i s). Qed.

Lemma Path_fixed s (s' : state.State B) :
  Faithful B -> state.Config s' = state.Config s -> state.Path s' = state.Path s.
Proof.
  intros HF Hc. unfold state.Path, state.remoteFilePath, state.StoragePath.
  by rewrite Hc, (separator_fixed B HF (state.Backend s') (state.Backend s)).
Qed.

Lemma remoteFilePath_fixed s (s' : state.State B) (n : string) :
  Faithful B -> state.Config s' = state.Config s ->
  state.remoteFilePath s' n = state.remoteFilePath s n.
Proof.
  intros HF Hc. unfold state.remoteFilePath, state.StoragePath.
  by rewrite Hc, (separator_fixed B HF (state.Backend s') (state.Backend s)).
Qed.

Lemma read_config s : state.Config (snd (state.read s)) = state.Config s.
Proof.
  unfold state.read. cbn. destruct (backend.Read _ _) as [[f [e|]] b]; [done|].
  by destruct (state.Unmarshal f).
Qed.

Lemma write_config i s : state.Config (snd (state.write i s)) = state.Config s.
Proof.
  unfold state.write. destruct (state.Serialize i) as [f [e|]]; [done|].
  by destruct (backend.Write _ _ _).
Qed.

(** Reading a record the backend holds returns it and leaves it held. *)
Lemma read_holdsRecord i s :
  Faithful B -> holdsRecord i s ->
  fst (state.read s) = (Some i, None)
  ∧ holdsRecord i (snd (state.read s))
  ∧ state.calls (snd (state.read s)) = state.calls s ++ [state.CRead (state.Path s)]
  ∧ state.init (snd (state.read s)) = state.init s.
Proof.
  intros HF (f & b & Hread & Hdec).
  pose proof (read_config s) as Hcfg. revert Hcfg.
  unfold state.read.
  change (state.Backend (state.logf DebugLevel
            ("Reading state from " +:+ state.Path s) s)) with (state.Backend s).
  rewrite Hread, Hdec. cbn. intros Hcfg.
  do 1 (split; [done|]). split; [|done].
  destruct (read_again B HF _ _ _ _ Hread) as (b'' & Hagain).
  exists f, b''. split; [|done].
  unfold state.Path, state.remoteFilePath, state.StoragePath in *. cbn.
  by rewrite (separator_fixed B HF b (state.Backend s)).
Qed.

(** A write that succeeds leaves the record held. *)
Lemma write_holdsRecord i s :
  Faithful B -> decodesBack i -> fst (state.write i s) = None ->
  holdsRecord i (snd (state.write i s)).
Proof.
  intros HF Hback. unfold state.write.
  destruct (state.Serialize i) as [f [e|]] eqn:Hser; [done|].
  destruct (backend.Write _ _ _) as [err b] eqn:Hw. cbn. intros ->.
  destruct (read_after_write B HF _ _ _ _ Hw) as (b'' & Hread).
  exists f, b''. split; [|by apply Hback].
  unfold state.Path, state.remoteFilePath, state.StoragePath in *. cbn.
  by rewrite (separator_fixed B HF b (state.Backend s)).
Qed.

Lemma holdsRecord_logf i s (l : Level) (msg : string) :
  holdsRecord i s -> holdsRecord i (state.logf l msg s).
Proof. done. Qed.

Lemma holdsRecord_setInit i s (v : bool) :
  holdsRecord i s -> holdsRecord i (state.setInit v s).
Proof. done. Qed.

(** An [updateState] that returns nil leaves the candidate held. *)
Lemma updateState_success_holds i s :
  Faithful B -> decodesBack i ->
  fst (state.updateState i s) = None ->
  holdsRecord i (snd (state.updateState i s)).
Proof.
  intros HF Hback.
  unfold state.updateState. destruct (state.init s) eqn:Hinit.
  - destruct (state.read s) as [[oldInfo e] s1] eqn:Hread.
    destruct e as [e|].
    + destruct (negb (state.DeepEqual i oldInfo)); cbn [orb];
        intros Hok; by apply write_holdsRecord.
    + destruct oldInfo as [o|]; cbn [state.DeepEqual negb].
      * destruct (bool_decide (i = o)) eqn:Hio; cbn [negb orb].
        -- apply bool_decide_eq_true_1 in Hio. subst o.
           pose proof (read_calls s) as [_ Hri]. rewrite Hread in Hri.
           cbn [snd] in Hri. rewrite Hri, Hinit. cbn [negb]. intros _.
           cbn [snd].
           revert Hread. unfold state.read.
           change (state.Backend (state.logf DebugLevel
                     ("Reading state from " +:+ state.Path s) s))
             with (state.Backend s).
           destruct (backend.Read (state.Path s) (state.Backend s))
             as [[f [e|]] b] eqn:Hb; [done|].
           destruct (state.Unmarshal f) as [i' e'] eqn:Hu.
           intros [= -> -> <-].
           destruct (read_again B HF _ _ _ _ Hb) as (b'' & Hagain).
           exists f, b''. split; [|done].
           unfold state.Path, state.remoteFilePath, state.StoragePath in *. cbn.
           by rewrite (separator_fixed B HF b (state.Backend s)).
        -- intros Hok. by apply write_holdsRecord.
      * cbn [orb]. intros Hok. by apply write_holdsRecord.
  - cbn [orb]. intros Hok. by apply write_holdsRecord.
Qed.

(** On a faithful backend, an [updateState] that returns nil leaves the
    candidate as the stored record, whatever the store held before and
    whether or not the call had to write: the next read returns the
    candidate. *)
Theorem updateState_converges i s :
  Faithful B -> decodesBack i ->
  fst (state.updateState i s) = None ->
  holdsRecord i (snd (state.updateState i s))
  ∧ fst (state.read (snd (state.updateState i s))) = (Some i, None).
Proof.
  intros HF Hback Hok.
  pose proof (updateState_success_holds i s HF Hback Hok) as Hh.
  split; [done|]. by apply read_holdsRecord.
Qed.

(** With the record held and [init] set, [updateState] reads and does not
    write. *)
Lemma updateState_held i s :
  Faithful B -> holdsRecord i s -> state.init s = true ->
  fst (state.updateState i s) = None
  ∧ holdsRecord i (snd (state.updateState i s))
  ∧ state.init (snd (state.updateState i s)) = true
  ∧ state.writes (state.calls (snd (state.updateState i s)))
    = state.writes (state.calls s).
Proof.
  intros HF Hh Hinit.
  destruct (read_holdsRecord i s HF Hh) as (Hr & Hh' & Hc & Hi).
  unfold state.updateState. rewrite Hinit.
  destruct (state.read s) as [[oldInfo e] s1]. cbn [fst snd] in Hr, Hh', Hc, Hi.
  injection Hr as -> ->. cbn [state.DeepEqual].
  rewrite bool_decide_eq_true_2 by done. cbn [negb orb].
  rewrite Hi, Hinit. cbn [negb fst snd].
  do 3 (split; [done || congruence|]).
  rewrite Hc, writes_app, writes_one. cbn. lia.
Qed.

(** On a faithful backend, however often [updateState] is repeated with
    the candidate of a first call that succeeded, no further write is
    made and every call returns nil: one write in all. *)
Theorem updateState_repeated i s (n : nat) :
  Faithful B -> decodesBack i ->
  state.init s = false ->
  fst (state.updateState i s) = None ->
  let again := Nat.iter n (fun s' => snd (state.updateState i s'))
                        (snd (state.updateState i s)) in
  state.writes (state.calls again) = S (state.writes (state.calls s))
  ∧ fst (state.updateState i again) = None.
Proof.
  intros HF Hback Hinit Hok again.
  assert (Hfirst : holdsRecord i (snd (state.updateState i s))
                   ∧ state.init (snd (state.updateState i s)) = true
                   ∧ state.writes (state.calls (snd (state.updateState i s)))
                     = S (state.writes (state.calls s))).
  { split; [by apply updateState_success_holds|].
    split; [apply (updateState_trace i s)|].
    revert Hok. unfold state.updateState. rewrite Hinit. cbn [orb].
    destruct (state.Serialize i) as [f [e|]] eqn:Hser.
    { unfold state.write. by rewrite Hser. }
    intros _.
    destruct (write_calls i (state.logf DebugLevel
                ("Updating state " +:+ state.ReleaseName i +:+ ".")
                (state.setInit true s)) f Hser) as [Hc _].
    rewrite Hc, writes_app, writes_one. unfold state.writes. cbn. lia. }
  assert (Hinv : holdsRecord i again ∧ state.init again = true
                 ∧ state.writes (state.calls again)
                   = S (state.writes (state.calls s))).
  { subst again. induction n as [|n IH]; [exact Hfirst|].
    cbn [Nat.iter]. destruct IH as (Hh & Hi & Hw).
    destruct (updateState_held i _ HF Hh Hi) as (_ & Hh' & Hi' & Hw').
    split; [exact Hh'|]. split; [exact Hi'|].
    etrans; [exact Hw' | exact Hw]. }
  destruct Hinv as (Hh & Hi & Hw). split; [done|].
  by destruct (updateState_held i again HF Hh Hi) as (? & _).
Qed.

(** On a faithful backend a release that was written is read back: after
    a [WriteRelease] that succeeds, [ReadRelease] of its file name returns
    the release, provided the decoder inverts the encoder on it. *)
Theorem WriteRelease_ReadRelease (r : rls.Release) s (f : bytes) :
  Faithful B ->
  release.ToFile r = (f, None) ->
  release.FromFile f = (r, None) ->
  fst (state.WriteRelease r s) = None ->
  fst (state.ReadRelease (release.Filename r) (snd (state.WriteRelease r s)))
  = (Some r, None).
Proof.
  intros HF Henc Hdec. unfold state.WriteRelease. rewrite Henc.
  change (state.Backend (state.logf DebugLevel
            ("Writing remote release " +:+
             state.remoteFilePath s (release.Filename r)) s))
    with (state.Backend s).
  destruct (backend.Write _ _ _) as [err b] eqn:Hw. cbn [fst snd]. intros ->.
  destruct (read_after_write B HF _ _ _ _ Hw) as (b'' & Hread).
  unfold state.ReadRelease.
  set (s1 := state.called _ b _).
  assert (Hp : state.remoteFilePath s1 (release.Filename r)
               = state.remoteFilePath s (release.Filename r))
    by (by apply remoteFilePath_fixed).
  rewrite Hp.
  change (state.Backend (state.logf DebugLevel
            ("Reading remote release " +:+
             state.remoteFilePath s (release.Filename r)) s1)) with b.
  by rewrite Hread, Hdec.
Qed.

(** The first [Update] of a run that finds the manager release writes its
    record without reading the remote state: after [Init], the only call
    is the write of the candidate, whose result is returned. *)
Theorem Init_then_Update (releases pre post : list rls.Release)
        (r : rls.Release) s (f : bytes) :
  state.ExportReleaseName s ≠ "" ->
  releases = pre ++ r :: post ->
  (∀ x, x ∈ pre -> rls.Name x ≠ state.ExportReleaseName s) ->
  rls.Name r = state.ExportReleaseName s ->
  state.Serialize (state.mkInfo (release.Filename r) (state.ExportReleaseName s)
                                (rls.Version r)) = (f, None) ->
  let s1 := snd (state.Init s) in
  state.calls (snd (state.Update releases s1))
  = state.calls s1 ++ [state.CWrite (state.Path s1) f]
  ∧ fst (state.Update releases s1)
    = fst (backend.Write (state.Path s1) f (state.Backend s1)).
Proof.
  intros Hne -> Hpre Hr Hser s1.
  assert (Hcfg : state.ExportReleaseName s1 = state.ExportReleaseName s).
  { subst s1. unfold state.Init.
    change (state.ExportReleaseName (state.setInit false s))
      with (state.ExportReleaseName s).
    rewrite decide_True by done. cbn.
    by destruct (backend.Delete _ _) as [[e|] b]. }
  assert (Hinit : state.init s1 = false) by apply (Init_unsets_init s).
  unfold state.Update. rewrite decide_False by (by rewrite Hcfg).
  rewrite Update_range_first; [|by rewrite Hcfg..].
  unfold state.candidate. rewrite Hcfg.
  unfold state.updateState. rewrite Hinit. cbn [orb].
  unfold state.write. rewrite Hser.
  change (state.Path (state.logf DebugLevel _ (state.setInit true s1)))
    with (state.Path s1).
  change (state.Backend (state.logf DebugLevel
            ("Updating state " +:+ state.ExportReleaseName s +:+ ".")
            (state.setInit true s1))) with (state.Backend s1).
  by destruct (backend.Write _ _ _).
Qed.

Lemma Path_separator s (s' : state.State B) :
  (∀ b b' : B, backend.PathSeparator b = backend.PathSeparator b') ->
  state.Config s' = state.Config s -> state.Path s' = state.Path s.
Proof.
  intros Hsep Hc. unfold state.Path, state.remoteFilePath, state.StoragePath.
  by rewrite Hc, (Hsep (state.Backend s') (state.Backend s)).
Qed.

Lemma write_shape i s :
  ∃ new, state.calls (snd (state.write i s)) = state.calls s ++ new
         ∧ (new = [] ∨ ∃ f, new = [state.CWrite (state.Path s) f]).
Proof.
  unfold state.write. destruct (state.Serialize i) as [f [e|]].
  - exists []. split; [by rewrite app_nil_r | by left].
  - destruct (backend.Write _ _ _) as [err b].
    eexists [_]. split; [done|]. right. by eexists.
Qed.

(** The calls one [updateState] makes, when the path separator of the
    backend does not depend on the store: nothing, a write, a read, or a
    read followed by a write, all on the path of the state record. *)
Lemma updateState_shape i s :
  (∀ b b' : B, backend.PathSeparator b = backend.PathSeparator b') ->
  ∃ new, state.calls (snd (state.updateState i s)) = state.calls s ++ new
         ∧ (new = []
            ∨ (∃ f, new = [state.CWrite (state.Path s) f])
            ∨ new = [state.CRead (state.Path s)]
            ∨ ∃ f, new = [state.CRead (state.Path s);
                          state.CWrite (state.Path s) f]).
Proof.
  intros Hsep. unfold state.updateState. destruct (state.init s) eqn:Hinit.
  - destruct (read_calls s) as [Hrc Hri]. pose proof (read_config s) as Hcfg.
    destruct (state.read s) as [[oldInfo e] s1].
    cbn [fst snd] in Hrc, Hri, Hcfg.
    set (s2 := match e with
               | Some e' => _
               | None => _
               end).
    assert (Hs2 : ∃ upd s2', s2 = (upd, s2') ∧ state.calls s2' = state.calls s1
                            ∧ state.Config s2' = state.Config s1).
    { subst s2. destruct e as [e|]; by eexists _, _. }
    destruct Hs2 as (upd & s2' & -> & Hc2 & Hcfg2).
    destruct ((if negb (state.DeepEqual i oldInfo) then true else upd)
              || negb (state.init s2')).
    + destruct (write_shape i (state.logf DebugLevel
                  ("Updating state " +:+ state.ReleaseName i +:+ ".") s2'))
        as (new & Hc & Hnew).
      assert (Hp : state.Path (state.logf DebugLevel
                     ("Updating state " +:+ state.ReleaseName i +:+ ".") s2')
                   = state.Path s).
      { apply Path_separator; [done|]. cbn. congruence. }
      rewrite Hp in Hnew.
      exists (state.CRead (state.Path s) :: new).
      split; [rewrite Hc; cbn; rewrite Hc2, Hrc, <- app_assoc; done|].
      destruct Hnew as [->|(f & ->)]; [by right; right; left|].
      right; right; right. by exists f.
    + exists [state.CRead (state.Path s)]. cbn [snd].
      split; [by rewrite Hc2, Hrc | by right; right; left].
  - cbn [orb].
    destruct (write_shape i (state.logf DebugLevel
                ("Updating state " +:+ state.ReleaseName i +:+ ".")
                (state.setInit true s))) as (new & Hc & Hnew).
    exists new. split; [done|].
    destruct Hnew as [->|(f & ->)]; [by left|]. right; left. by exists f.
Qed.

(** The backend calls of one [Update], when the path separator of the
    backend does not depend on the store: none, one delete, one write, one
    read, or a read followed by a write, each on the path of the state
    record.  [Update] never lists the backend and never writes twice. *)
Theorem Update_shape (releases : list rls.Release) s :
  (∀ b b' : B, backend.PathSeparator b = backend.PathSeparator b') ->
  ∃ new, state.calls (snd (state.Update releases s)) = state.calls s ++ new
         ∧ (new = []
            ∨ new = [state.CDelete (state.Path s)]
            ∨ (∃ f, new = [state.CWrite (state.Path s) f])
            ∨ new = [state.CRead (state.Path s)]
            ∨ ∃ f, new = [state.CRead (state.Path s);
                          state.CWrite (state.Path s) f]).
Proof.
  intros Hsep. unfold state.Update.
  destruct (decide (state.ExportReleaseName s = "")).
  { exists []. split; [by rewrite app_nil_r | by left]. }
  induction releases as [|r rest IH]; cbn [state.Update_range].
  - exists [state.CDelete (state.Path s)]. split; [|by right; left].
    unfold state.delete. cbn. by destruct (backend.Delete _ _).
  - destruct (state.isManagerRelease s (rls.Name r)); [|exact IH].
    destruct (updateState_shape (state.candidate s r) s Hsep) as (new & Hc & Hnew).
    exists new. split; [done|].
    destruct Hnew as [->|[Hw|[->|Hrw]]]; [by left | | |].
    + right; right; left. exact Hw.
    + by right; right; right; left.
    + right; right; right; right. exact Hrw.
Qed.

End StateMethods.

(** ** Reading the stored releases under any schedule *)

Section AnySchedule.

Context {B : Type} `{!backend.Backend B} `{!constants.Values}
        `{!release.Ops} `{!regexp.Engine}.

Implicit Types (p : state.Pool B) (g : state.Goroutine).

Lemma unread_app (rs1 rs2 : list state.Goroutine) :
  unread (rs1 ++ rs2) = unread rs1 ++ unread rs2.
Proof. apply omap_app. Qed.

Lemma unread_started (fs : list string) : unread (state.Started <$> fs) = fs.
Proof. induction fs as [|f fs IH]; [done|]. cbn. f_equal. exact IH. Qed.

(** A step of a goroutine: it leaves the goroutine past its read, keeps the
    list of goroutines and the configuration, and calls the backend only to
    read the file of a goroutine that had not read yet. *)
Lemma step_spec g p :
  unread [fst (state.step g p)] = []
  ∧ state.routines (snd (state.step g p)) = state.routines p
  ∧ state.Config (state.self (snd (state.step g p))) = state.Config (state.self p)
  ∧ state.calls (state.self (snd (state.step g p)))
    = state.calls (state.self p)
      ++ ((fun f => state.CRead (state.remoteFilePath (state.self p) f))
            <$> unread [g]).
Proof.
  destruct g as [f|r|r old|]; cbn [state.step];
    try (cbn; by rewrite app_nil_r).
  unfold state.ReadRelease.
  change (state.Backend (state.logf DebugLevel
            ("Reading remote release " +:+ state.remoteFilePath (state.self p) f)
            (state.self p))) with (state.Backend (state.self p)).
  destruct (backend.Read _ _) as [[b [e|]] st]; [done|].
  destruct (release.FromFile b) as [r [e|]]; done.
Qed.

Lemma unread_insert (rs : list state.Goroutine) (n : nat) g (g' : state.Goroutine) :
  rs !! n = Some g -> unread [g'] = [] ->
  unread rs ≡ₚ unread [g] ++ unread (<[n := g']> rs).
Proof.
  intros Hn Hg'.
  assert (Hlt : n < length rs) by (by eapply lookup_lt_Some).
  rewrite (insert_take_drop rs n g' Hlt).
  rewrite <- (take_drop_middle rs n g Hn) at 1.
  rewrite !unread_app.
  change (g :: drop (S n) rs) with ([g] ++ drop (S n) rs).
  change (g' :: drop (S n) rs) with ([g'] ++ drop (S n) rs).
  rewrite !unread_app, Hg'. cbn [app].
  rewrite !app_assoc. f_equiv. apply Permutation_app_comm.
Qed.

Lemma stepAt_accounted (s1 : state.State B) (filenames : list string) p (n : nat) :
  (∀ b b' : B, backend.PathSeparator b = backend.PathSeparator b') ->
  accounted s1 filenames p -> accounted s1 filenames (state.stepAt p n).
Proof.
  intros Hsep (Hcfg & new & Hc & Hperm). unfold state.stepAt.
  destruct (state.routines p !! n) as [g|] eqn:Hn; [|by split; [|exists new]].
  destruct (step_spec g p) as (Hg' & Hrs & Hcfg' & Hc').
  destruct (state.step g p) as [g' p']. cbn [fst snd] in *.
  split; [cbn; congruence|].
  exists (new ++ ((fun f => state.CRead (state.remoteFilePath s1 f)) <$> unread [g])).
  split.
  - cbn. rewrite Hc', Hc, <- app_assoc. do 2 f_equal.
    apply list_fmap_ext. intros _ f _. f_equal.
    unfold state.remoteFilePath, state.StoragePath.
    by rewrite Hcfg, (Hsep (state.Backend (state.self p)) (state.Backend s1)).
  - cbn [state.routines]. rewrite Hrs, <- Hperm.
    rewrite (unread_insert (state.routines p) n g g' Hn Hg').
    by rewrite fmap_app, app_assoc.
Qed.

Lemma stepAt_length p (n : nat) :
  length (state.routines (state.stepAt p n)) = length (state.routines p).
Proof.
  unfold state.stepAt. destruct (state.routines p !! n) as [g|]; [|done].
  destruct (step_spec g p) as (_ & Hrs & _).
  destruct (state.step g p) as [g' p']. cbn in *. by rewrite length_insert, Hrs.
Qed.

Lemma stepAt_other p (n m : nat) :
  n ≠ m -> state.routines (state.stepAt p n) !! m = state.routines p !! m.
Proof.
  intros Hne. unfold state.stepAt.
  destruct (state.routines p !! n) as [g|]; [|done].
  destruct (step_spec g p) as (_ & Hrs & _).
  destruct (state.step g p) as [g' p']. cbn in *.
  by rewrite list_lookup_insert_ne, Hrs.
Qed.

Lemma stepAt_here p (n : nat) g :
  state.routines p !! n = Some g ->
  state.routines (state.stepAt p n) !! n = Some (fst (state.step g p)).
Proof.
  intros Hn. unfold state.stepAt. rewrite Hn.
  destruct (step_spec g p) as (_ & Hrs & _).
  destruct (state.step g p) as [g' p']. cbn in *.
  apply list_lookup_insert_eq. rewrite Hrs. by eapply lookup_lt_Some.
Qed.

Lemma step_stepsLeft g p : stepsLeft (fst (state.step g p)) ≤ pred (stepsLeft g).
Proof.
  destruct g as [f|r|r old|]; cbn; try lia.
  destruct (state.ReadRelease f (state.self p)) as [[[r|] [e|]] s']; cbn; lia.
Qed.

Lemma three_steps_finish p (n : nat) g :
  state.routines p !! n = Some g ->
  state.routines (state.stepAt (state.stepAt (state.stepAt p n) n) n) !! n
  = Some state.Finished.
Proof.
  intros Hg.
  pose proof (stepAt_here p n g Hg) as Hg1.
  pose proof (stepAt_here _ n _ Hg1) as Hg2.
  pose proof (stepAt_here _ n _ Hg2) as Hg3.
  rewrite Hg3. f_equal.
  pose proof (step_stepsLeft g p) as L1.
  pose proof (step_stepsLeft (fst (state.step g p)) (state.stepAt p n)) as L2.
  pose proof (step_stepsLeft
                (fst (state.step (fst (state.step g p)) (state.stepAt p n)))
                (state.stepAt (state.stepAt p n) n)) as L3.
  destruct (fst (state.step _ (state.stepAt (state.stepAt p n) n))); cbn in *;
    [| | |done];
    destruct g; cbn in *; lia.
Qed.

Lemma stepAt_finished p (n m : nat) :
  state.routines p !! m = Some state.Finished ->
  state.routines (state.stepAt p n) !! m = Some state.Finished.
Proof.
  intros Hm. destruct (decide (n = m)) as [->|Hne].
  - by rewrite (stepAt_here p m _ Hm).
  - by rewrite stepAt_other.
Qed.

Lemma finish_all (l : list nat) :
  ∀ p,
    let p' := fold_left (fun p n => state.stepAt (state.stepAt (state.stepAt p n) n) n)
                        l p in
    length (state.routines p') = length (state.routines p)
    ∧ (∀ m, state.routines p !! m = Some state.Finished ->
            state.routines p' !! m = Some state.Finished)
    ∧ (∀ m, m ∈ l -> m < length (state.routines p) ->
            state.routines p' !! m = Some state.Finished).
Proof.
  induction l as [|n l IH]; intros p; cbn [fold_left].
  - split; [done|]. split; [done|]. intros m Hm. by apply elem_of_nil in Hm.
  - set (q := state.stepAt (state.stepAt (state.stepAt p n) n) n).
    destruct (IH q) as (Hlen & Hkeep & Hall).
    assert (Hq : length (state.routines q) = length (state.routines p)).
    { subst q. by rewrite !stepAt_length. }
    split; [by rewrite Hlen|]. split.
    + intros m Hm. apply Hkeep. subst q. by do 3 apply stepAt_finished.
    + intros m Hm Hlt. apply elem_of_cons in Hm as [->|Hm].
      * apply Hkeep. subst q.
        destruct (lookup_lt_is_Some_2 (state.routines p) n Hlt) as [g Hg].
        by eapply three_steps_finish.
      * apply Hall; [done|]. by rewrite Hq.
Qed.

Lemma unread_finished (rs : list state.Goroutine) :
  (∀ m, m < length rs -> rs !! m = Some state.Finished) -> unread rs = [].
Proof.
  induction rs as [|g rs IH]; intros Hall; [done|].
  pose proof (Hall 0 ltac:(cbn; lia)) as Hg. cbn in Hg. injection Hg as ->.
  cbn. apply IH. intros m Hm. apply (Hall (S m)). cbn. lia.
Qed.

Lemma wait_unread p : unread (state.routines (state.wait p)) = [].
Proof.
  unfold state.wait.
  destruct (finish_all (seq 0 (length (state.routines p))) p) as (Hlen & _ & Hall).
  apply unread_finished. intros m Hm. apply Hall.
  - apply elem_of_seq. rewrite Hlen in Hm. lia.
  - by rewrite <- Hlen.
Qed.

Lemma fold_accounted (s1 : state.State B) (filenames : list string)
      (l : list nat) p :
  (∀ b b' : B, backend.PathSeparator b = backend.PathSeparator b') ->
  accounted s1 filenames p -> accounted s1 filenames (fold_left state.stepAt l p).
Proof.
  intros Hsep. revert p. induction l as [|n l IH]; intros p Hp; [done|].
  cbn [fold_left]. apply IH. by apply stepAt_accounted.
Qed.

Lemma wait_accounted (s1 : state.State B) (filenames : list string) p :
  (∀ b b' : B, backend.PathSeparator b = backend.PathSeparator b') ->
  accounted s1 filenames p -> accounted s1 filenames (state.wait p).
Proof.
  intros Hsep. unfold state.wait.
  generalize (seq 0 (length (state.routines p))). intros l. revert p.
  induction l as [|n l IH]; intros p Hp; [done|].
  cbn [fold_left]. apply IH.
  do 3 (apply stepAt_accounted; [exact Hsep|]). exact Hp.
Qed.

(** However the goroutines of [StoredReleases] are scheduled, and whatever
    reads or decodings fail, the call returns no error and has read every
    listed release file exactly once, making no other backend call after
    the listing (for a backend whose path separator does not depend on
    the store). *)
Theorem StoredReleases_reads_every_file (sched : list nat) (s : state.State B)
        (filenames : list string) (s1 : state.State B) :
  (∀ b b' : B, backend.PathSeparator b = backend.PathSeparator b') ->
  state.StoredReleaseNames s = ((filenames, None), s1) ->
  snd (fst (state.StoredReleases sched s)) = None
  ∧ ∃ new,
      state.calls (snd (state.StoredReleases sched s)) = state.calls s1 ++ new
      ∧ new ≡ₚ (fun f => state.CRead (state.remoteFilePath s1 f)) <$> filenames.
Proof.
  intros Hsep Hnames. unfold state.StoredReleases. rewrite Hnames.
  cbn [fst snd]. split; [done|].
  set (p0 := state.mkPool [] s1 (state.Started <$> filenames)).
  assert (Hp0 : accounted s1 filenames p0).
  { split; [done|]. exists []. split; [by rewrite app_nil_r|].
    subst p0. cbn [app state.routines]. by rewrite unread_started. }
  pose proof (wait_accounted s1 filenames _ Hsep
                (fold_accounted s1 filenames sched p0 Hsep Hp0))
    as (_ & new & Hc & Hperm).
  rewrite wait_unread in Hperm. cbn [fmap list_fmap] in Hperm.
  rewrite app_nil_r in Hperm. by exists new.
Qed.

End AnySchedule.

(** ** The namespaces flag *)

Lemma Replace_chars (s : string) (old c : Ascii.ascii) :
  c ∈ chars (gostrings.Replace s old "") <-> c ∈ chars s ∧ c ≠ old.
Proof.
  induction s as [|a s IH]; cbn [gostrings.Replace chars].
  - split; [intros Hc; by apply elem_of_nil in Hc|intros [Hc _]; by apply elem_of_nil in Hc].
  - destruct (decide (a = old)) as [->|Hne].
    + change ("" +:+ gostrings.Replace s old "") with (gostrings.Replace s old "").
      rewrite IH, elem_of_cons. split.
      * intros [Hc Hne]. split; [by right|done].
      * intros [[->|Hc] Hne]; [done|by split].
    + cbn [chars]. rewrite !elem_of_cons, IH. split.
      * intros [->|[Hc Hc']]; [split; [by left|done]|split; [by right|done]].
      * intros [[->|Hc] Hc']; [by left|right; by split].
Qed.

Lemma Replace_without (s : string) (old : Ascii.ascii) :
  old ∉ chars s -> gostrings.Replace s old "" = s.
Proof.
  induction s as [|a s IH]; cbn [gostrings.Replace chars]; [done|].
  rewrite not_elem_of_cons. intros [Hne Hs].
  destruct (decide (a = old)) as [->|_]; [done|]. by rewrite IH.
Qed.

Lemma Split_not_nil (s : string) (sep : Ascii.ascii) : gostrings.Split s sep ≠ [].
Proof.
  destruct s as [|a s]; cbn; [done|].
  destruct (decide (a = sep)); [done|]. by destruct (gostrings.Split s sep).
Qed.

Lemma Split_pieces (s : string) (sep : Ascii.ascii) (piece : string) :
  piece ∈ gostrings.Split s sep ->
  (sep ∉ chars piece) ∧ (∀ c, c ∈ chars piece -> c ∈ chars s).
Proof.
  revert piece. induction s as [|a s IH]; intros piece; cbn [gostrings.Split].
  - intros ->%list_elem_of_singleton. split; [apply not_elem_of_nil|done].
  - destruct (decide (a = sep)) as [->|Hne].
    + intros [->|Hin]%elem_of_cons.
      * split; [apply not_elem_of_nil|]. intros c Hc. by apply elem_of_nil in Hc.
      * destruct (IH piece Hin) as [Hsep Hsub]. split; [done|].
        intros c Hc. cbn. apply elem_of_cons. right. by apply Hsub.
    + destruct (gostrings.Split s sep) as [|first others] eqn:Hsplit.
      { by destruct (Split_not_nil s sep). }
      intros [->|Hin]%elem_of_cons.
      * destruct (IH first) as [Hsep Hsub]; [apply elem_of_cons; by left|].
        split.
        -- cbn. rewrite not_elem_of_cons. split; [congruence|done].
        -- intros c. cbn. rewrite !elem_of_cons. intros [->|Hc]; [by left|].
           right. by apply Hsub.
      * destruct (IH piece) as [Hsep Hsub]; [apply elem_of_cons; by right|].
        split; [done|]. intros c Hc. cbn. apply elem_of_cons. right. by apply Hsub.
Qed.

Lemma Split_without (s : string) (sep : Ascii.ascii) :
  sep ∉ chars s -> gostrings.Split s sep = [s].
Proof.
  induction s as [|a s IH]; cbn [gostrings.Split chars]; [done|].
  rewrite not_elem_of_cons. intros [Hne Hs].
  destruct (decide (a = sep)) as [->|_]; [done|]. by rewrite IH.
Qed.

Lemma fold_insert_self (ns : list string) (m : gmap string string) (k v : string) :
  fold_left (fun results n => <[n := n]> results) ns m !! k = Some v ->
  (k ∈ ns ∧ v = k) ∨ m !! k = Some v.
Proof.
  revert m. induction ns as [|n ns IH]; intros m; cbn [fold_left]; [by right|].
  intros [[Hin ->]|Hm]%IH.
  - left. split; [|done]. apply elem_of_cons. by right.
  - destruct (decide (n = k)) as [->|Hne].
    + rewrite lookup_insert_eq in Hm. injection Hm as <-.
      left. split; [|done]. apply elem_of_cons. by left.
    + rewrite lookup_insert_ne in Hm by done. by right.
Qed.

Lemma fold_insert_last (ns : list string) (m : gmap string string) (n : string) :
  n ∈ ns -> is_Some (fold_left (fun results n => <[n := n]> results) ns m !! n).
Proof.
  revert m. induction ns as [|a ns IH]; intros m; [intros Hn; by apply elem_of_nil in Hn|].
  cbn [fold_left]. destruct (decide (n ∈ ns)) as [Hin|Hout]; [intros _; by apply IH|].
  intros [->|Hin]%elem_of_cons; [|done].
  clear IH. revert m. induction ns as [|b ns IH]; intros m; cbn [fold_left].
  - rewrite lookup_insert_eq. by eexists.
  - apply not_elem_of_cons in Hout as [Hne Hout].
    rewrite insert_insert_ne by done. by apply IH.
Qed.

(** [parseNamespaces] never fails and never returns an empty map: every
    key is mapped to itself and holds neither a space nor a comma, and a
    flag without a comma (the empty flag too) gives the one key that is
    the flag without its spaces. *)
Theorem parseNamespaces_spec (namespaces : string) :
  snd (cmd.parseNamespaces namespaces) = None
  ∧ fst (cmd.parseNamespaces namespaces) ≠ ∅
  ∧ (∀ k v : string,
        fst (cmd.parseNamespaces namespaces) !! k = Some v ->
        v = k ∧ (cmd.space ∉ chars k) ∧ (cmd.comma ∉ chars k)
        ∧ (∀ c, c ∈ chars k -> c ∈ chars namespaces))
  ∧ (cmd.comma ∉ chars namespaces ->
     fst (cmd.parseNamespaces namespaces)
     = {[ gostrings.Replace namespaces cmd.space ""
          := gostrings.Replace namespaces cmd.space "" ]}).
Proof.
  unfold cmd.parseNamespaces. cbn [fst snd].
  set (flat := gostrings.Replace namespaces cmd.space "").
  split; [done|]. split; [|split].
  - destruct (gostrings.Split flat cmd.comma) as [|n ns] eqn:Hsplit.
    { by destruct (Split_not_nil flat cmd.comma). }
    intros Hempty.
    destruct (fold_insert_last (n :: ns) ∅ n) as [v Hv]; [apply elem_of_cons; by left|].
    by rewrite Hempty, lookup_empty in Hv.
  - intros k v [[Hin ->]|Hm]%fold_insert_self; [|by rewrite lookup_empty in Hm].
    destruct (Split_pieces flat cmd.comma k Hin) as [Hcomma Hsub].
    split; [done|]. split; [|split; [done|]].
    + intros Hsp. apply Hsub in Hsp. subst flat.
      apply Replace_chars in Hsp. by destruct Hsp.
    + intros c Hc. apply Hsub in Hc. subst flat.
      apply Replace_chars in Hc. by destruct Hc.
  - intros Hcomma. rewrite Split_without; [done|].
    intros Hin. subst flat. apply Replace_chars in Hin. by destruct Hin.
Qed.

(** ** The import run as a whole *)

Lemma installed_logf {C : Type} (l : Level) (msg : string) (w : World C) :
  installed (out (logf l msg w)) = installed (out w).
Proof. cbn. rewrite installed_append. cbn. by rewrite app_nil_r. Qed.

Lemma installed_printf {C : Type} (msg : string) (w : World C) :
  installed (out (printf msg w)) = installed (out w).
Proof. cbn. rewrite installed_append. cbn. by rewrite app_nil_r. Qed.

Section ImportRun.

Context {C : Type} `{!lmhelm.Client C} `{!constants.Values}
        `{!release.Ops} `{!mgrstate.Methods C}.

Implicit Types (t : importt.Import) (w : World C) (r : ptr).

(** A permit that was obtained: the goroutines that finished meanwhile
    are among those in flight. *)
Lemma acquire_Some (choices : list nat) (inflight rest : list ptr) w w' :
  importt.acquire choices inflight w = Some (rest, w') ->
  ∃ done, inflight ≡ₚ done ++ rest ∧ ran done w w'.
Proof.
  unfold importt.acquire.
  destruct (runWorkers_ran choices inflight w) as (done & Hperm & Hran).
  destruct (importt.runWorkers choices inflight w) as [fl w1]. cbn in Hperm, Hran.
  destruct (decide (length fl < constants.ImportMaxThreads)) as [Hlt|Hge].
  - intros [= <- <-]. by exists done.
  - destruct fl as [|r fl]; [done|]. intros [= <- <-].
    exists (done ++ [r]). split.
    + rewrite Hperm. by rewrite <- app_assoc.
    + apply (ran_app done [r] _ _ _ Hran (deployRelease_ran r w1)).
Qed.

(** The dispatch loop ends in one of two ways: it returns nil, or it waits
    for ever for a permit. *)
Lemma deployReleases_range_outcome t (releases : list ptr) :
  ∀ (sched : list (list nat)) (inflight : list ptr) w,
    fst (importt.deployReleases_range t sched releases inflight w) = Returns None
    ∨ fst (importt.deployReleases_range t sched releases inflight w) = Blocks.
Proof.
  induction releases as [|r rest IH]; intros sched inflight w;
    cbn [importt.deployReleases_range].
  - destruct (importt.runWorkers _ _ _). by left.
  - destruct (importt.updateManagerRelease t r _) as [[r' [e|]] w3]; [apply IH|].
    destruct (config.DryRun (importt.Config t)); [apply IH|].
    destruct (importt.acquire _ _ _) as [[fl w4]|]; [apply IH|by right].
Qed.

Lemma sanityCheck_outcome t w :
  (is_Some (fst (importt.sanityCheck t w)) <->
   mgrstate.Info (importt.State t) ≠ None
   ∧ config.ImportConfig.NewStoragePath (config.Import (importt.Config t)) = ""
   ∧ config.ImportConfig.Force (config.Import (importt.Config t)) = false
   ∧ config.DryRun (importt.Config t) = false)
  ∧ heap (snd (importt.sanityCheck t w)) = heap w
  ∧ cluster (snd (importt.sanityCheck t w)) = cluster w
  ∧ installed (out (snd (importt.sanityCheck t w))) = installed (out w).
Proof.
  unfold importt.sanityCheck, importt.resolveStateConflict.
  destruct (decide (mgrstate.Info (importt.State t) ≠ None)) as [HI|HI];
    destruct (decide (config.ImportConfig.NewStoragePath
                        (config.Import (importt.Config t)) = "")) as [HP|HP];
    [rewrite !bool_decide_eq_true_2 by done
    |rewrite bool_decide_eq_true_2, bool_decide_eq_false_2 by done
    |rewrite bool_decide_eq_false_2, bool_decide_eq_true_2 by done
    |rewrite !bool_decide_eq_false_2 by done]; cbn [andb negb].
  - destruct (config.ImportConfig.Force _) eqn:HF;
      [|destruct (config.DryRun _) eqn:HD]; cbn [fst snd].
    + split; [|by rewrite installed_logf].
      split; [intros [? [=]]|intros (_ & _ & [=] & _)].
    + split; [|by rewrite installed_printf].
      split; [intros [? [=]]|intros (_ & _ & _ & [=])].
    + split; [|done]. split; [done|]. intros _. by eexists.
  - cbn [fst snd]. split; [|done].
    split; [intros [? [=]]|intros (_ & ? & _); done].
  - cbn [fst snd]. split; [|done].
    split; [intros [? [=]]|intros (? & _); done].
  - cbn [fst snd]. split; [|by rewrite installed_logf].
    split; [intros [? [=]]|intros (? & _); done].
Qed.

(** The state check of an import fails in exactly one case: a state record
    was read, no new path was given, and neither force nor dry-run is
    set.  In every case it leaves the store and the cluster alone and
    installs nothing; its last case, the unknown error, is never taken;
    with a new path and no record it only logs a warning. *)
Theorem import_sanityCheck_outcome t w :
  (is_Some (fst (importt.sanityCheck t w)) <->
   mgrstate.Info (importt.State t) ≠ None
   ∧ config.ImportConfig.NewStoragePath (config.Import (importt.Config t)) = ""
   ∧ config.ImportConfig.Force (config.Import (importt.Config t)) = false
   ∧ config.DryRun (importt.Config t) = false)
  ∧ heap (snd (importt.sanityCheck t w)) = heap w
  ∧ cluster (snd (importt.sanityCheck t w)) = cluster w
  ∧ installed (out (snd (importt.sanityCheck t w))) = installed (out w)
  ∧ fst (importt.sanityCheck t w)
    ≠ Some "Unknown error performing state sanity checks. Failing"
  ∧ (mgrstate.Info (importt.State t) = None ->
     config.ImportConfig.NewStoragePath (config.Import (importt.Config t)) ≠ "" ->
     importt.sanityCheck t w
     = (None, logf WarnLevel "--path specified but no remote state found." w)).
Proof.
  destruct (sanityCheck_outcome t w) as (Hiff & Hh & Hc & Hi).
  do 4 (split; [done|]). split.
  - intros Hunknown.
    destruct (proj1 Hiff) as (HI & HP & HF & HD); [by rewrite Hunknown|].
    revert Hunknown. unfold importt.sanityCheck, importt.resolveStateConflict.
    rewrite !bool_decide_eq_true_2 by done. cbn [andb]. rewrite HF, HD. cbn [fst].
    discriminate.
  - intros HI HP. unfold importt.sanityCheck.
    rewrite bool_decide_eq_false_2 by (rewrite HI; intros Hn; by apply Hn).
    by rewrite bool_decide_eq_false_2.
Qed.

Lemma processReleases_quiet (it : nat -> list (string * string)) t
      (releases : list ptr) w :
  cluster (snd (importt.processReleases it t releases w)) = cluster w
  ∧ installed (out (snd (importt.processReleases it t releases w)))
    = installed (out w).
Proof.
  unfold importt.processReleases, importt.updateValues.
  destruct (importt.updateValues_range _ _ _ _) as [[e|] h]; cbn [snd];
    (split; [done|]; cbn; rewrite installed_append; cbn; by rewrite app_nil_r).
Qed.

(** An import run that ends with an error, or exits, has not touched the
    cluster and has handed nothing to the install capability: every
    failure is found before the first install, and no failure of an
    install is ever returned (when the methods of the state handle
    install nothing themselves). *)
Theorem import_Run_fails_before_installing (it : nat -> list (string * string))
        (sched : list (list nat)) t w :
  Quiet ->
  fst (importt.Run it sched t w) ≠ Returns None ->
  fst (importt.Run it sched t w) ≠ Blocks ->
  cluster (snd (importt.Run it sched t w)) = cluster w
  ∧ installed (out (snd (importt.Run it sched t w))) = installed (out w).
Proof.
  intros HQ. unfold importt.Run.
  destruct (HQ (importt.State t) w) as (Hc1 & Hi1 & _).
  destruct (mgrstate.StoredReleases (importt.State t) w) as [[batch [e|]] w1];
    cbn [fst snd] in *.
  { intros _ _. by rewrite installed_logf. }
  destruct (processReleases_quiet it t batch w1) as (Hc2 & Hi2).
  destruct (importt.processReleases it t batch w1) as [[releases [e|]] w2];
    cbn [fst snd] in *.
  { intros _ _. split; congruence. }
  destruct (HQ (importt.State t) w2) as (_ & _ & Hc3 & Hi3).
  destruct (mgrstate.Read (importt.State t) w2) as [[[e|] st] w3];
    cbn [fst snd] in *.
  { intros _ _. split; congruence. }
  destruct (sanityCheck_outcome (importt.mkImport (importt.Config t) st) w3)
    as (_ & _ & Hc4 & Hi4).
  destruct (importt.sanityCheck _ w3) as [[e|] w4]; cbn [fst snd] in *.
  { intros _ _. split; congruence. }
  intros Hret Hblock. unfold importt.deployReleases in *.
  by destruct (deployReleases_range_outcome
                 (importt.mkImport (importt.Config t) st) releases sched [] w4).
Qed.

(** A dry run of the import, from the listing of the stored releases to
    the end, under every schedule: the cluster is as before and nothing
    was handed to the install capability. *)
Theorem import_Run_dry_run (it : nat -> list (string * string))
        (sched : list (list nat)) t w :
  Quiet ->
  config.DryRun (importt.Config t) = true ->
  cluster (snd (importt.Run it sched t w)) = cluster w
  ∧ installed (out (snd (importt.Run it sched t w))) = installed (out w).
Proof.
  intros HQ Hdry. unfold importt.Run.
  destruct (HQ (importt.State t) w) as (Hc1 & Hi1 & _).
  destruct (mgrstate.StoredReleases (importt.State t) w) as [[batch [e|]] w1];
    cbn [fst snd] in *.
  { by rewrite installed_logf. }
  destruct (processReleases_quiet it t batch w1) as (Hc2 & Hi2).
  destruct (importt.processReleases it t batch w1) as [[releases [e|]] w2];
    cbn [fst snd] in *.
  { split; congruence. }
  destruct (HQ (importt.State t) w2) as (_ & _ & Hc3 & Hi3).
  destruct (mgrstate.Read (importt.State t) w2) as [[[e|] st] w3];
    cbn [fst snd] in *.
  { split; congruence. }
  destruct (sanityCheck_outcome (importt.mkImport (importt.Config t) st) w3)
    as (_ & _ & Hc4 & Hi4).
  destruct (importt.sanityCheck _ w3) as [[e|] w4]; cbn [fst snd] in *.
  { split; congruence. }
  unfold importt.deployReleases.
  destruct (import_dry_run (importt.mkImport (importt.Config t) st) releases
                           Hdry sched w4)
    as (w' & chunks & -> & Hc5 & Ho5 & Hch).
  cbn [snd]. split; [congruence|].
  rewrite Ho5, installed_append, (dryRunLines_installed _ _ _ _ _ Hch), app_nil_r.
  congruence.
Qed.

(** With a target namespace configured, every release that is handed to
    the install capability carries that namespace, whatever namespace it
    was stored with, under every schedule. *)
Lemma deployReleases_range_target t (releases : list ptr) :
  config.ImportConfig.Target (config.Import (importt.Config t)) ≠ "" ->
  ∀ (sched : list (list nat)) (inflight : list ptr) w,
    Forall (fun q => rls.Namespace (heap w q)
                     = config.ImportConfig.Target (config.Import (importt.Config t)))
           inflight ->
    ∃ new,
      out (snd (importt.deployReleases_range t sched releases inflight w))
      = out w ++ new
      ∧ Forall (fun rel => rls.Namespace rel
                           = config.ImportConfig.Target
                               (config.Import (importt.Config t)))
               (installed new).
Proof.
  intros Htarget.
  set (target := config.ImportConfig.Target (config.Import (importt.Config t))) in *.
  induction releases as [|r rest IH]; intros sched inflight w Hin;
    cbn [importt.deployReleases_range].
  - destruct (runWorkers_ran (hd [] sched) inflight w) as (done & Hperm & Hran).
    destruct (importt.runWorkers (hd [] sched) inflight w) as [fl w1].
    cbn [fst snd] in Hperm, Hran.
    pose proof (ran_app done fl _ _ _ Hran (drain_ran fl w1))
      as (Hh & new & Ho & Hi & Hs).
    exists new. split; [done|]. rewrite Hi. apply Forall_fmap.
    rewrite <- Hperm. exact Hin.
  - fold target. rewrite (decide_True (P := target ≠ "")) by done.
    set (w1 := printf _ w).
    set (w2 := setHeap _ w1).
    assert (Hin2 : Forall (fun q => rls.Namespace (heap w2 q) = target)
                          (inflight ++ [r])).
    { apply Forall_app. split.
      - eapply list.Forall_impl; [exact Hin|]. intros q Hq. subst w2. cbn.
        destruct (decide (r = q)) as [->|Hne].
        + by rewrite fn_lookup_insert.
        + by rewrite fn_lookup_insert_ne.
      - apply Forall_singleton. subst w2. cbn. by rewrite fn_lookup_insert. }
    pose proof (updateManagerRelease_spec t r w2) as (Hr & Hid & _ & Ho3).
    destruct (importt.updateManagerRelease t r w2) as [[r' err] w3].
    cbn [fst snd] in Hr, Hid, Ho3. subst r'.
    assert (Hin3 : Forall (fun q => rls.Namespace (heap w3 q) = target)
                          (inflight ++ [r])).
    { eapply list.Forall_impl; [exact Hin2|]. intros q Hq. cbn.
      destruct (Hid q) as (_ & -> & _). exact Hq. }
    assert (Ho1 : ∃ dmsg, out w3 = out w ++ [Stdout dmsg]).
    { eexists. rewrite Ho3. reflexivity. }
    destruct Ho1 as [dmsg Ho1]. clearbody w2. clear w1 Hin2 Ho3 Hid.
    apply Forall_app in Hin3 as [Hfl Hr].
    destruct err as [e|]; [|destruct (config.DryRun (importt.Config t))].
    + destruct (IH sched inflight (logf ErrorLevel importt.skipping w3) Hfl)
        as (new & Ho & Hall).
      exists (Stdout dmsg :: Log ErrorLevel importt.skipping :: new).
      split; [rewrite Ho; cbn; rewrite Ho1, <- !app_assoc; done|].
      by rewrite installed_stdout, installed_log.
    + destruct (IH sched inflight
                   (printf (release.ToString (heap w3 r)
                              (config.VerboseMode (importt.Config t)) +:+ nl) w3) Hfl)
        as (new & Ho & Hall).
      eexists (Stdout dmsg :: Stdout _ :: new).
      split; [rewrite Ho; cbn; rewrite Ho1, <- !app_assoc; done|].
      by rewrite !installed_stdout.
    + destruct (importt.acquire (hd [] sched) inflight w3) as [[fl w4]|] eqn:Hacq.
      * destruct (acquire_Some _ _ _ _ _ Hacq)
          as (done & Hperm & Hh4 & new1 & Ho4 & Hi4 & _).
        rewrite Hperm in Hfl. apply Forall_app in Hfl as [Hdone Hrest].
        destruct (IH (tl sched) (fl ++ [r]) w4) as (new & Ho & Hall).
        { rewrite Hh4. apply Forall_app. by split. }
        exists (Stdout dmsg :: new1 ++ new).
        split; [rewrite Ho, Ho4, Ho1, <- !app_assoc; done|].
        rewrite installed_stdout, installed_append, Hi4.
        apply Forall_app. split; [|done]. by apply Forall_fmap.
      * exists [Stdout dmsg]. cbn [snd]. split; [done|]. by cbn.
Qed.

(** With a target namespace configured, every release that the import
    hands to the install capability carries that namespace, whatever
    namespace it was stored with: under every schedule, in every mode and
    whatever the number of permits. *)
Theorem deployReleases_installs_into_target t (sched : list (list nat))
        (releases : list ptr) w :
  config.ImportConfig.Target (config.Import (importt.Config t)) ≠ "" ->
  ∃ new,
    out (snd (importt.deployReleases t sched releases w)) = out w ++ new
    ∧ Forall (fun rel => rls.Namespace rel
                         = config.ImportConfig.Target
                             (config.Import (importt.Config t)))
             (installed new).
Proof.
  intros Htarget. unfold importt.deployReleases.
  by apply deployReleases_range_target.
Qed.

End ImportRun.

(** ** The transfer run as a whole *)

Lemma skipped_log_other (l : Level) (msg : string) (o : list Output) :
  msg ≠ importt.skipping -> skipped (Log l msg :: o) = skipped o.
Proof.
  intros Hne. unfold skipped. rewrite list.filter_cons.
  rewrite decide_False; [done|]. intros [= _ Heq]. by apply Hne.
Qed.

Section TransferRun.

Context {C : Type} `{!lmhelm.Client C} `{!constants.Values}
        `{!release.Ops} `{!mgrstate.Methods C}.

Implicit Types (t : transfer.Transfer) (w : World C) (r : ptr).

(** An install goroutine of the transfer: one call of the install
    capability; a failure is logged, not as a skipped release. *)
Lemma transfer_deployRelease_ran r w : ran [r] w (transfer.deployRelease r w).
Proof.
  unfold transfer.deployRelease.
  destruct (lmhelm.Install (heap w r) (cluster w)) as [[e|] c].
  - split; [done|]. eexists [_; _].
    split; [cbn; by rewrite <- app_assoc|].
    split; [reflexivity|].
    rewrite skipped_install. apply skipped_log_other. discriminate.
  - split; [done|]. exists [Install (heap w r)]. by split.
Qed.

Lemma transfer_runWorkers_ran (choices : list nat) (inflight : list ptr) w :
  ∃ done, inflight ≡ₚ done ++ fst (transfer.runWorkers choices inflight w)
          ∧ ran done w (snd (transfer.runWorkers choices inflight w)).
Proof.
  revert inflight w. induction choices as [|c rest IH]; intros inflight w; cbn.
  - exists []. split; [done | apply ran_nil].
  - destruct (inflight !! c) as [r|] eqn:Hc; [|apply IH].
    destruct (IH (delete c inflight) (transfer.deployRelease r w))
      as (done & Hperm & Hran).
    exists (r :: done). split.
    + etrans; [exact (delete_Permutation inflight c r Hc)|].
      cbn. by constructor.
    + apply (ran_app [r] done _ _ _ (transfer_deployRelease_ran r w) Hran).
Qed.

Lemma transfer_wait_ran (inflight : list ptr) w :
  ran inflight w (transfer.wait inflight w).
Proof.
  revert w. induction inflight as [|r rest IH]; intros w; cbn.
  - apply ran_nil.
  - apply (ran_app [r] rest _ _ _ (transfer_deployRelease_ran r w)). apply IH.
Qed.

Lemma transfer_range_installs t (st : mgrstate.State) (releases : list ptr) :
  config.DryRun (transfer.Config t) = false ->
  transfer.State t = Some st ->
  ∀ (sched : list (list nat)) (inflight : list ptr) w,
  ∃ w' new,
    transfer.deployReleases_range t sched releases inflight w = (Returns None, w')
    ∧ out w' = out w ++ new
    ∧ sameNames (heap w) (heap w')
    ∧ length (installed new) + skipped new = length inflight + length releases
    ∧ rls.Name <$> installed new
      ⊆+ (fun q => rls.Name (heap w q)) <$> (inflight ++ releases).
Proof.
  intros Hdry Hst.
  induction releases as [|r rest IH]; intros sched inflight w.
  - cbn [transfer.deployReleases_range].
    destruct (transfer_runWorkers_ran (hd [] sched) inflight w)
      as (done & Hperm & Hran).
    destruct (transfer.runWorkers (hd [] sched) inflight w) as [fl w1].
    cbn [fst snd] in Hperm, Hran.
    pose proof (ran_app done fl _ _ _ Hran (transfer_wait_ran fl w1))
      as (Hh & new & Ho & Hi & Hs).
    exists (transfer.wait fl w1), new.
    split; [done|]. split; [done|].
    split; [intros q; by rewrite Hh|].
    rewrite app_nil_r, Hi, Hs, length_fmap, <- list_fmap_compose.
    split; [rewrite Hperm; cbn; lia|].
    apply Permutation_submseteq. by rewrite Hperm.
  - cbn [transfer.deployReleases_range].
    set (w1 := printf _ w).
    destruct (transfer_updateManagerRelease_some t st r w1 Hst)
      as ([r' err] & w3 & Hup).
    rewrite Hup.
    apply transfer_updateManagerRelease_returns in Hup
      as (Hr & Hid & _ & Ho3 & _).
    cbn [fst] in Hr. subst r'.
    assert (Hn3 : sameNames (heap w) (heap w3)).
    { intros q. by destruct (Hid q) as (-> & _). }
    assert (Ho1 : ∃ dmsg, out w3 = out w ++ [Stdout dmsg]).
    { eexists. rewrite Ho3. reflexivity. }
    destruct Ho1 as [dmsg Ho1]. clearbody w1. clear Hid Ho3.
    destruct err as [e|].
    + destruct (IH sched inflight (logf ErrorLevel transfer.skipping w3))
        as (w' & new & Hrun & Ho & Hn & Hlen & Hsub).
      exists w', (Stdout dmsg :: Log ErrorLevel importt.skipping :: new).
      split; [done|].
      split; [rewrite Ho; cbn; rewrite Ho1, <- !app_assoc; done|].
      split; [intros q; etrans; [apply Hn | apply Hn3]|].
      rewrite skipped_stdout, skipped_skip, installed_stdout, installed_log.
      split; [cbn; lia|].
      etrans; [exact Hsub|]. cbn [heap logf].
      rewrite (sameNames_fmap _ _ _ Hn3), !fmap_app.
      apply submseteq_skips_l. cbn. by apply submseteq_cons.
    + rewrite Hdry.
      destruct (transfer_runWorkers_ran (hd [] sched) inflight w3)
        as (done & Hperm & Hran).
      destruct (transfer.runWorkers (hd [] sched) inflight w3) as [fl w4].
      cbn [fst snd] in Hperm, Hran.
      destruct Hran as (Hh4 & new1 & Ho4 & Hi4 & Hs4).
      destruct (IH (tl sched) (fl ++ [r]) w4)
        as (w' & new & Hrun & Ho & Hn & Hlen & Hsub).
      exists w', (Stdout dmsg :: new1 ++ new).
      split; [done|].
      split; [rewrite Ho, Ho4, Ho1, <- !app_assoc; done|].
      split; [intros q; etrans; [apply Hn|]; rewrite Hh4; apply Hn3|].
      rewrite skipped_stdout, skipped_append, Hs4, installed_stdout.
      rewrite installed_append, Hi4, length_app, length_fmap.
      split.
      { rewrite length_app in Hlen. cbn in Hlen |- *.
        rewrite Hperm, length_app. lia. }
      rewrite fmap_app, <- list_fmap_compose.
      rewrite Hh4 in Hsub.
      rewrite (sameNames_fmap _ _ _ Hn3) in Hsub.
      change (rls.Name ∘ heap w3) with (fun q => rls.Name (heap w3 q)).
      rewrite (sameNames_fmap _ _ _ Hn3).
      rewrite Hperm, <- !app_assoc, (fmap_app _ done).
      apply submseteq_app; [done|].
      etrans; [exact Hsub|]. by rewrite <- !app_assoc.
Qed.

(** A batch dispatched by the transfer, not in dry-run, with a state
    handle, under every schedule of the install goroutines.
    [deployReleases] returns nil whatever the installs returned.  By then
    every release of the batch was either skipped because its manager
    path could not be rewritten or handed to the install capability: the
    installs and the skips add up to the size of the batch, and the
    installed names are names of the batch, each release at most once. *)
Theorem transfer_deployReleases_attempts_all t (st : mgrstate.State)
        (sched : list (list nat)) (releases : list ptr) w :
  config.DryRun (transfer.Config t) = false ->
  transfer.State t = Some st ->
  ∃ w' new,
    transfer.deployReleases t sched releases w = (Returns None, w')
    ∧ out w' = out w ++ new
    ∧ length (installed new) + skipped new = length releases
    ∧ rls.Name <$> installed new
      ⊆+ (fun q => rls.Name (heap w q)) <$> releases.
Proof.
  intros Hdry Hst. unfold transfer.deployReleases.
  destruct (transfer_range_installs t st releases Hdry Hst sched [] w)
    as (w' & new & Hrun & Ho & _ & Hlen & Hsub).
  by exists w', new.
Qed.

(** A dry run of the transfer, from the listing of the stored releases to
    the end, under every schedule and however it ends: the cluster is as
    before and nothing was handed to the install capability. *)
Theorem transfer_Run_dry_run (sched : list (list nat)) t w :
  Quiet ->
  config.DryRun (transfer.Config t) = true ->
  cluster (snd (transfer.Run sched t w)) = cluster w
  ∧ installed (out (snd (transfer.Run sched t w))) = installed (out w).
Proof.
  intros HQ Hdry. unfold transfer.Run.
  destruct (transfer.State t) as [st|]; [|done].
  destruct (HQ st w) as (Hc1 & Hi1 & _).
  destruct (mgrstate.StoredReleases st w) as [[batch [e|]] w1];
    cbn [fst snd] in *.
  { by rewrite installed_logf. }
  destruct (HQ st w1) as (_ & _ & Hc2 & Hi2).
  destruct (mgrstate.Read st w1) as [[[e|] st'] w2]; cbn [fst snd] in *.
  { split; congruence. }
  set (t' := transfer.mkTransfer (transfer.Config t) (Some st')).
  assert (Hs : cluster (snd (transfer.sanityCheck t' w2)) = cluster w2
               ∧ installed (out (snd (transfer.sanityCheck t' w2)))
                 = installed (out w2)).
  { unfold transfer.sanityCheck, transfer.resolveStateConflict. cbn [transfer.State t'].
    destruct (bool_decide _); [|done].
    destruct (config.TransferConfig.Force _);
      [cbn [snd]; by rewrite installed_logf|].
    destruct (config.DryRun _); [cbn [snd]; by rewrite installed_printf|done]. }
  destruct Hs as [Hc3 Hi3].
  destruct (transfer.sanityCheck t' w2) as [[e|] w3]; cbn [fst snd] in *.
  { split; congruence. }
  unfold transfer.deployReleases.
  destruct (transfer_dry_run_no_install t' batch Hdry sched w3) as [Hi4 Hc4].
  split; congruence.
Qed.

End TransferRun.

(** * Further examples *)

#[local] Existing Instance samples.encoder.

(** ** The in-memory store *)

Lemma lookupFile_putFile (path : string) (f : bytes) (b : fixtures.Store) :
  fixtures.lookupFile path (fixtures.putFile path f b) = Some f.
Proof.
  induction b as [|[n g] b IH]; cbn.
  - by rewrite decide_True.
  - destruct (decide (n = path)) as [->|Hne]; cbn.
    + by rewrite decide_True.
    + by rewrite decide_False.
Qed.

(** The in-memory store keeps what is written to it. *)
Lemma memory_faithful : Faithful fixtures.Store.
Proof.
  split.
  - done.
  - intros path f b b' [= <-]. exists (fixtures.putFile path f b). cbn.
    by rewrite lookupFile_putFile.
  - intros path f b b'. cbn.
    destruct (fixtures.lookupFile path b) as [g|] eqn:Hl; [|done].
    intros [= <- <-]. exists b. by rewrite Hl.
Qed.

Lemma managerInfo_decodesBack : decodesBack fixtures.managerInfo.
Proof. intros f Hf. vm_compute in Hf. injection Hf as <-. vm_compute. reflexivity. Qed.

Lemma methods_quiet (batch : list ptr) (info : option state.Info) :
  Quiet (H := fixtures.methods batch info).
Proof. intros st w. done. Qed.

(** ** The state record and the release files *)

Lemma updateState_converges_witness :
  fst (state.updateState fixtures.managerInfo (fixtures.exporter "mgr")) = None
  ∧ fst (state.read (snd (state.updateState fixtures.managerInfo
                            (fixtures.exporter "mgr"))))
    = (Some fixtures.managerInfo, None).
Proof.
  assert (Hok : fst (state.updateState fixtures.managerInfo
                       (fixtures.exporter "mgr")) = None)
    by (vm_compute; reflexivity).
  split; [exact Hok|].
  exact (proj2 (updateState_converges fixtures.managerInfo (fixtures.exporter "mgr")
                  memory_faithful managerInfo_decodesBack Hok)).
Defined.

Lemma updateState_repeated_witness :
  state.init (fixtures.exporter "mgr") = false
  ∧ state.writes
      (state.calls
         (Nat.iter 2 (fun s' => snd (state.updateState fixtures.managerInfo s'))
                   (snd (state.updateState fixtures.managerInfo
                           (fixtures.exporter "mgr")))))
    = 1.
Proof.
  split; [reflexivity|].
  exact (proj1 (updateState_repeated fixtures.managerInfo (fixtures.exporter "mgr") 2
                  memory_faithful managerInfo_decodesBack eq_refl
                  ltac:(vm_compute; reflexivity))).
Defined.

Lemma WriteRelease_ReadRelease_witness :
  release.ToFile fixtures.releaseA = (fixtures.releaseFile "a" "default" 1, None)
  ∧ release.FromFile (fixtures.releaseFile "a" "default" 1)
    = (fixtures.releaseA, None)
  ∧ fst (state.ReadRelease
           (release.Filename fixtures.releaseA)
           (snd (state.WriteRelease fixtures.releaseA (fixtures.exporter "mgr"))))
    = (Some fixtures.releaseA, None).
Proof.
  assert (Hdec : release.FromFile (fixtures.releaseFile "a" "default" 1)
                 = (fixtures.releaseA, None)) by (vm_compute; reflexivity).
  split; [reflexivity|]. split; [exact Hdec|].
  exact (WriteRelease_ReadRelease fixtures.releaseA (fixtures.exporter "mgr")
           (fixtures.releaseFile "a" "default" 1)
           memory_faithful eq_refl Hdec eq_refl).
Defined.

Lemma Init_then_Update_witness :
  state.ExportReleaseName (fixtures.exporter "mgr") ≠ ""
  ∧ state.calls
      (snd (state.Update [fixtures.releaseA; fixtures.releaseMgr; fixtures.releaseB]
                         (snd (state.Init (fixtures.exporter "mgr")))))
    = [state.CDelete "manager.state";
       state.CWrite "manager.state" (fixtures.toBytes "mgr.release|mgr|3")].
Proof.
  assert (Hne : state.ExportReleaseName (fixtures.exporter "mgr") ≠ "") by done.
  split; [exact Hne|].
  refine (eq_trans
            (proj1 (Init_then_Update
                      [fixtures.releaseA; fixtures.releaseMgr; fixtures.releaseB]
                      [fixtures.releaseA] [fixtures.releaseB] fixtures.releaseMgr
                      (fixtures.exporter "mgr")
                      (fixtures.toBytes "mgr.release|mgr|3")
                      Hne eq_refl _ eq_refl _)) _).
  - intros x Hx. apply list_elem_of_singleton in Hx. by subst x.
  - vm_compute. reflexivity.
  - vm_compute. reflexivity.
Defined.

Lemma Update_shape_witness :
  ∃ new,
    state.calls (snd (state.Update [fixtures.releaseMgr] (fixtures.exporter "mgr")))
    = state.calls (fixtures.exporter "mgr") ++ new
    ∧ (new = []
       ∨ new = [state.CDelete (state.Path (fixtures.exporter "mgr"))]
       ∨ (∃ f, new = [state.CWrite (state.Path (fixtures.exporter "mgr")) f])
       ∨ new = [state.CRead (state.Path (fixtures.exporter "mgr"))]
       ∨ ∃ f, new = [state.CRead (state.Path (fixtures.exporter "mgr"));
                     state.CWrite (state.Path (fixtures.exporter "mgr")) f]).
Proof.
  apply (Update_shape [fixtures.releaseMgr] (fixtures.exporter "mgr")).
  intros b b'. reflexivity.
Defined.

Lemma StoredReleases_reads_every_file_witness :
  fst (state.StoredReleaseNames (fixtures.exporter "mgr"))
  = (["a.release"; "b.release"], None)
  ∧ snd (fst (state.StoredReleases [1; 0; 1; 0; 1; 0] (fixtures.exporter "mgr")))
    = None
  ∧ ∃ new,
      state.calls (snd (state.StoredReleases [1; 0; 1; 0; 1; 0]
                                             (fixtures.exporter "mgr")))
      = state.calls (snd (state.StoredReleaseNames (fixtures.exporter "mgr"))) ++ new
      ∧ new ≡ₚ [state.CRead "a.release"; state.CRead "b.release"].
Proof.
  split; [vm_compute; reflexivity|].
  assert (Hsep : ∀ b b' : fixtures.Store,
             backend.PathSeparator b = backend.PathSeparator b')
    by (intros b b'; reflexivity).
  assert (Hnames : state.StoredReleaseNames (fixtures.exporter "mgr")
                   = ((["a.release"; "b.release"], None),
                      snd (state.StoredReleaseNames (fixtures.exporter "mgr"))))
    by (vm_compute; reflexivity).
  destruct (StoredReleases_reads_every_file
              [1; 0; 1; 0; 1; 0] (fixtures.exporter "mgr")
              ["a.release"; "b.release"]
              (snd (state.StoredReleaseNames (fixtures.exporter "mgr")))
              Hsep Hnames)
    as (Hnone & new & Hcalls & Hperm).
  split; [exact Hnone|]. exists new. split; [exact Hcalls|].
  replace [state.CRead "a.release"; state.CRead "b.release"]
    with ((fun f => state.CRead
                      (state.remoteFilePath
                         (snd (state.StoredReleaseNames (fixtures.exporter "mgr")))
                         f)) <$> ["a.release"; "b.release"])
    by (vm_compute; reflexivity).
  exact Hperm.
Defined.

(** ** The runs *)

Lemma import_Run_fails_before_installing_witness :
  (∃ e, fst (importt.Run
               (H2 := fixtures.methods [0; 1] (Some fixtures.managerInfo))
               (fun _ => []) []
               (importt.mkImport (fixtures.importing "" false false ∅)
                                 (fixtures.handle None))
               (fixtures.world fixtures.releaseMgr))
        = Returns (Some e))
  ∧ cluster (snd (importt.Run
                    (H2 := fixtures.methods [0; 1] (Some fixtures.managerInfo))
                    (fun _ => []) []
                    (importt.mkImport (fixtures.importing "" false false ∅)
                                      (fixtures.handle None))
                    (fixtures.world fixtures.releaseMgr)))
    = ["b"].
Proof.
  split; [eexists; vm_compute; reflexivity|].
  apply (import_Run_fails_before_installing
           (H2 := fixtures.methods [0; 1] (Some fixtures.managerInfo))
           (fun _ => []) []
           (importt.mkImport (fixtures.importing "" false false ∅)
                             (fixtures.handle None))
           (fixtures.world fixtures.releaseMgr)).
  - apply methods_quiet.
  - intros Heq. vm_compute in Heq. discriminate Heq.
  - intros Heq. vm_compute in Heq. discriminate Heq.
Defined.

Lemma import_Run_dry_run_witness :
  config.DryRun (fixtures.importing "" false true ∅) = true
  ∧ cluster (snd (importt.Run
                    (H2 := fixtures.methods [0; 2] None)
                    (fun _ => []) [[0]; []]
                    (importt.mkImport (fixtures.importing "" false true ∅)
                                      (fixtures.handle None))
                    (fixtures.world fixtures.releaseMgr)))
    = ["b"]
  ∧ installed
      (out (snd (importt.Run
                   (H2 := fixtures.methods [0; 2] None)
                   (fun _ => []) [[0]; []]
                   (importt.mkImport (fixtures.importing "" false true ∅)
                                     (fixtures.handle None))
                   (fixtures.world fixtures.releaseMgr))))
    = [].
Proof.
  split; [reflexivity|].
  apply (import_Run_dry_run
           (H2 := fixtures.methods [0; 2] None)
           (fun _ => []) [[0]; []]
           (importt.mkImport (fixtures.importing "" false true ∅)
                             (fixtures.handle None))
           (fixtures.world fixtures.releaseMgr)
           (methods_quiet [0; 2] None) eq_refl).
Defined.

Lemma deployReleases_installs_into_target_witness :
  config.ImportConfig.Target (config.Import (samples.retargeted "staging" false))
  ≠ ""
  ∧ ∃ new,
      out (snd (importt.deployReleases
                  (importt.mkImport (samples.retargeted "staging" false)
                                    (fixtures.handle None))
                  [[]; [0]] [0; 2] (fixtures.world fixtures.releaseMgr)))
      = new
      ∧ rls.Namespace <$> installed new = ["staging"; "staging"].
Proof.
  assert (Hne : config.ImportConfig.Target
                  (config.Import (samples.retargeted "staging" false)) ≠ "")
    by done.
  split; [exact Hne|].
  destruct (deployReleases_installs_into_target
              (importt.mkImport (samples.retargeted "staging" false)
                                (fixtures.handle None))
              [[]; [0]] [0; 2] (fixtures.world fixtures.releaseMgr) Hne)
    as (new & Hout & _).
  exists new. split; [exact Hout|].
  cbn [app out fixtures.world] in Hout. rewrite <- Hout.
  vm_compute. reflexivity.
Defined.

Lemma transfer_deployReleases_attempts_all_witness :
  config.DryRun (fixtures.importing "" false false ∅) = false
  ∧ ∃ w' new,
      transfer.deployReleases
        (transfer.mkTransfer (fixtures.importing "" false false ∅)
                             (Some (fixtures.handle None)))
        [[]; [0]] [2; 1; 0] (fixtures.world fixtures.unplaced)
      = (Returns None, w')
      ∧ out w' = out (fixtures.world fixtures.unplaced) ++ new
      ∧ length (installed new) + skipped new = 3.
Proof.
  split; [reflexivity|].
  destruct (transfer_deployReleases_attempts_all
              (transfer.mkTransfer (fixtures.importing "" false false ∅)
                                   (Some (fixtures.handle None)))
              (fixtures.handle None)
              [[]; [0]] [2; 1; 0] (fixtures.world fixtures.unplaced)
              eq_refl eq_refl)
    as (w' & new & Hrun & Hout & Hlen & _).
  exists w', new. by repeat split.
Defined.

Lemma transfer_Run_dry_run_witness :
  config.DryRun (fixtures.importing "" false true ∅) = true
  ∧ cluster (snd (transfer.Run
                    (H2 := fixtures.methods [0; 2] (Some fixtures.managerInfo))
                    [[0]; []]
                    (transfer.mkTransfer (fixtures.importing "" false true ∅)
                                         (Some (fixtures.handle None)))
                    (fixtures.world fixtures.releaseMgr)))
    = ["b"]
  ∧ installed
      (out (snd (transfer.Run
                   (H2 := fixtures.methods [0; 2] (Some fixtures.managerInfo))
                   [[0]; []]
                   (transfer.mkTransfer (fixtures.importing "" false true ∅)
                                        (Some (fixtures.handle None)))
                   (fixtures.world fixtures.releaseMgr))))
    = [].
Proof.
  split; [reflexivity|].
  apply (transfer_Run_dry_run
           (H2 := fixtures.methods [0; 2] (Some fixtures.managerInfo))
           [[0]; []]
           (transfer.mkTransfer (fixtures.importing "" false true ∅)
                                (Some (fixtures.handle None)))
           (fixtures.world fixtures.releaseMgr)
           (methods_quiet [0; 2] (Some fixtures.managerInfo)) eq_refl).
Defined.
